(** * The resilient session client of talespin

    A shallow embedding of the WebSocket client of the game UI.

    - [JS]      the JavaScript values and JSON.stringify;
    - [Browser] sockets, the log of effects, code that reads and writes
                the world and may throw, and the events of the browser;
    - [Lib]     src/lib/gameServer.ts, the client the pages use now: it
                leaves the rejoin after a reconnect to a callback;
    - [Legacy]  src/gameServer.ts, the older class: it queues the rejoin
                message itself;
    - [Page]    the part of src/routes/game/[roomCode]/+page.svelte that
                drives the client;
    - [Text]    a decoder of text frames, to run the examples with;
    - [Wire]    the outbound variants of the wire protocol;
    - [Demo]    callers and states to run the two clients with.

    The functions a caller registers are named by numbers and given
    their meaning by an instance of [Caller]; JSON.parse is a parameter
    ([Decoder]).  Every theorem holds for every caller and every
    decoder. *)

From Stdlib Require Import List String Ascii ZArith Bool Arith Lia DecimalString.
Import ListNotations.
Open Scope string_scope.
Open Scope list_scope.

(* ================================================================== *)
(** ** JavaScript values *)

Module JS.

(** The values that JSON.parse produces and JSON.stringify consumes, as
    trees.  Numbers are the integers: no message of this protocol carries
    a fraction (points and round counters).  An object is the list of its
    own properties in insertion order. *)
#[warnings="-register-all"]
Inductive Json : Type :=
| JNull
| JBool (b : bool)
| JNum (n : Z)
| JStr (s : string)
| JArr (items : list Json)
| JObj (props : list (string * Json)).

(** The errors a piece of JavaScript can throw here. *)
Inductive Exn : Type :=
| SyntaxError        (* JSON.parse on malformed text *)
| TypeError          (* property access on null or undefined *)
| InvalidStateError  (* WebSocket.send while CONNECTING *)
| Raised.            (* anything a caller-supplied callback throws *)

Definition dquote : ascii := "034"%char.
Definition backslash : ascii := "092"%char.

Definition hex_digit (n : nat) : ascii :=
  nth n (list_ascii_of_string "0123456789abcdef") "0"%char.

(** QuoteJSONString, one code unit at a time. *)
Definition escape_char (c : ascii) : string :=
  let n := nat_of_ascii c in
  if (n =? 34)%nat then String backslash (String dquote EmptyString)
  else if (n =? 92)%nat then String backslash (String backslash EmptyString)
  else if (n =? 8)%nat then String backslash "b"
  else if (n =? 12)%nat then String backslash "f"
  else if (n =? 10)%nat then String backslash "n"
  else if (n =? 13)%nat then String backslash "r"
  else if (n =? 9)%nat then String backslash "t"
  else if (n <? 32)%nat then
    String backslash
      (String "u" (String "0" (String "0"
         (String (hex_digit (n / 16)) (String (hex_digit (n mod 16)) EmptyString)))))
  else String c EmptyString.

Fixpoint escape (s : string) : string :=
  match s with
  | EmptyString => EmptyString
  | String c rest => escape_char c ++ escape rest
  end.

Definition quote (s : string) : string :=
  String dquote (escape s ++ String dquote EmptyString).

Fixpoint join (sep : string) (parts : list string) : string :=
  match parts with
  | [] => EmptyString
  | [p] => p
  | p :: rest => p ++ sep ++ join sep rest
  end.

(** JSON.stringify on a tree: no cycle, no BigInt, no toJSON, so it is
    total and always returns text. *)
Fixpoint JSON_stringify (j : Json) : string :=
  match j with
  | JNull => "null"
  | JBool true => "true"
  | JBool false => "false"
  | JNum n => NilZero.string_of_int (Z.to_int n)
  | JStr s => quote s
  | JArr items => "[" ++ join "," (map JSON_stringify items) ++ "]"
  | JObj props =>
      "{" ++ join "," (map (fun kv => (quote (fst kv) ++ ":" ++ JSON_stringify (snd kv))%string)
                            props)
          ++ "}"
  end.

(** ToBoolean. *)
Definition truthy (j : Json) : bool :=
  match j with
  | JNull => false
  | JBool b => b
  | JNum n => negb (n =? 0)%Z
  | JStr s => negb (s =? EmptyString)%string
  | JArr _ | JObj _ => true
  end.

Fixpoint lookup (key : string) (props : list (string * Json)) : option Json :=
  match props with
  | [] => None
  | (k, v) :: rest => if (k =? key)%string then Some v else lookup key rest
  end.

(** A value of the language: [None] is undefined. *)
Definition Value := option Json.

(** [v.key] for a name that no prototype defines: the own property of an
    object, undefined on every other value, a TypeError on null and on
    undefined.  [inr] is the throw. *)
Definition get (v : Value) (key : string) : Value + Exn :=
  match v with
  | None => inr TypeError
  | Some JNull => inr TypeError
  | Some (JObj props) => inl (lookup key props)
  | Some _ => inl None
  end.

Definition truthy_value (v : Value) : bool :=
  match v with
  | None => false
  | Some j => truthy j
  end.

(** An object literal [{ k1: v1, ... }] as JSON.stringify sees it: a
    property whose value is undefined is left out. *)
Fixpoint defined_props (props : list (string * Value)) : list (string * Json) :=
  match props with
  | [] => []
  | (k, Some v) :: rest => (k, v) :: defined_props rest
  | (_, None) :: rest => defined_props rest
  end.

Definition object_literal (props : list (string * Value)) : Json :=
  JObj (defined_props props).

(** Writes a text with ' where the wire has the double quote. *)
Fixpoint wire (s : string) : string :=
  match s with
  | EmptyString => EmptyString
  | String c rest => String (if (c =? "'")%char then dquote else c) (wire rest)
  end.

End JS.
Import JS.

(* ================================================================== *)
(** ** The browser: sockets, effects, events *)

Module Browser.

Definition Handle := nat.       (* a WebSocket object, by its place in the store *)
Definition Ref := nat.          (* an object the caller holds *)
Definition ObserverId := nat.   (* a function given to addMsgHandler *)
Definition NotifierId := nat.   (* a function given to onclose *)

(** WebSocket.readyState. *)
Inductive ReadyState : Type := CONNECTING | OPEN | CLOSING | CLOSED.

Definition readyState_value (r : ReadyState) : Z :=
  match r with
  | CONNECTING => 0
  | OPEN => 1
  | CLOSING => 2
  | CLOSED => 3
  end%Z.

Definition is_closed (r : ReadyState) : bool :=
  match r with CLOSED => true | _ => false end.

(** One WebSocket object.  [wired] says that onopen, onmessage and
    onclose have been assigned by setupSocket; the three closures only
    mention [this], so they are the same for every socket of a client. *)
Record WebSocket : Type := mkWebSocket {
  url : string;
  readyState : ReadyState;
  wired : bool
}.

(** What the program does to the outside world, oldest first. *)
Inductive Effect : Type :=
| ConsoleLog (text : string)
| Constructed (h : Handle) (address : string)   (* new WebSocket(address) *)
| Transmitted (h : Handle) (frame : string)     (* a frame put on the network *)
| CloseStarted (h : Handle)                     (* the closing handshake begins *)
| Delivered (f : ObserverId) (data : Json)      (* handler(data) is entered *)
| Notified (f : option NotifierId)              (* this.onclosehandler() is entered *)
| Uncaught (e : Exn).                           (* an event handler ended by a throw *)

(** The frames put on the network, oldest first. *)
Fixpoint transmitted (t : list Effect) : list string :=
  match t with
  | [] => []
  | Transmitted _ frame :: rest => frame :: transmitted rest
  | _ :: rest => transmitted rest
  end.

(** The observer invocations, oldest first. *)
Fixpoint deliveries (t : list Effect) : list (ObserverId * Json) :=
  match t with
  | [] => []
  | Delivered f data :: rest => (f, data) :: deliveries rest
  | _ :: rest => deliveries rest
  end.

(** How often the reconnect callback was entered. *)
Fixpoint notifications (t : list Effect) : nat :=
  match t with
  | [] => 0
  | Notified _ :: rest => S (notifications rest)
  | _ :: rest => notifications rest
  end.

(** How many sockets were constructed. *)
Fixpoint constructions (t : list Effect) : nat :=
  match t with
  | [] => 0
  | Constructed _ _ :: rest => S (constructions rest)
  | _ :: rest => constructions rest
  end.

(** The whole state: the client object [this] of class [G], every socket
    constructed so far, the objects and the variables [U] of the caller,
    and the log. *)
Record World (G U : Type) : Type := mkWorld {
  this : G;
  sockets : list WebSocket;
  objects : Ref -> Json;
  caller : U;
  trace : list Effect
}.
Arguments mkWorld {G U}.
Arguments this {G U}.
Arguments sockets {G U}.
Arguments objects {G U}.
Arguments caller {G U}.
Arguments trace {G U}.

(** How a piece of code ends. *)
Inductive Completion (A : Type) : Type :=
| Normal (a : A)
| Throw (e : Exn).
Arguments Normal {A}.
Arguments Throw {A}.

(** Code that reads and writes the world and may throw; what was written
    before a throw stays written. *)
Definition M (G U A : Type) : Type := World G U -> Completion A * World G U.

Section Monad.
Context {G U : Type}.

Definition ret {A} (a : A) : M G U A := fun w => (Normal a, w).

Definition throw {A} (e : Exn) : M G U A := fun w => (Throw e, w).

Definition bind {A B} (m : M G U A) (k : A -> M G U B) : M G U B :=
  fun w =>
    match m w with
    | (Normal a, w') => k a w'
    | (Throw e, w') => (Throw e, w')
    end.

Definition with_this (g : G) (w : World G U) : World G U :=
  mkWorld g (sockets w) (objects w) (caller w) (trace w).

Definition with_sockets (l : list WebSocket) (w : World G U) : World G U :=
  mkWorld (this w) l (objects w) (caller w) (trace w).

Definition with_objects (o : Ref -> Json) (w : World G U) : World G U :=
  mkWorld (this w) (sockets w) o (caller w) (trace w).

Definition with_caller (u : U) (w : World G U) : World G U :=
  mkWorld (this w) (sockets w) (objects w) u (trace w).

Definition emit (e : Effect) (w : World G U) : World G U :=
  mkWorld (this w) (sockets w) (objects w) (caller w) (trace w ++ [e]).

Definition get_this : M G U G := fun w => (Normal (this w), w).

Definition modify_this (f : G -> G) : M G U unit :=
  fun w => (Normal tt, with_this (f (this w)) w).

Definition console_log (text : string) : M G U unit :=
  fun w => (Normal tt, emit (ConsoleLog text) w).

End Monad.

Declare Scope js_scope.
Delimit Scope js_scope with js.
Notation "x <- m ;; k" := (bind m (fun x => k))
  (at level 61, m at next level, right associativity) : js_scope.
Notation "m ;; k" := (bind m (fun _ => k))
  (at level 61, right associativity) : js_scope.
Open Scope js_scope.

Section Sockets.
Context {G U : Type}.

Definition socket (h : Handle) (w : World G U) : option WebSocket :=
  nth_error (sockets w) h.

Fixpoint update {A} (i : nat) (f : A -> A) (l : list A) : list A :=
  match l, i with
  | [], _ => []
  | x :: rest, O => f x :: rest
  | x :: rest, S j => x :: update j f rest
  end.

Definition set_readyState (r : ReadyState) (s : WebSocket) : WebSocket :=
  mkWebSocket (url s) r (wired s).

Definition set_wired (s : WebSocket) : WebSocket :=
  mkWebSocket (url s) (readyState s) true.

(** [new WebSocket(address)]: a fresh object, CONNECTING, no handler yet. *)
Definition new_WebSocket (address : string) : M G U Handle :=
  fun w =>
    let h := List.length (sockets w) in
    (Normal h,
     emit (Constructed h address)
       (with_sockets (sockets w ++ [mkWebSocket address CONNECTING false]) w)).

(** [ws.readyState]. *)
Definition ws_readyState (h : Handle) : M G U ReadyState :=
  fun w =>
    match socket h w with
    | Some s => (Normal (readyState s), w)
    | None => (Throw TypeError, w)
    end.

(** [ws.send(frame)]: throws while CONNECTING, transmits while OPEN, and
    silently discards the frame once the socket is closing or closed. *)
Definition ws_send (h : Handle) (frame : string) : M G U unit :=
  fun w =>
    match socket h w with
    | Some s =>
        match readyState s with
        | CONNECTING => (Throw InvalidStateError, w)
        | OPEN => (Normal tt, emit (Transmitted h frame) w)
        | CLOSING | CLOSED => (Normal tt, w)
        end
    | None => (Throw TypeError, w)
    end.

(** [ws.close()]: starts the closing handshake; nothing on a socket that
    is closing or closed.  The close event comes later, from the browser. *)
Definition ws_close (h : Handle) : M G U unit :=
  fun w =>
    match socket h w with
    | Some s =>
        match readyState s with
        | CONNECTING | OPEN =>
            (Normal tt,
             emit (CloseStarted h)
               (with_sockets (update h (set_readyState CLOSING) (sockets w)) w))
        | CLOSING | CLOSED => (Normal tt, w)
        end
    | None => (Throw TypeError, w)
    end.

(** [ws.onopen = ...; ws.onmessage = ...; ws.onclose = ...]. *)
Definition ws_assign_handlers (h : Handle) : M G U unit :=
  fun w =>
    match socket h w with
    | Some _ => (Normal tt, with_sockets (update h set_wired (sockets w)) w)
    | None => (Throw TypeError, w)
    end.

(** [array.forEach(f)]: the elements present when the loop starts, in
    order; a throw ends the loop. *)
Fixpoint forEach {A} (l : list A) (f : A -> M G U unit) : M G U unit :=
  match l with
  | [] => ret tt
  | x :: rest => f x ;; forEach rest f
  end.

End Sockets.

(** *** Caller-supplied functions *)

(** What one invocation of a caller's function does to the client: the
    methods it calls, in order, and whether it then ends by a throw.  The
    methods return nothing, so the calls cannot depend on their results. *)
Record Reaction (Call : Type) : Type := mkReaction {
  calls : list Call;
  raises : bool
}.
Arguments mkReaction {Call}.
Arguments calls {Call}.
Arguments raises {Call}.

(** The functions a caller registers, by name: an observer gets the
    decoded frame, a notifier gets nothing; both read and write the
    caller's own variables. *)
Class Caller (Call U : Type) : Type := {
  observer : ObserverId -> Json -> U -> U * Reaction Call;
  notifier : NotifierId -> U -> U * Reaction Call
}.

(** The environment's JSON.parse: [None] is the SyntaxError. *)
Class Decoder : Type := {
  JSON_parse : string -> option Json
}.

Section Callbacks.
Context {G U Call : Type} {C : Caller Call U}.
Variable exec : Call -> M G U unit.

Definition react (r : Reaction Call) : M G U unit :=
  forEach (calls r) exec ;;
  if raises r then throw Raised else ret tt.

(** [handler(data)]. *)
Definition invoke_observer (f : ObserverId) (data : Json) : M G U unit :=
  fun w =>
    let (u, r) := observer f data (caller w) in
    react r (emit (Delivered f data) (with_caller u w)).

(** [this.onclosehandler()]; [None] is the initial [() => { }]. *)
Definition invoke_notifier (f : option NotifierId) : M G U unit :=
  fun w =>
    match f with
    | None => (Normal tt, emit (Notified None) w)
    | Some n =>
        let (u, r) := notifier n (caller w) in
        react r (emit (Notified (Some n)) (with_caller u w))
    end.

End Callbacks.

(** *** Events *)

Inductive Event : Type :=
| EvOpen (h : Handle)                       (* the handshake succeeded *)
| EvMessage (h : Handle) (payload : string) (* a text frame arrived *)
| EvClose (h : Handle).                     (* the connection is gone *)

(** The three closures that setupSocket assigns. *)
Record Handlers (G U : Type) : Type := mkHandlers {
  handle_open : M G U unit;
  handle_message : string -> M G U unit;
  handle_close : M G U unit
}.
Arguments mkHandlers {G U}.
Arguments handle_open {G U}.
Arguments handle_message {G U}.
Arguments handle_close {G U}.

Section Events.
Context {G U : Type}.

Definition target (ev : Event) : Handle :=
  match ev with
  | EvOpen h | EvMessage h _ | EvClose h => h
  end.

(** The browser fires open only on a CONNECTING socket, message only on
    an OPEN one, and close once, on a socket that is not yet CLOSED. *)
Definition enabled (ev : Event) (w : World G U) : bool :=
  match socket (target ev) w with
  | Some s =>
      match ev, readyState s with
      | EvOpen _, CONNECTING => true
      | EvMessage _ _, OPEN => true
      | EvClose _, (CONNECTING | OPEN | CLOSING) => true
      | _, _ => false
      end
  | None => false
  end.

(** A handler that throws is reported and the event loop goes on. *)
Definition settle (m : M G U unit) (w : World G U) : World G U :=
  match m w with
  | (Normal _, w') => w'
  | (Throw e, w') => emit (Uncaught e) w'
  end.

Definition is_wired (h : Handle) (w : World G U) : bool :=
  match socket h w with
  | Some s => wired s
  | None => false
  end.

Definition move (h : Handle) (r : ReadyState) (w : World G U) : World G U :=
  with_sockets (update h (set_readyState r) (sockets w)) w.

Fixpoint others_closed (cur i : Handle) (l : list WebSocket) : bool :=
  match l with
  | [] => true
  | s :: rest =>
      ((i =? cur)%nat || is_closed (readyState s)) && others_closed cur (S i) rest
  end.

(** [live cur w]: [cur] names a socket of the store that is not closed
    and has its handlers, and every other socket is closed for good. *)
Definition live (cur : Handle) (w : World G U) : bool :=
  match socket cur w with
  | Some s => negb (is_closed (readyState s)) && wired s && others_closed cur 0 (sockets w)
  | None => false
  end.

(** One event: the browser updates readyState, then runs the handler of
    that socket if it has one. *)
Definition fire (hs : Handlers G U) (ev : Event) (w : World G U) : World G U :=
  if enabled ev w then
    match ev with
    | EvOpen h =>
        let w1 := move h OPEN w in
        if is_wired h w then settle (handle_open hs) w1 else w1
    | EvMessage h payload =>
        if is_wired h w then settle (handle_message hs payload) w else w
    | EvClose h =>
        let w1 := move h CLOSED w in
        if is_wired h w then settle (handle_close hs) w1 else w1
    end
  else w.

(** Code that neither reads nor writes the caller's objects. *)
Definition oblivious {A} (m : M G U A) : Prop :=
  forall o w, m (with_objects o w) = (fst (m w), with_objects o (snd (m w))).

(** How a method call may change a socket: not at all, or by starting
    to close it. *)
Definition closing_step (s s' : WebSocket) : Prop :=
  url s' = url s /\ wired s' = wired s /\
  (readyState s' = readyState s \/ (readyState s' = CLOSING /\ readyState s <> CLOSED)).

Definition evolves (a b : option WebSocket) : Prop :=
  match a, b with
  | Some s, Some s' => closing_step s s'
  | None, None => True
  | _, _ => False
  end.

End Events.

End Browser.
Import Browser.

(* ================================================================== *)
(** ** src/lib/gameServer.ts *)

Module Lib.

Definition host : string := "127.0.0.1:8080".
Definition http_host : string := "http://" ++ host.
Definition ws_host : string := "ws://" ++ host.

(** The address every socket of this class is constructed with. *)
Definition ws_address : string := "ws://" ++ host ++ "/ws".

(** The fields of class GameServer. *)
Record GameServer : Type := mkGameServer {
  _ws : Handle;
  onmessage_handler : list ObserverId;
  message_queue : list string;
  onclosehandler : option NotifierId    (* [None]: the initial [() => { }] *)
}.

Definition set__ws (ws : Handle) (g : GameServer) : GameServer :=
  mkGameServer ws (onmessage_handler g) (message_queue g) (onclosehandler g).

Definition set_onmessage_handler (l : list ObserverId) (g : GameServer) : GameServer :=
  mkGameServer (_ws g) l (message_queue g) (onclosehandler g).

Definition set_message_queue (q : list string) (g : GameServer) : GameServer :=
  mkGameServer (_ws g) (onmessage_handler g) q (onclosehandler g).

Definition set_onclosehandler (f : option NotifierId) (g : GameServer) : GameServer :=
  mkGameServer (_ws g) (onmessage_handler g) (message_queue g) f.

(** A call of a public method, as caller code makes it. *)
Inductive Call : Type :=
| CallSend (data : Json)
| CallCreateRoom (name : string)
| CallJoinRoom (room_id name : string)
| CallReady
| CallActivePlayerChoose (card description : string)
| CallPlayersChoose (card : string)
| CallVote (card : string)
| CallAddMsgHandler (func : ObserverId)
| CallClose
| CallOnclose (func : NotifierId).

(** The object a call hands to send, if it sends. *)
Definition payload (c : Call) : option Json :=
  match c with
  | CallSend data => Some data
  | CallCreateRoom name => Some (JObj [("CreateRoom", JObj [("name", JStr name)])])
  | CallJoinRoom room_id name =>
      Some (JObj [("JoinRoom", JObj [("name", JStr name); ("room_id", JStr room_id)])])
  | CallReady => Some (JObj [("Ready", JObj [])])
  | CallActivePlayerChoose card description =>
      Some (JObj [("ActivePlayerChooseCard",
                   JObj [("card", JStr card); ("description", JStr description)])])
  | CallPlayersChoose card => Some (JObj [("PlayerChooseCard", JObj [("card", JStr card)])])
  | CallVote card => Some (JObj [("Vote", JObj [("card", JStr card)])])
  | CallAddMsgHandler _ | CallClose | CallOnclose _ => None
  end.

(** The texts a sequence of calls hands to the socket or to the queue. *)
Fixpoint frames (l : list Call) : list string :=
  match l with
  | [] => []
  | c :: rest =>
      match payload c with
      | Some data => JSON_stringify data :: frames rest
      | None => frames rest
      end
  end.

Section Client.
Context {U : Type} {C : Caller Call U} {D : Decoder}.

Definition send (data : Json) : M GameServer U unit :=
  let data_str := JSON_stringify data in
  g <- get_this ;;
  state <- ws_readyState (_ws g) ;;
  if (readyState_value state =? 1)%Z then
    ws_send (_ws g) data_str
  else
    modify_this (fun g => set_message_queue (message_queue g ++ [data_str]) g).

Definition createRoom (name : string) : M GameServer U unit :=
  send (JObj [("CreateRoom", JObj [("name", JStr name)])]).

Definition joinRoom (room_id name : string) : M GameServer U unit :=
  send (JObj [("JoinRoom", JObj [("name", JStr name); ("room_id", JStr room_id)])]).

Definition ready : M GameServer U unit :=
  send (JObj [("Ready", JObj [])]).

Definition activePlayerChoose (card description : string) : M GameServer U unit :=
  send (JObj [("ActivePlayerChooseCard",
               JObj [("card", JStr card); ("description", JStr description)])]).

Definition playersChoose (card : string) : M GameServer U unit :=
  send (JObj [("PlayerChooseCard", JObj [("card", JStr card)])]).

Definition vote (card : string) : M GameServer U unit :=
  send (JObj [("Vote", JObj [("card", JStr card)])]).

Definition addMsgHandler (func : ObserverId) : M GameServer U unit :=
  modify_this (fun g => set_onmessage_handler (onmessage_handler g ++ [func]) g).

Definition close : M GameServer U unit :=
  g <- get_this ;;
  ws_close (_ws g).

Definition onclose (func : NotifierId) : M GameServer U unit :=
  modify_this (set_onclosehandler (Some func)).

Definition exec (c : Call) : M GameServer U unit :=
  match c with
  | CallSend data => send data
  | CallCreateRoom name => createRoom name
  | CallJoinRoom room_id name => joinRoom room_id name
  | CallReady => ready
  | CallActivePlayerChoose card description => activePlayerChoose card description
  | CallPlayersChoose card => playersChoose card
  | CallVote card => vote card
  | CallAddMsgHandler func => addMsgHandler func
  | CallClose => close
  | CallOnclose func => onclose func
  end.

(** The body of [this._ws.onopen]. *)
Definition on_open : M GameServer U unit :=
  console_log "connected" ;;
  g <- get_this ;;
  if (0 <? List.length (message_queue g))%nat then
    forEach (message_queue g)
      (fun data_str => g' <- get_this ;; ws_send (_ws g') data_str) ;;
    modify_this (set_message_queue [])
  else ret tt.

(** The body of [this._ws.onmessage], on [event.data.toString()]. *)
Definition on_message (payload : string) : M GameServer U unit :=
  match JSON_parse payload with
  | None => throw SyntaxError
  | Some data =>
      g <- get_this ;;
      forEach (onmessage_handler g) (fun handler => invoke_observer exec handler data)
  end.

Definition setupSocket : M GameServer U unit :=
  g <- get_this ;;
  ws_assign_handlers (_ws g).

(** The body of [this._ws.onclose]. *)
Definition on_close : M GameServer U unit :=
  console_log "disconnected" ;;
  ws <- new_WebSocket ws_address ;;
  modify_this (set__ws ws) ;;
  setupSocket ;;
  g <- get_this ;;
  invoke_notifier exec (onclosehandler g).

Definition handlers : Handlers GameServer U :=
  mkHandlers on_open on_message on_close.

(** The field initialisers, before the constructor body runs. *)
Definition fields : GameServer := mkGameServer 0 [] [] None.

Definition constructor : M GameServer U unit :=
  ws <- new_WebSocket ws_address ;;
  modify_this (set__ws ws) ;;
  setupSocket.

(** [new GameServer()] in a fresh page. *)
Definition new_GameServer (o : Ref -> Json) (u : U) : World GameServer U :=
  snd (constructor (mkWorld fields [] o u [])).

(** A run is a sequence of steps: the caller calls a method, passes one
    of its objects to send, changes one of its objects, or the browser
    delivers an event. *)
Inductive Step : Type :=
| Do (c : Call)
| SendObject (r : Ref)
| Mutate (r : Ref) (v : Json)
| Happen (ev : Event).

Definition step (s : Step) (w : World GameServer U) : World GameServer U :=
  match s with
  | Do c => snd (exec c w)
  | SendObject r => snd (send (objects w r) w)
  | Mutate r v => with_objects (fun r' => if (r' =? r)%nat then v else objects w r') w
  | Happen ev => fire handlers ev w
  end.

Definition run (script : list Step) (w : World GameServer U) : World GameServer U :=
  fold_left (fun w s => step s w) script w.

(** The state of the socket [this._ws] points to. *)
Definition current (w : World GameServer U) : option ReadyState :=
  option_map readyState (socket (_ws (this w)) w).

(** What holds between any two steps of a run that starts with the
    constructor: [this._ws] is a live socket with its handlers assigned,
    and every socket it replaced is closed for good. *)
Definition consistent (w : World GameServer U) : bool :=
  live (_ws (this w)) w.

(** [n] close events in a row, each on the socket of the moment. *)
Fixpoint disconnects (n : nat) (w : World GameServer U) : World GameServer U :=
  match n with
  | O => w
  | S n' => disconnects n' (fire handlers (EvClose (_ws (this w))) w)
  end.

(** The steps that change an object of the caller, and the steps that
    read one. *)
Definition is_mutation (st : Step) : bool :=
  match st with Mutate _ _ => true | _ => false end.

Definition reads_object (st : Step) : bool :=
  match st with SendObject _ => true | _ => false end.

Definition without_mutations (script : list Step) : list Step :=
  filter (fun st => negb (is_mutation st)) script.

Definition reads_no_object (script : list Step) : bool :=
  forallb (fun st => negb (reads_object st)) script.

(** Two worlds that differ at most in the caller's objects. *)
Definition same_session (a b : World GameServer U) : Prop :=
  this a = this b /\ sockets a = sockets b /\ caller a = caller b /\ trace a = trace b.

(** The sentence "every decoded frame is delivered to all registered
    observers, once each, in registration order", for one frame. *)
Definition reaches_every_observer (w : World GameServer U) (payload : string) : Prop :=
  forall data, JSON_parse payload = Some data ->
    deliveries (trace (fire handlers (EvMessage (_ws (this w)) payload) w))
    = deliveries (trace w) ++ map (fun f => (f, data)) (onmessage_handler (this w)).

(** The sentence "after close() nothing that a later send queues ever
    reaches the network", for the client in state [w]: whatever the
    browser does next, no further frame goes out. *)
Definition silent_after_close (w : World GameServer U) : Prop :=
  forall data events,
    let w1 := snd (send data (snd (close w))) in
    transmitted (trace (run (map Happen events) w1)) = transmitted (trace w1).

(** Every element of the queue is the text of some value. *)
Definition serialized (w : World GameServer U) : Prop :=
  Forall (fun text => exists data, text = JSON_stringify data) (message_queue (this w)).

(** [this._ws] names a socket of the store. *)
Definition alive (w : World GameServer U) : Prop :=
  exists s, socket (_ws (this w)) w = Some s.

(** [this._ws] names a socket that is not open. *)
Definition offline (w : World GameServer U) : Prop :=
  exists s, socket (_ws (this w)) w = Some s /\ readyState s <> OPEN.

(** What the public methods leave alone: they never replace the socket,
    never drop an observer, never construct or finish a socket, and call
    no callback. *)
Definition quiet (w w' : World GameServer U) : Prop :=
  _ws (this w') = _ws (this w) /\
  (exists l, onmessage_handler (this w') = onmessage_handler (this w) ++ l) /\
  (forall h, evolves (socket h w) (socket h w')) /\
  caller w' = caller w /\
  objects w' = objects w /\
  deliveries (trace w') = deliveries (trace w) /\
  notifications (trace w') = notifications (trace w) /\
  constructions (trace w') = constructions (trace w).

End Client.

End Lib.

(* ================================================================== *)
(** ** src/gameServer.ts *)

Module Legacy.

Definition host : string := "localhost:8080".

Definition ws_address : string := "ws://" ++ host ++ "/ws".

(** The fields of class GameServer.  [joined_room] is declared a string
    but is assigned whatever [data.RoomStatus.room_id] is. *)
Record GameServer : Type := mkGameServer {
  _ws : Handle;
  onmessage_handler : list ObserverId;
  message_queue : list string;
  opened : bool;
  joined_room : Value;
  name : string
}.

Definition set__ws (ws : Handle) (g : GameServer) : GameServer :=
  mkGameServer ws (onmessage_handler g) (message_queue g) (opened g) (joined_room g) (name g).

Definition set_onmessage_handler (l : list ObserverId) (g : GameServer) : GameServer :=
  mkGameServer (_ws g) l (message_queue g) (opened g) (joined_room g) (name g).

Definition set_message_queue (q : list string) (g : GameServer) : GameServer :=
  mkGameServer (_ws g) (onmessage_handler g) q (opened g) (joined_room g) (name g).

Definition set_opened (b : bool) (g : GameServer) : GameServer :=
  mkGameServer (_ws g) (onmessage_handler g) (message_queue g) b (joined_room g) (name g).

Definition set_joined_room (v : Value) (g : GameServer) : GameServer :=
  mkGameServer (_ws g) (onmessage_handler g) (message_queue g) (opened g) v (name g).

Definition set_name (s : string) (g : GameServer) : GameServer :=
  mkGameServer (_ws g) (onmessage_handler g) (message_queue g) (opened g) (joined_room g) s.

Inductive Call : Type :=
| CallSend (data : Json)
| CallPing
| CallCreateRoom (name : string)
| CallJoinRoom (room_id name : string)
| CallStartRound
| CallActivePlayerChoose (card description : string)
| CallPlayersChoose (card : string)
| CallVote (card : string)
| CallAddMsgHandler (func : ObserverId)
| CallClose.

(** [v !== ''] *)
Definition is_not_empty_string (v : Value) : bool :=
  match v with
  | Some (JStr s) => negb (s =? EmptyString)%string
  | _ => true
  end.

Section Client.
Context {U : Type} {C : Caller Call U} {D : Decoder}.

Definition send (data : Json) : M GameServer U unit :=
  let data_str := JSON_stringify data in
  g <- get_this ;;
  state <- ws_readyState (_ws g) ;;
  if (readyState_value state =? 1)%Z then
    ws_send (_ws g) data_str
  else
    modify_this (fun g => set_message_queue (message_queue g ++ [data_str]) g).

Definition ping : M GameServer U unit :=
  console_log "sending ping" ;;
  send (JObj [("Ping", JObj [])]).

Definition createRoom (name : string) : M GameServer U unit :=
  send (JObj [("CreateRoom", JObj [("name", JStr name)])]).

Definition joinRoom (room_id name : string) : M GameServer U unit :=
  send (JObj [("JoinRoom", JObj [("name", JStr name); ("room_id", JStr room_id)])]).

Definition startRound : M GameServer U unit :=
  send (JObj [("StartRound", JObj [])]).

Definition activePlayerChoose (card description : string) : M GameServer U unit :=
  send (JObj [("ActivePlayerChooseCard",
               JObj [("card", JStr card); ("description", JStr description)])]).

Definition playersChoose (card : string) : M GameServer U unit :=
  send (JObj [("PlayerChooseCard", JObj [("card", JStr card)])]).

Definition vote (card : string) : M GameServer U unit :=
  send (JObj [("Vote", JObj [("card", JStr card)])]).

Definition addMsgHandler (func : ObserverId) : M GameServer U unit :=
  modify_this (fun g => set_onmessage_handler (onmessage_handler g ++ [func]) g).

Definition close : M GameServer U unit :=
  g <- get_this ;;
  ws_close (_ws g).

Definition exec (c : Call) : M GameServer U unit :=
  match c with
  | CallSend data => send data
  | CallPing => ping
  | CallCreateRoom name => createRoom name
  | CallJoinRoom room_id name => joinRoom room_id name
  | CallStartRound => startRound
  | CallActivePlayerChoose card description => activePlayerChoose card description
  | CallPlayersChoose card => playersChoose card
  | CallVote card => vote card
  | CallAddMsgHandler func => addMsgHandler func
  | CallClose => close
  end.

Definition on_open : M GameServer U unit :=
  console_log "connected" ;;
  g <- get_this ;;
  if (0 <? List.length (message_queue g))%nat then
    forEach (message_queue g)
      (fun data_str => g' <- get_this ;; ws_send (_ws g') data_str) ;;
    modify_this (set_message_queue [])
  else ret tt.

Definition on_message (payload : string) : M GameServer U unit :=
  match JSON_parse payload with
  | None => throw SyntaxError
  | Some data =>
      match get (Some data) "RoomStatus" with
      | inr e => throw e
      | inl status =>
          (if truthy_value status then
             match get status "room_id" with
             | inr e => throw e
             | inl room_id => modify_this (set_joined_room room_id)
             end
           else ret tt) ;;
          modify_this (set_opened true) ;;
          g <- get_this ;;
          forEach (onmessage_handler g) (fun handler => invoke_observer exec handler data)
      end
  end.

Definition setupSocket : M GameServer U unit :=
  g <- get_this ;;
  ws_assign_handlers (_ws g).

(** The message the close handler makes up:
    [JSON.stringify({ JoinRoom: { name: this.name, room_id: this.joined_room } })]. *)
Definition rejoin_message (g : GameServer) : string :=
  JSON_stringify
    (JObj [("JoinRoom",
            object_literal [("name", Some (JStr (name g))); ("room_id", joined_room g)])]).

Definition on_close : M GameServer U unit :=
  console_log "disconnected" ;;
  ws <- new_WebSocket ws_address ;;
  modify_this (set__ws ws) ;;
  g <- get_this ;;
  (if is_not_empty_string (joined_room g) then
     modify_this (fun g => set_message_queue (rejoin_message g :: message_queue g) g)
   else ret tt) ;;
  setupSocket.

Definition handlers : Handlers GameServer U :=
  mkHandlers on_open on_message on_close.

Definition fields : GameServer :=
  mkGameServer 0 [] [] false (Some (JStr EmptyString)) EmptyString.

(** The constructor; [stored_name] is what nameStore holds, which
    subscribe hands to its callback at once. *)
Definition constructor (stored_name : string) : M GameServer U unit :=
  ws <- new_WebSocket ws_address ;;
  modify_this (set__ws ws) ;;
  setupSocket ;;
  modify_this (set_name stored_name).

Definition new_GameServer (stored_name : string) (o : Ref -> Json) (u : U)
  : World GameServer U :=
  snd (constructor stored_name (mkWorld fields [] o u [])).

Inductive Step : Type :=
| Do (c : Call)
| StoreSet (value : string)     (* nameStore.set(value) somewhere in the page *)
| Happen (ev : Event).

Definition step (s : Step) (w : World GameServer U) : World GameServer U :=
  match s with
  | Do c => snd (exec c w)
  | StoreSet value => snd (modify_this (set_name value) w)
  | Happen ev => fire handlers ev w
  end.

Definition run (script : list Step) (w : World GameServer U) : World GameServer U :=
  fold_left (fun w s => step s w) script w.

Definition consistent (w : World GameServer U) : bool :=
  live (_ws (this w)) w.

End Client.

End Legacy.

(* ================================================================== *)
(** ** src/routes/game/[roomCode]/+page.svelte, the part that drives the client *)

Module Page.

(** The variables of the page that its reconnect callback reads. *)
Record Variables : Type := mkVariables {
  rejoin : bool;
  roomCode : string;
  name : string
}.

(** [gameServer.onclose(() => { if (rejoin) { gameServer.joinRoom(roomCode, name); } })] *)
Definition reconnected (p : Variables) : Variables * Reaction Lib.Call :=
  (p, mkReaction (if rejoin p then [Lib.CallJoinRoom (roomCode p) (name p)] else []) false).

(** The page as a caller of the client: its one reconnect callback, and
    observers [obs]. *)
Definition caller (obs : ObserverId -> Json -> Variables -> Variables * Reaction Lib.Call)
  : Caller Lib.Call Variables :=
  {| observer := obs; notifier := fun _ => reconnected |}.

(** What onMount does with the client it has just constructed. *)
Definition onMount (p : Variables) : list Lib.Step :=
  [Lib.Do (Lib.CallJoinRoom (roomCode p) (name p));
   Lib.Do (Lib.CallOnclose 0);
   Lib.Do (Lib.CallAddMsgHandler 0)].

End Page.

(* ================================================================== *)
(** ** A decoder of text frames *)

(** The JSON grammar for the values of [Json]: objects, arrays, strings
    with their escapes, true, false, null and integer numerals.  It is
    the decoder the examples are run with; the theorems take the decoder
    as a parameter and hold for any. *)
Module Text.

Definition is_space (c : ascii) : bool :=
  let n := nat_of_ascii c in
  ((n =? 32) || (n =? 9) || (n =? 10) || (n =? 13))%nat.

Fixpoint skip (s : list ascii) : list ascii :=
  match s with
  | c :: rest => if is_space c then skip rest else s
  | [] => []
  end.

Fixpoint expect (word s : list ascii) : option (list ascii) :=
  match word, s with
  | [], _ => Some s
  | a :: word', c :: rest => if (a =? c)%char then expect word' rest else None
  | _ :: _, [] => None
  end.

Definition digit (c : ascii) : option Z :=
  let n := nat_of_ascii c in
  if ((48 <=? n) && (n <=? 57))%nat then Some (Z.of_nat (n - 48)) else None.

Definition hex (c : ascii) : option nat :=
  let n := nat_of_ascii c in
  if ((48 <=? n) && (n <=? 57))%nat then Some (n - 48)
  else if ((97 <=? n) && (n <=? 102))%nat then Some (n - 87)
  else if ((65 <=? n) && (n <=? 70))%nat then Some (n - 55)
  else None.

(** The bytes of code unit [n] in the text encoding of the model. *)
Definition encode (n : nat) : list ascii :=
  if (n <? 128)%nat then [ascii_of_nat n]
  else if (n <? 2048)%nat then
    [ascii_of_nat (192 + n / 64); ascii_of_nat (128 + n mod 64)]
  else
    [ascii_of_nat (224 + n / 4096); ascii_of_nat (128 + (n / 64) mod 64);
     ascii_of_nat (128 + n mod 64)].

Fixpoint digits (acc : Z) (s : list ascii) : Z * list ascii :=
  match s with
  | c :: rest =>
      match digit c with
      | Some d => digits (10 * acc + d) rest
      | None => (acc, s)
      end
  | [] => (acc, [])
  end.

(** An integer literal: an optional minus, then 0 or a digit string with
    no leading zero; a fraction or an exponent is not decoded. *)
Definition integer (s : list ascii) : option (Json * list ascii) :=
  let (negative, body) :=
    match s with
    | c :: rest => if (c =? "-")%char then (true, rest) else (false, s)
    | [] => (false, s)
    end in
  match body with
  | c :: rest =>
      match digit c with
      | Some d =>
          let (n, rest') := if (d =? 0)%Z then (0%Z, rest) else digits d rest in
          match rest' with
          | c' :: _ =>
              if ((c' =? ".") || (c' =? "e") || (c' =? "E"))%char then None
              else if match digit c' with Some _ => true | None => false end then None
              else Some (JNum (if negative then - n else n), rest')
          | [] => Some (JNum (if negative then - n else n), [])
          end
      | None => None
      end
  | [] => None
  end.

(** The characters of a string literal after its opening quote. *)
Fixpoint characters (s : list ascii) (acc : list ascii) : option (string * list ascii) :=
  match s with
  | [] => None
  | c :: rest =>
      if (c =? dquote)%char then Some (string_of_list_ascii (rev acc), rest)
      else if (c =? backslash)%char then
        match rest with
        | e :: rest1 =>
            if (e =? dquote)%char then characters rest1 (dquote :: acc)
            else if (e =? backslash)%char then characters rest1 (backslash :: acc)
            else if (e =? "/")%char then characters rest1 ("/"%char :: acc)
            else if (e =? "b")%char then characters rest1 ("008"%char :: acc)
            else if (e =? "f")%char then characters rest1 ("012"%char :: acc)
            else if (e =? "n")%char then characters rest1 ("010"%char :: acc)
            else if (e =? "r")%char then characters rest1 ("013"%char :: acc)
            else if (e =? "t")%char then characters rest1 ("009"%char :: acc)
            else if (e =? "u")%char then
              match rest1 with
              | a :: b :: c2 :: d :: rest2 =>
                  match hex a, hex b, hex c2, hex d with
                  | Some x3, Some x2, Some x1, Some x0 =>
                      characters rest2
                        (rev (encode (4096 * x3 + 256 * x2 + 16 * x1 + x0)) ++ acc)
                  | _, _, _, _ => None
                  end
              | _ => None
              end
            else None
        | [] => None
        end
      else if (nat_of_ascii c <? 32)%nat then None
      else characters rest (c :: acc)
  end.

(** A property read twice keeps its place and takes the later value. *)
Fixpoint define (k : string) (v : Json) (props : list (string * Json)) : list (string * Json) :=
  match props with
  | [] => [(k, v)]
  | (k', v') :: rest =>
      if (k' =? k)%string then (k', v) :: rest else (k', v') :: define k v rest
  end.

Fixpoint value (fuel : nat) (s : list ascii) : option (Json * list ascii) :=
  match fuel with
  | O => None
  | S fuel' =>
      match skip s with
      | [] => None
      | c :: rest =>
          if (c =? "{")%char then
            match skip rest with
            | c' :: rest' =>
                if (c' =? "}")%char then Some (JObj [], rest') else members fuel' rest []
            | [] => None
            end
          else if (c =? "[")%char then
            match skip rest with
            | c' :: rest' =>
                if (c' =? "]")%char then Some (JArr [], rest') else elements fuel' rest []
            | [] => None
            end
          else if (c =? dquote)%char then
            match characters rest [] with
            | Some (str, rest') => Some (JStr str, rest')
            | None => None
            end
          else if (c =? "n")%char then
            option_map (pair JNull) (expect (list_ascii_of_string "ull") rest)
          else if (c =? "t")%char then
            option_map (pair (JBool true)) (expect (list_ascii_of_string "rue") rest)
          else if (c =? "f")%char then
            option_map (pair (JBool false)) (expect (list_ascii_of_string "alse") rest)
          else integer (c :: rest)
      end
  end
with elements (fuel : nat) (s : list ascii) (acc : list Json) : option (Json * list ascii) :=
  match fuel with
  | O => None
  | S fuel' =>
      match value fuel' s with
      | Some (v, rest) =>
          match skip rest with
          | c :: rest' =>
              if (c =? ",")%char then elements fuel' rest' (v :: acc)
              else if (c =? "]")%char then Some (JArr (rev (v :: acc)), rest')
              else None
          | [] => None
          end
      | None => None
      end
  end
with members (fuel : nat) (s : list ascii) (acc : list (string * Json))
  : option (Json * list ascii) :=
  match fuel with
  | O => None
  | S fuel' =>
      match skip s with
      | q :: rest =>
          if (q =? dquote)%char then
            match characters rest [] with
            | Some (k, rest1) =>
                match skip rest1 with
                | colon :: rest2 =>
                    if (colon =? ":")%char then
                      match value fuel' rest2 with
                      | Some (v, rest3) =>
                          match skip rest3 with
                          | c :: rest4 =>
                              if (c =? ",")%char then members fuel' rest4 (define k v acc)
                              else if (c =? "}")%char then Some (JObj (define k v acc), rest4)
                              else None
                          | [] => None
                          end
                      | None => None
                      end
                    else None
                | [] => None
                end
            | None => None
            end
          else None
      | [] => None
      end
  end.

(** One JSON text and nothing after it. *)
Definition parse (text : string) : option Json :=
  let s := list_ascii_of_string text in
  match value (2 * List.length s + 2) s with
  | Some (v, rest) =>
      match skip rest with
      | [] => Some v
      | _ :: _ => None
      end
  | None => None
  end.

Definition decoder : Decoder := {| JSON_parse := parse |}.

End Text.


(* ================================================================== *)
(** ** The wire protocol as the specification lists it *)

Module Wire.

(** The outbound variants: CreateRoom{name}, JoinRoom{name, room_id},
    Ready{}, ActivePlayerChooseCard{card, description},
    PlayerChooseCard{card}, Vote{card}. *)
Inductive Outbound : Type :=
| CreateRoom (name : string)
| JoinRoom (name room_id : string)
| Ready
| ActivePlayerChooseCard (card description : string)
| PlayerChooseCard (card : string)
| Vote (card : string).

(** One top-level key, which selects the variant and carries the record
    of its fields. *)
Definition variant (tag : string) (fields : list (string * string)) : Json :=
  JObj [(tag, JObj (map (fun kv => (fst kv, JStr (snd kv))) fields))].

Definition tagged (i : Outbound) : Json :=
  match i with
  | CreateRoom name => variant "CreateRoom" [("name", name)]
  | JoinRoom name room_id => variant "JoinRoom" [("name", name); ("room_id", room_id)]
  | Ready => variant "Ready" []
  | ActivePlayerChooseCard card description =>
      variant "ActivePlayerChooseCard" [("card", card); ("description", description)]
  | PlayerChooseCard card => variant "PlayerChooseCard" [("card", card)]
  | Vote card => variant "Vote" [("card", card)]
  end.

(** The helper of the client that stands for each variant. *)
Definition helper (i : Outbound) : Lib.Call :=
  match i with
  | CreateRoom name => Lib.CallCreateRoom name
  | JoinRoom name room_id => Lib.CallJoinRoom room_id name
  | Ready => Lib.CallReady
  | ActivePlayerChooseCard card description => Lib.CallActivePlayerChoose card description
  | PlayerChooseCard card => Lib.CallPlayersChoose card
  | Vote card => Lib.CallVote card
  end.

(** The typed helpers among the public methods. *)
Definition is_helper (c : Lib.Call) : bool :=
  match c with
  | Lib.CallSend _ | Lib.CallAddMsgHandler _ | Lib.CallClose | Lib.CallOnclose _ => false
  | _ => true
  end.

End Wire.

(* ================================================================== *)
(** ** Callers and scripts to run the two clients with *)

Module Demo.

(** Three observers: 0 only looks at the frame, 1 throws, and every
    other one answers each frame by calling ready(). *)
Definition observe (f : ObserverId) (data : Json) (p : Page.Variables)
  : Page.Variables * Reaction Lib.Call :=
  match f with
  | 0 => (p, mkReaction [] false)
  | 1 => (p, mkReaction [] true)
  | _ => (p, mkReaction [Lib.CallReady] false)
  end.

Definition caller : Caller Lib.Call Page.Variables := Page.caller observe.

(** A caller of the older class that registers nothing of interest. *)
Definition legacy_caller : Caller Legacy.Call unit :=
  {| observer := fun _ _ u => (u, mkReaction [] false);
     notifier := fun _ u => (u, mkReaction [] false) |}.

Definition ann : Page.Variables := Page.mkVariables true "AB12" "Ann".

Definition no_objects : Ref -> Json := fun _ => JNull.

(** A page that has mounted: the client is constructed and onMount has
    run, the socket still connecting. *)
Definition mounted : World Lib.GameServer Page.Variables :=
  Lib.run (C := caller) (D := Text.decoder) (Page.onMount ann)
    (Lib.new_GameServer no_objects ann).

(** A client that has just been constructed. *)
Definition fresh : World Lib.GameServer Page.Variables :=
  Lib.new_GameServer no_objects ann.

(** The mounted page once its socket is open. *)
Definition opened : World Lib.GameServer Page.Variables :=
  Lib.run (C := caller) (D := Text.decoder) [Lib.Happen (EvOpen 0)] mounted.

(** The mounted page with a vote cast before the socket ever opened. *)
Definition waiting : World Lib.GameServer Page.Variables :=
  Lib.run (C := caller) (D := Text.decoder) [Lib.Do (Lib.CallVote "card7")] mounted.

(** Two observers that return, on an open socket. *)
Definition watched : World Lib.GameServer Page.Variables :=
  Lib.run (C := caller) (D := Text.decoder)
    [Lib.Do (Lib.CallAddMsgHandler 2); Lib.Happen (EvOpen 0)] mounted.

(** Three observers, the second of which throws, on an open socket. *)
Definition crowded : World Lib.GameServer Page.Variables :=
  Lib.run (C := caller) (D := Text.decoder)
    [Lib.Do (Lib.CallAddMsgHandler 1); Lib.Do (Lib.CallAddMsgHandler 2);
     Lib.Happen (EvOpen 0)] mounted.

(** A page that keeps its join request in an object of its own. *)
Definition holding : World Lib.GameServer Page.Variables :=
  Lib.new_GameServer
    (fun _ => JObj [("JoinRoom", JObj [("name", JStr "Ann"); ("room_id", JStr "AB12")])])
    ann.

(** A client of the older class that has just been constructed. *)
Definition legacy_fresh : World Legacy.GameServer unit :=
  Legacy.new_GameServer "Ann" no_objects tt.

Definition room_state_frame : string :=
  wire "{'RoomState':{'players':{},'stage':'Joining'}}".






End Demo.


(* ================================================================== *)
(** ** The books of the caller-driven client *)

Module Ledger.

(** The reconnect callbacks the client has entered, oldest first. *)
Fixpoint entered (t : list Effect) : list (option NotifierId) :=
  match t with
  | [] => []
  | Notified f :: rest => f :: entered rest
  | _ :: rest => entered rest
  end.

(** The effects a public method can have: a frame on the network, or
    the start of a closing handshake. *)
Definition plain (e : Effect) : bool :=
  match e with
  | Transmitted _ _ | CloseStarted _ => true
  | _ => false
  end.

(** Code that only adds to the log. *)
Definition appends {G U A : Type} (m : M G U A) : Prop :=
  forall w, exists ext, trace (snd (m w)) = trace w ++ ext.

Section Books.
Context {U : Type}.

(** Every text the client has taken for sending: those that went out,
    then those that wait in the queue. *)
Definition sent (w : World Lib.GameServer U) : list string :=
  transmitted (trace w) ++ Lib.message_queue (this w).

(** Nothing waits while the socket is open. *)
Definition tidy (w : World Lib.GameServer U) : Prop :=
  Lib.current w = Some OPEN -> Lib.message_queue (this w) = [].

(** The close handler of src/lib/gameServer.ts at the point where it
    enters the reconnect callback: the old socket closed, a new one at
    the end of the store, assigned to [this._ws], with its handlers. *)
Definition reconnecting (w : World Lib.GameServer U) : World Lib.GameServer U :=
  mkWorld
    (Lib.set__ws (List.length (sockets w)) (this w))
    (update (List.length (sockets w)) set_wired
       (update (Lib._ws (this w)) (set_readyState CLOSED) (sockets w)
          ++ [mkWebSocket Lib.ws_address CONNECTING false]))
    (objects w) (caller w)
    (trace w ++ [ConsoleLog "disconnected";
                 Constructed (List.length (sockets w)) Lib.ws_address]).

(** The sockets of the store, by what the log and [this._ws] say of
    them: the current one is the newest, one was constructed per entry,
    and all but the first were constructed for a reconnect. *)
Definition accounted (w : World Lib.GameServer U) : Prop :=
  S (Lib._ws (this w)) = List.length (sockets w) /\
  List.length (sockets w) = constructions (trace w) /\
  constructions (trace w) = S (notifications (trace w)).

(** A method that returns, and hands [text] to the socket when it is
    open and to the tail of the queue when it is not; nothing else
    changes. *)
Definition delivers (m : M Lib.GameServer U unit) (text : string)
    (w : World Lib.GameServer U) : Prop :=
  fst (m w) = Normal tt /\
  (Lib.current w = Some OPEN ->
   snd (m w) = emit (Transmitted (Lib._ws (this w)) text) w) /\
  (Lib.current w <> Some OPEN ->
   snd (m w)
   = with_this (Lib.set_message_queue (Lib.message_queue (this w) ++ [text]) (this w)) w).

End Books.

(** Scripts in which no socket opens. *)
Definition waits (script : list Lib.Step) : bool :=
  forallb (fun st => match st with Lib.Happen (EvOpen _) => false | _ => true end) script.

Section Calls.
Context {U : Type} {C : Caller Lib.Call U} {D : Decoder}.

(** The observers that the loop of the message handler enters for a
    decoded frame: those of the list, in order, each in the state of the
    caller that the one before it left, up to and including the first
    that throws. *)
Fixpoint reached (data : Json) (l : list ObserverId) (u : U) : list ObserverId :=
  match l with
  | [] => []
  | f :: rest =>
      f :: (if raises (snd (observer f data u)) then []
            else reached data rest (fst (observer f data u)))
  end.

(** The methods those observers call, in the order of the calls. *)
Fixpoint heard (data : Json) (l : list ObserverId) (u : U) : list Lib.Call :=
  match l with
  | [] => []
  | f :: rest =>
      calls (snd (observer f data u))
        ++ (if raises (snd (observer f data u)) then []
            else heard data rest (fst (observer f data u)))
  end.

(** The methods the reconnect callback calls when it is entered now. *)
Definition answered (w : World Lib.GameServer U) : list Lib.Call :=
  match Lib.onclosehandler (this w) with
  | Some n => calls (snd (notifier n (caller w)))
  | None => []
  end.

(** The calls of public methods made during one step: the call itself,
    or those of the callbacks that the event enters. *)
Definition asked (st : Lib.Step) (w : World Lib.GameServer U) : list Lib.Call :=
  match st with
  | Lib.Do c => [c]
  | Lib.SendObject r => [Lib.CallSend (objects w r)]
  | Lib.Mutate _ _ => []
  | Lib.Happen ev =>
      if enabled ev w then
        match ev with
        | EvOpen _ => []
        | EvMessage _ payload =>
            match JSON_parse payload with
            | Some data => heard data (Lib.onmessage_handler (this w)) (caller w)
            | None => []
            end
        | EvClose _ => answered w
        end
      else []
  end.

(** The calls made during a run, in the order in which they are made. *)
Fixpoint asked_all (script : list Lib.Step) (w : World Lib.GameServer U) : list Lib.Call :=
  match script with
  | [] => []
  | st :: rest => asked st w ++ asked_all rest (Lib.step st w)
  end.

End Calls.

End Ledger.

(* ================================================================== *)
(** ** The page of a game, later version (src/unnamed/part_003) *)

Module Game.

(** Whether turning the value into a string throws: an object with a
    property of its own called toString (which, coming from JSON.parse,
    is not a function) cannot be converted, and an array is converted by
    converting its elements. *)
Fixpoint unprintable (j : Json) : bool :=
  match j with
  | JObj props => existsb (fun kv => (fst kv =? "toString")%string) props
  | JArr items => existsb unprintable items
  | _ => false
  end.

Definition unprintable_value (v : Value) : bool :=
  match v with
  | Some j => unprintable j
  | None => false
  end.

(** Whether [Object.values(v)] throws. *)
Definition has_no_values (v : Value) : bool :=
  match v with
  | None | Some JNull => true
  | Some _ => false
  end.

(** [data.key] on a value that is not null. *)
Definition prop (data : Json) (key : string) : Value :=
  match get (Some data) key with
  | inl v => v
  | inr _ => None
  end.

Definition prop_of (v : Value) (key : string) : Value :=
  match get v key with
  | inl v' => v'
  | inr _ => None
  end.

Definition set_rejoin (b : bool) (p : Page.Variables) : Page.Variables :=
  Page.mkVariables b (Page.roomCode p) (Page.name p).

Definition returns : Reaction Lib.Call := mkReaction [] false.

(** The function given to addMsgHandler, as far as the connection goes:
    what it does to [rejoin], what it calls on the client (nothing) and
    whether it throws.  The variables it sets for the display (players,
    stage, displayImages, ...) and the toasts are not part of the state
    kept here. *)
Definition observer (data : Json) (p : Page.Variables) : Page.Variables * Reaction Lib.Call :=
  match data with
  | JNull => (p, mkReaction [] true)
  | _ =>
      if truthy_value (prop data "RoomState") then (set_rejoin true p, returns)
      else if truthy_value (prop data "StartRound") then (p, returns)
      else if truthy_value (prop data "PlayersChoose") then (p, returns)
      else if truthy_value (prop data "BeginVoting") then (p, returns)
      else if truthy_value (prop data "Results") then
        (p, mkReaction []
              (has_no_values (prop_of (prop data "Results") "player_to_current_card")))
      else if truthy_value (prop data "ErrorMsg") then
        (p, mkReaction [] (unprintable_value (prop data "ErrorMsg")))
      else if truthy_value (prop data "InvalidRoomId") then (set_rejoin false p, returns)
      else (p, returns)
  end.

(** The page as a caller: the observer above under every name, and the
    reconnect callback of onMount. *)
Definition caller : Caller Lib.Call Page.Variables :=
  Page.caller (fun _ => observer).

(** The keys the observer tests, in the order of its else-if chain, and
    the one whose branch a frame takes. *)
Definition chain : list string :=
  ["RoomState"; "StartRound"; "PlayersChoose"; "BeginVoting"; "Results"; "ErrorMsg";
   "InvalidRoomId"].

Definition selected (data : Json) : option string :=
  find (fun key => truthy_value (prop data key)) chain.

(** [onDestroy(() => { if (gameServer) { rejoin = false; gameServer.close(); } })],
    once onMount has constructed the client. *)
Definition onDestroy (w : World Lib.GameServer Page.Variables)
  : World Lib.GameServer Page.Variables :=
  snd (Lib.close (with_caller (set_rejoin false (Browser.caller w)) w)).

(** The page right after onMount, and then with its socket open. *)
Definition mounted (p : Page.Variables) : World Lib.GameServer Page.Variables :=
  Lib.run (C := caller) (D := Text.decoder) (Page.onMount p)
    (Lib.new_GameServer (fun _ => JNull) p).

Definition playing (p : Page.Variables) : World Lib.GameServer Page.Variables :=
  Lib.run (C := caller) (D := Text.decoder) [Lib.Happen (EvOpen 0)] (mounted p).

End Game.

(* ================================================================== *)
(** ** Who played and who voted for which card
       (src/routes/game/[roomCode]/+page.svelte, the Results branch;
        src/routes/game/[roomCode]/Results.svelte) *)

Module Cards.

(** The names every object inherits from Object.prototype. *)
Definition inherited : list string :=
  ["constructor"; "__defineGetter__"; "__defineSetter__"; "hasOwnProperty";
   "__lookupGetter__"; "__lookupSetter__"; "isPrototypeOf"; "propertyIsEnumerable";
   "toString"; "valueOf"; "__proto__"; "toLocaleString"].

Definition is_inherited (k : string) : bool :=
  existsb (fun n => (n =? k)%string) inherited.

(** The own properties of an object whose values have type [A]. *)
Definition Obj (A : Type) : Type := list (string * A).

Fixpoint own {A} (k : string) (o : Obj A) : option A :=
  match o with
  | [] => None
  | (k', v) :: rest => if (k' =? k)%string then Some v else own k rest
  end.

(** [o[k] = v] for a string or an array [v]: a property of its own, in
    the place it had or at the end.  Assigning such a value to
    [__proto__] changes nothing. *)
Fixpoint put {A} (k : string) (v : A) (o : Obj A) : Obj A :=
  match o with
  | [] => [(k, v)]
  | (k', v') :: rest =>
      if (k' =? k)%string then (k', v) :: rest else (k', v') :: put k v rest
  end.

Definition assign {A} (k : string) (v : A) (o : Obj A) : Obj A :=
  if (k =? "__proto__")%string then o else put k v o.

(** [card_to_player = {}; entries.forEach(([player, card]) => { card_to_player[card] = player; })] *)
Definition card_to_player (entries : list (string * string)) : Obj string :=
  fold_left (fun o e => assign (snd e) (fst e) o) entries [].

(** One round of the second loop:
    [if (!card_to_voters[card]) { card_to_voters[card] = []; } card_to_voters[card].push(player);]
    On a name that the object inherits the test finds something that is
    no array, and push is not a function: [None] is that TypeError. *)
Definition vote_for (o : Obj (list string)) (e : string * string) : option (Obj (list string)) :=
  let (player, card) := e in
  match own card o with
  | Some voters => Some (put card (voters ++ [player]) o)
  | None => if is_inherited card then None else Some (put card [player] o)
  end.

Fixpoint tally (o : Obj (list string)) (entries : list (string * string))
  : option (Obj (list string)) :=
  match entries with
  | [] => Some o
  | e :: rest =>
      match vote_for o e with
      | Some o' => tally o' rest
      | None => None
      end
  end.

(** [card_to_voters = {}; entries.forEach(...)] *)
Definition card_to_voters (entries : list (string * string)) : option (Obj (list string)) :=
  tally [] entries.

(** The players of the entries that name [card], in the order of the entries. *)
Definition voters_of (card : string) (entries : list (string * string)) : list string :=
  map fst (filter (fun e => (snd e =? card)%string) entries).

(** The last entry that names [card]. *)
Definition last_holder (card : string) (entries : list (string * string)) : option string :=
  option_map fst (find (fun e => (snd e =? card)%string) (rev entries)).

(** The reactive block of Results.svelte.  Its two objects are made once,
    when the component is, and every run of the block writes into them:
    [Object.entries(playerToCurrentCard).forEach(([key, value]) => { cardToPlayer[value] = key; });]
    and then the loop over playerToVote, which is the second loop above.
    [None]: the second loop threw. *)
Definition block (state : Obj string * Obj (list string))
    (playerToCurrentCard playerToVote : list (string * string))
  : option (Obj string * Obj (list string)) :=
  let cardToPlayer :=
    fold_left (fun o e => assign (snd e) (fst e) o) playerToCurrentCard (fst state) in
  match tally (snd state) playerToVote with
  | Some cardToVoters => Some (cardToPlayer, cardToVoters)
  | None => None
  end.

(** The block run once for each pair of properties, oldest first. *)
Fixpoint runs (rounds : list (list (string * string) * list (string * string)))
    (state : Obj string * Obj (list string)) : option (Obj string * Obj (list string)) :=
  match rounds with
  | [] => Some state
  | (playerToCurrentCard, playerToVote) :: rest =>
      match block state playerToCurrentCard playerToVote with
      | Some state' => runs rest state'
      | None => None
      end
  end.

(** What a card has gathered: the voters it had, then the new ones. *)
Definition gathered (old : option (list string)) (new : list string) : option (list string) :=
  match old, new with
  | None, [] => None
  | None, _ => Some new
  | Some voters, _ => Some (voters ++ new)
  end.

End Cards.

(* ================================================================== *)
(** ** src/routes/game/[roomCode]/Joining.svelte *)

Module Joining.

(** [name.split(' ')] *)
Fixpoint split (s : string) : list string :=
  match s with
  | EmptyString => [EmptyString]
  | String c rest =>
      if (c =? " ")%char then EmptyString :: split rest
      else
        match split rest with
        | word :: words => String c word :: words
        | [] => [String c EmptyString]
        end
  end.

(** [n[0]], as join sees it: nothing for the empty string. *)
Definition first (n : string) : string :=
  match n with
  | EmptyString => EmptyString
  | String c _ => String c EmptyString
  end.

(** [name.split(' ').map((n) => n[0]).join('')] *)
Definition getInitialsFromString (name : string) : string :=
  join EmptyString (map first (split name)).

(** Whether a space occurs in the string. *)
Fixpoint has_space (s : string) : bool :=
  match s with
  | EmptyString => false
  | String c rest => (c =? " ")%char || has_space rest
  end.

End Joining.

(* ================================================================== *)
(** ** The books of the client that rejoins by itself (src/gameServer.ts) *)

Module Rejoin.

Section Books.
Context {U : Type}.

(** The state of the socket [this._ws] points to. *)
Definition current (w : World Legacy.GameServer U) : option ReadyState :=
  option_map readyState (socket (Legacy._ws (this w)) w).

(** What neither a method nor an observer touches: the socket the client
    uses, the room it has learnt, the name it goes by and the flag
    [opened]; no socket is constructed or finished. *)
Definition keeps (w w' : World Legacy.GameServer U) : Prop :=
  Legacy._ws (this w') = Legacy._ws (this w) /\
  Legacy.joined_room (this w') = Legacy.joined_room (this w) /\
  Legacy.name (this w') = Legacy.name (this w) /\
  Legacy.opened (this w') = Legacy.opened (this w) /\
  (forall h, evolves (socket h w) (socket h w')) /\
  constructions (trace w') = constructions (trace w).

Definition steady {A} (m : M Legacy.GameServer U A) : Prop :=
  forall w, keeps w (snd (m w)).

(** The text the close handler makes up for a client called [name] that
    has learnt [room]. *)
Definition rejoin_text (name : string) (room : Value) : string :=
  JSON_stringify
    (JObj [("JoinRoom", object_literal [("name", Some (JStr name)); ("room_id", room)])]).

(** The frames that teach the client a room: those with a truthy
    RoomStatus, whose room_id, whatever it is, becomes the room. *)
Definition teaches (data : Json) : option Value :=
  match get (Some data) "RoomStatus" with
  | inl status =>
      if truthy_value status then
        match get status "room_id" with
        | inl room => Some room
        | inr _ => None
        end
      else None
  | inr _ => None
  end.

(** What a decoded frame does to the fields before any observer runs. *)
Definition learn (data : Json) (g : Legacy.GameServer) : Legacy.GameServer :=
  Legacy.set_opened true
    match teaches data with
    | Some room => Legacy.set_joined_room room g
    | None => g
    end.

End Books.

(** A client of the older class, named Ann, with one observer and an
    open socket, and a frame that tells it its room. *)
Definition watched : World Legacy.GameServer unit :=
  Legacy.run (C := Demo.legacy_caller) (D := Text.decoder)
    [Legacy.Do (Legacy.CallAddMsgHandler 0); Legacy.Happen (EvOpen 0)] Demo.legacy_fresh.

Definition room_status_frame : string := wire "{'RoomStatus':{'room_id':'AB12'}}".

End Rejoin.

(* ================================================================== *)
(** ** The landing page (src/unnamed/part_006), which uses src/gameServer.ts *)

Module Landing.

(** The function given to addMsgHandler:
    [if (data.RoomState) { gameServer.close(); goto(`/game/${data.RoomState.room_id}`); } console.log(data);]
    It calls close() and then builds the address, which throws when the
    room_id cannot be turned into a string. *)
Definition observer (data : Json) (u : unit) : unit * Reaction Legacy.Call :=
  match data with
  | JNull => (u, mkReaction [] true)
  | _ =>
      if truthy_value (Game.prop data "RoomState") then
        (u, mkReaction [Legacy.CallClose]
              (Game.unprintable_value (Game.prop_of (Game.prop data "RoomState") "room_id")))
      else (u, mkReaction [] false)
  end.

(** The class of src/gameServer.ts has no onclose: no notifier is ever
    entered. *)
Definition caller : Caller Legacy.Call unit :=
  Build_Caller Legacy.Call unit (fun _ => observer) (fun _ u => (u, mkReaction [] false)).

(** [onMount]: the client is constructed and the observer registered. *)
Definition onMount : list Legacy.Step := [Legacy.Do (Legacy.CallAddMsgHandler 0)].

(** [createGame()], with the name typed into the page. *)
Definition createGame (name : string) : list Legacy.Step :=
  [Legacy.Do (Legacy.CallCreateRoom name)].

(** The page after onMount with [name] in the store, then after
    createGame and the open event. *)
Definition mounted (name : string) : World Legacy.GameServer unit :=
  Legacy.run (C := caller) (D := Text.decoder) onMount
    (Legacy.new_GameServer name (fun _ => JNull) tt).

Definition creating (name : string) : World Legacy.GameServer unit :=
  Legacy.run (C := caller) (D := Text.decoder)
    (createGame name ++ [Legacy.Happen (EvOpen 0)]) (mounted name).

End Landing.

(* ================================================================== *)
(** ** Facts about the socket store *)

Section StoreFacts.
Context {G U : Type}.
Implicit Types (w : World G U) (h : Handle) (s : WebSocket).

Lemma nth_error_update_same {A} (f : A -> A) (l : list A) i x :
  nth_error l i = Some x -> nth_error (update i f l) i = Some (f x).
Proof.
  revert i; induction l as [|a l IH]; intros [|i] E; simpl in *; try discriminate.
  - now inversion E.
  - now apply IH.
Qed.

Lemma nth_error_update_other {A} (f : A -> A) (l : list A) i j :
  i <> j -> nth_error (update i f l) j = nth_error l j.
Proof.
  revert i j; induction l as [|a l IH]; intros [|i] [|j] N; simpl; try reflexivity.
  - congruence.
  - apply IH; congruence.
Qed.

Lemma length_update {A} (f : A -> A) (l : list A) i :
  List.length (update i f l) = List.length l.
Proof.
  revert i; induction l as [|a l IH]; intros [|i]; simpl; try reflexivity.
  now rewrite IH.
Qed.

Lemma is_closed_true r : is_closed r = true <-> r = CLOSED.
Proof. destruct r; simpl; split; congruence. Qed.

Lemma others_closed_spec cur l : forall i,
  others_closed cur i l = true <->
  (forall k s, nth_error l k = Some s -> (i + k)%nat <> cur -> readyState s = CLOSED).
Proof.
  induction l as [|a l IH]; intros i; simpl.
  - split; [intros _ [|k] s E; discriminate | reflexivity].
  - rewrite andb_true_iff, orb_true_iff, Nat.eqb_eq, is_closed_true, IH. split.
    + intros [Ha Hl] [|k] s E N; simpl in E.
      * inversion E; subst. destruct Ha as [Ha|Ha]; [|exact Ha].
        exfalso; apply N; lia.
      * apply (Hl k s E). lia.
    + intros Hall. split.
      * destruct (Nat.eq_dec i cur) as [e|n]; [now left|right].
        apply (Hall 0%nat a eq_refl). lia.
      * intros k s E N. apply (Hall (S k) s E). lia.
Qed.

Lemma live_spec cur w :
  live cur w = true <->
  (exists s, socket cur w = Some s /\ readyState s <> CLOSED /\ wired s = true) /\
  (forall h s, socket h w = Some s -> h <> cur -> readyState s = CLOSED).
Proof.
  unfold live. destruct (socket cur w) as [s|] eqn:E.
  - rewrite !andb_true_iff, negb_true_iff, others_closed_spec. split.
    + intros [[Hs Hw] Ho]. split.
      * exists s. repeat split; trivial. intros K. rewrite K in Hs. discriminate.
      * intros h s' E' N. now apply (Ho h s' E').
    + intros [[s' [E' [Hs Hw]]] Ho]. inversion E'; subst s'.
      split; [split; [|exact Hw]|].
      * destruct (readyState s); simpl; congruence.
      * intros k s' E'' N. now apply (Ho k s' E'').
  - split; [discriminate|]. intros [[s [E' _]] _]. discriminate.
Qed.

Lemma nth_error_snoc {A} (l : list A) x : nth_error (l ++ [x]) (List.length l) = Some x.
Proof. induction l as [|a l IH]; simpl; auto. Qed.

Lemma nth_error_snoc_other {A} (l : list A) x k :
  k <> List.length l -> nth_error (l ++ [x]) k = nth_error l k.
Proof.
  revert k; induction l as [|a l IH]; intros [|k] N; simpl in *; try congruence.
  - now destruct k.
  - apply IH. congruence.
Qed.

Lemma socket_lt w h s : socket h w = Some s -> (h < List.length (sockets w))%nat.
Proof. intros E. apply nth_error_Some. unfold socket in E. congruence. Qed.

Lemma bind_normal {A B} (m : M G U A) (k : A -> M G U B) w a w' :
  m w = (Normal a, w') -> bind m k w = k a w'.
Proof. intros E. unfold bind. now rewrite E. Qed.

Lemma settle_cases (m : M G U unit) w :
  settle m w = snd (m w) \/ exists e, settle m w = emit (Uncaught e) (snd (m w)).
Proof.
  unfold settle. destruct (m w) as [[a|e] w']; simpl; [now left|right; now exists e].
Qed.

Lemma oblivious_ret {A} (a : A) : oblivious (G := G) (U := U) (ret a).
Proof. intros o w. reflexivity. Qed.

Lemma oblivious_throw {A} (e : Exn) : oblivious (G := G) (U := U) (A := A) (throw e).
Proof. intros o w. reflexivity. Qed.

Lemma oblivious_bind {A B} (m : M G U A) (k : A -> M G U B) :
  oblivious m -> (forall a, oblivious (k a)) -> oblivious (bind m k).
Proof.
  intros Hm Hk o w. unfold bind. rewrite Hm.
  destruct (m w) as [[a|e] w']; simpl; [apply Hk|reflexivity].
Qed.

Lemma oblivious_get_this : oblivious (G := G) (U := U) get_this.
Proof. intros o w. reflexivity. Qed.

Lemma oblivious_modify_this (f : G -> G) : oblivious (U := U) (modify_this f).
Proof. intros o w. reflexivity. Qed.

Lemma oblivious_console_log text : oblivious (G := G) (U := U) (console_log text).
Proof. intros o w. reflexivity. Qed.

Lemma oblivious_new_WebSocket address : oblivious (G := G) (U := U) (new_WebSocket address).
Proof. intros o w. reflexivity. Qed.

Lemma oblivious_ws_readyState h : oblivious (G := G) (U := U) (ws_readyState h).
Proof.
  intros o w. unfold ws_readyState, socket. simpl.
  destruct (nth_error (sockets w) h); reflexivity.
Qed.

Lemma oblivious_ws_send h frame : oblivious (G := G) (U := U) (ws_send h frame).
Proof.
  intros o w. unfold ws_send, socket. simpl.
  destruct (nth_error (sockets w) h) as [s|]; [destruct (readyState s)|]; reflexivity.
Qed.

Lemma oblivious_ws_close h : oblivious (G := G) (U := U) (ws_close h).
Proof.
  intros o w. unfold ws_close, socket. simpl.
  destruct (nth_error (sockets w) h) as [s|]; [destruct (readyState s)|]; reflexivity.
Qed.

Lemma oblivious_ws_assign_handlers h : oblivious (G := G) (U := U) (ws_assign_handlers h).
Proof.
  intros o w. unfold ws_assign_handlers, socket. simpl.
  destruct (nth_error (sockets w) h); reflexivity.
Qed.

Lemma oblivious_forEach {A} (l : list A) (f : A -> M G U unit) :
  (forall x, oblivious (f x)) -> oblivious (forEach l f).
Proof.
  intros Hf. induction l as [|x l IH]; simpl.
  - apply oblivious_ret.
  - apply oblivious_bind; [apply Hf|intros _; exact IH].
Qed.

Lemma oblivious_react {Call} (exec : Call -> M G U unit) (r : Reaction Call) :
  (forall c, oblivious (exec c)) -> oblivious (react exec r).
Proof.
  intros He. unfold react. apply oblivious_bind; [now apply oblivious_forEach|].
  intros _. destruct (raises r); [apply oblivious_throw|apply oblivious_ret].
Qed.

Lemma oblivious_invoke_observer {Call} {C : Caller Call U} (exec : Call -> M G U unit) f data :
  (forall c, oblivious (exec c)) -> oblivious (invoke_observer exec f data).
Proof.
  intros He o w. unfold invoke_observer. simpl.
  destruct (observer f data (caller w)) as [u r].
  apply (oblivious_react exec r He o (emit (Delivered f data) (with_caller u w))).
Qed.

Lemma oblivious_invoke_notifier {Call} {C : Caller Call U} (exec : Call -> M G U unit) cb :
  (forall c, oblivious (exec c)) -> oblivious (invoke_notifier exec cb).
Proof.
  intros He o w. unfold invoke_notifier. destruct cb as [n|]; [|reflexivity]. simpl.
  destruct (notifier n (caller w)) as [u r].
  apply (oblivious_react exec r He o (emit (Notified (Some n)) (with_caller u w))).
Qed.

Lemma settle_oblivious (m : M G U unit) o w :
  oblivious m -> settle m (with_objects o w) = with_objects o (settle m w).
Proof.
  intros Hm. unfold settle. rewrite Hm. destruct (m w) as [[a|e] w']; reflexivity.
Qed.

Lemma fire_oblivious (hs : Handlers G U) ev o w :
  oblivious (handle_open hs) -> (forall p, oblivious (handle_message hs p)) ->
  oblivious (handle_close hs) ->
  fire hs ev (with_objects o w) = with_objects o (fire hs ev w).
Proof.
  intros Ho Hm Hc. unfold fire.
  change (enabled ev (with_objects o w)) with (enabled ev w).
  destruct (enabled ev w); [|reflexivity].
  destruct ev as [h|h payload|h];
    change (is_wired h (with_objects o w)) with (is_wired h w);
    destruct (is_wired h w); try reflexivity.
  - apply (settle_oblivious _ o (move h OPEN w) Ho).
  - apply (settle_oblivious _ o w (Hm payload)).
  - apply (settle_oblivious _ o (move h CLOSED w) Hc).
Qed.

End StoreFacts.

(* ================================================================== *)
(** ** Facts about the caller-driven client *)

Import Lib.

Section LibFacts.
Context {U : Type} {C : Caller Call U} {D : Decoder}.
Implicit Types (w a b : World GameServer U) (s : WebSocket).

Lemma transmitted_app (a b : list Effect) :
  transmitted (a ++ b) = transmitted a ++ transmitted b.
Proof.
  induction a as [|e a IH]; simpl; [reflexivity|].
  destruct e; simpl; rewrite IH; reflexivity.
Qed.

Lemma deliveries_app (a b : list Effect) :
  deliveries (a ++ b) = deliveries a ++ deliveries b.
Proof.
  induction a as [|e a IH]; simpl; [reflexivity|].
  destruct e; simpl; rewrite IH; reflexivity.
Qed.

Lemma notifications_app (a b : list Effect) :
  notifications (a ++ b) = (notifications a + notifications b)%nat.
Proof.
  induction a as [|e a IH]; simpl; [reflexivity|].
  destruct e; simpl; rewrite IH; reflexivity.
Qed.

Lemma constructions_app (a b : list Effect) :
  constructions (a ++ b) = (constructions a + constructions b)%nat.
Proof.
  induction a as [|e a IH]; simpl; [reflexivity|].
  destruct e; simpl; rewrite IH; reflexivity.
Qed.

Lemma transmitted_map_Transmitted h q : transmitted (map (Transmitted h) q) = q.
Proof. induction q as [|x q IH]; simpl; [reflexivity|now rewrite IH]. Qed.

(** send on an open socket puts the text on the network. *)
Lemma send_open data w s :
  socket (_ws (this w)) w = Some s -> readyState s = OPEN ->
  send data w = (Normal tt, emit (Transmitted (_ws (this w)) (JSON_stringify data)) w).
Proof.
  intros E R. unfold send, bind, get_this, ws_readyState.
  rewrite E, R. simpl. unfold ws_send. rewrite E, R. reflexivity.
Qed.

(** send on any other socket appends the text to the queue. *)
Lemma send_not_open data w s :
  socket (_ws (this w)) w = Some s -> readyState s <> OPEN ->
  send data w =
  (Normal tt,
   with_this (set_message_queue (message_queue (this w) ++ [JSON_stringify data]) (this w)) w).
Proof.
  intros E R. unfold send, bind, get_this, ws_readyState, ws_send, modify_this.
  rewrite E. destruct (readyState s); simpl; try reflexivity. congruence.
Qed.

Lemma closing_step_refl s : closing_step s s.
Proof. unfold closing_step; auto. Qed.

Lemma closing_step_trans s1 s2 s3 :
  closing_step s1 s2 -> closing_step s2 s3 -> closing_step s1 s3.
Proof.
  unfold closing_step. intros (U1 & W1 & R1) (U2 & W2 & R2).
  repeat split; try congruence.
  destruct R1 as [R1|[R1 N1]], R2 as [R2|[R2 N2]]; try (left; congruence);
    right; split; congruence.
Qed.

Lemma evolves_refl (a : option WebSocket) : evolves a a.
Proof. destruct a; simpl; [apply closing_step_refl|exact I]. Qed.

Lemma evolves_trans (a b c : option WebSocket) : evolves a b -> evolves b c -> evolves a c.
Proof.
  destruct a, b, c; simpl; try tauto. apply closing_step_trans.
Qed.

Lemma quiet_refl w : quiet w w.
Proof.
  unfold quiet. repeat split; trivial.
  - exists []. now rewrite app_nil_r.
  - intros h. apply evolves_refl.
Qed.

Lemma quiet_trans w1 w2 w3 : quiet w1 w2 -> quiet w2 w3 -> quiet w1 w3.
Proof.
  unfold quiet.
  intros (A1 & [l1 B1] & C1 & D1 & E1 & F1 & G1 & H1) (A2 & [l2 B2] & C2 & D2 & E2 & F2 & G2 & H2).
  repeat split; try congruence.
  - exists (l1 ++ l2). now rewrite B2, B1, app_assoc.
  - intros h. eapply evolves_trans; eauto.
Qed.

Lemma alive_quiet w w' : alive w -> quiet w w' -> alive w'.
Proof.
  intros [s E] (A & _ & S & _). specialize (S (_ws (this w))).
  unfold alive. rewrite A. rewrite E in S.
  destruct (socket (_ws (this w)) w') as [s'|]; [now exists s'|contradiction].
Qed.

Lemma offline_quiet w w' : offline w -> quiet w w' -> offline w'.
Proof.
  intros [s [E R]] (A & _ & S & _). specialize (S (_ws (this w))).
  unfold offline. rewrite A. rewrite E in S.
  destruct (socket (_ws (this w)) w') as [s'|]; [|contradiction].
  exists s'. split; [reflexivity|]. destruct S as (_ & _ & [S|[S _]]); congruence.
Qed.

Lemma consistent_quiet w w' : consistent w = true -> quiet w w' -> consistent w' = true.
Proof.
  unfold consistent. rewrite !live_spec. intros [[s [E [R W]]] O] (A & _ & S & _).
  rewrite A. split.
  - pose proof (S (_ws (this w))) as S0. rewrite E in S0.
    destruct (socket (_ws (this w)) w') as [s'|]; [|contradiction].
    exists s'. destruct S0 as (_ & W' & R'). repeat split; [|congruence].
    destruct R' as [R'|[R' _]]; congruence.
  - intros h s' E' N. pose proof (S h) as Sh. rewrite E' in Sh.
    destruct (socket h w) as [s0|] eqn:E0; [|contradiction].
    pose proof (O h s0 E0 N) as K. destruct Sh as (_ & _ & [Sh|[_ Sh]]); congruence.
Qed.

Lemma quiet_emit (e : Effect) w :
  deliveries [e] = [] -> notifications [e] = 0%nat -> constructions [e] = 0%nat ->
  quiet w (emit e w).
Proof.
  intros Hd Hn Hc. unfold quiet. simpl.
  rewrite deliveries_app, notifications_app, constructions_app, Hd, Hn, Hc, app_nil_r, !Nat.add_0_r.
  repeat split; trivial.
  - exists []. now rewrite app_nil_r.
  - intros h. apply evolves_refl.
Qed.

Lemma send_quiet data w :
  alive w -> fst (send data w) = Normal tt /\ quiet w (snd (send data w)).
Proof.
  intros [s E]. destruct (readyState s) eqn:R.
  2: { rewrite (send_open data w s E R). split; [reflexivity|]. now apply quiet_emit. }
  all: rewrite (send_not_open data w s E) by congruence; split; [reflexivity|];
    unfold quiet; simpl; repeat split; trivial;
    [exists []; now rewrite app_nil_r | intros h; apply evolves_refl].
Qed.

Lemma close_quiet w :
  alive w -> fst (close w) = Normal tt /\ quiet w (snd (close w)).
Proof.
  intros [s E]. unfold close, bind, get_this, ws_close. rewrite E.
  assert (Q : readyState s <> CLOSED -> readyState s <> CLOSING ->
              quiet w (emit (CloseStarted (_ws (this w)))
                (with_sockets (update (_ws (this w)) (set_readyState CLOSING) (sockets w)) w))).
  { intros N1 N2. unfold quiet. simpl.
    rewrite deliveries_app, notifications_app, constructions_app. simpl.
    rewrite app_nil_r, !Nat.add_0_r. repeat split; trivial.
    - exists []. now rewrite app_nil_r.
    - intros h. unfold socket. simpl.
      destruct (Nat.eq_dec (_ws (this w)) h) as [e|n].
      + subst h. unfold socket in E. rewrite (nth_error_update_same _ _ _ _ E), E. simpl.
        unfold closing_step. simpl. auto.
      + rewrite (nth_error_update_other _ _ _ _ n). apply evolves_refl. }
  destruct (readyState s); simpl; split; try reflexivity;
    try apply quiet_refl; apply Q; congruence.
Qed.

Lemma exec_quiet c w :
  alive w -> fst (exec c w) = Normal tt /\ quiet w (snd (exec c w)).
Proof.
  intros A. destruct c; simpl;
    try (apply send_quiet; exact A); try (apply close_quiet; exact A).
  - split; [reflexivity|]. unfold quiet. simpl. repeat split; trivial.
    + now exists [func].
    + intros h. apply evolves_refl.
  - split; [reflexivity|]. unfold quiet. simpl. repeat split; trivial.
    + exists []. now rewrite app_nil_r.
    + intros h. apply evolves_refl.
Qed.

Lemma calls_quiet (l : list Call) : forall w,
  alive w -> fst (forEach l exec w) = Normal tt /\ quiet w (snd (forEach l exec w)).
Proof.
  induction l as [|c l IH]; intros w A; simpl.
  - split; [reflexivity|apply quiet_refl].
  - unfold bind. destruct (exec_quiet c w A) as [N Q].
    destruct (exec c w) as [[[]|e] w1]; simpl in *; [|discriminate].
    destruct (IH w1 (alive_quiet _ _ A Q)) as [N' Q'].
    split; [exact N'|]. eapply quiet_trans; eauto.
Qed.

(** A callback returns or throws as it says, whatever it calls. *)
Lemma react_quiet (r : Reaction Call) w :
  alive w ->
  fst (react exec r w) = (if raises r then Throw Raised else Normal tt) /\
  quiet w (snd (react exec r w)).
Proof.
  intros A. unfold react, bind. destruct (calls_quiet (calls r) w A) as [N Q].
  destruct (forEach (calls r) exec w) as [[[]|e] w1]; simpl in *; [|discriminate].
  destruct (raises r); simpl; auto.
Qed.

Lemma offline_alive w : offline w -> alive w.
Proof. intros [s [E _]]. now exists s. Qed.

Lemma exec_payload c data w : payload c = Some data -> exec c w = send data w.
Proof. destruct c; simpl; intros E; inversion E; reflexivity. Qed.

(** While the socket is not open a call transmits nothing; if it sends,
    its text goes to the tail of the queue. *)
Lemma exec_offline c w :
  offline w ->
  message_queue (this (snd (exec c w))) = message_queue (this w) ++ frames [c] /\
  transmitted (trace (snd (exec c w))) = transmitted (trace w).
Proof.
  intros [s [E R]]. simpl. destruct (payload c) as [data|] eqn:P.
  - rewrite (exec_payload c data w P), (send_not_open data w s E R). simpl. auto.
  - destruct c; simpl in P; try discriminate; simpl; rewrite ?app_nil_r; auto.
    unfold close, bind, get_this, ws_close. rewrite E.
    destruct (readyState s); simpl; rewrite ?transmitted_app, ?app_nil_r; simpl;
      rewrite ?app_nil_r; auto.
Qed.

Lemma calls_offline (l : list Call) : forall w,
  offline w ->
  message_queue (this (snd (forEach l exec w))) = message_queue (this w) ++ frames l /\
  transmitted (trace (snd (forEach l exec w))) = transmitted (trace w).
Proof.
  induction l as [|c l IH]; intros w O; simpl.
  - rewrite app_nil_r. auto.
  - unfold bind. destruct (exec_quiet c w (offline_alive w O)) as [N Q].
    destruct (exec_offline c w O) as [Hq Ht].
    destruct (exec c w) as [[[]|e] w1]; simpl in *; [|discriminate].
    destruct (IH w1 (offline_quiet _ _ O Q)) as [Hq' Ht'].
    rewrite Hq', Ht', Hq, Ht. split; [|reflexivity].
    destruct (payload c); simpl; now rewrite <- app_assoc.
Qed.

Lemma react_offline (r : Reaction Call) w :
  offline w ->
  message_queue (this (snd (react exec r w))) = message_queue (this w) ++ frames (calls r) /\
  transmitted (trace (snd (react exec r w))) = transmitted (trace w).
Proof.
  intros O. unfold react, bind.
  destruct (calls_quiet (calls r) w (offline_alive w O)) as [N _].
  destruct (calls_offline (calls r) w O) as [Hq Ht].
  destruct (forEach (calls r) exec w) as [[[]|e] w1]; simpl in *; [|discriminate].
  destruct (raises r); simpl; auto.
Qed.

(** The loop of the open handler on an open socket: every text of the
    queue goes out, in order. *)
Lemma flush_open (q : list string) : forall w s,
  socket (_ws (this w)) w = Some s -> readyState s = OPEN ->
  forEach q (fun data_str => g' <- get_this ;; ws_send (_ws g') data_str) w =
  (Normal tt,
   mkWorld (this w) (sockets w) (objects w) (caller w)
     (trace w ++ map (Transmitted (_ws (this w))) q)).
Proof.
  induction q as [|x q IH]; intros w s E R; simpl.
  - rewrite app_nil_r. destruct w; reflexivity.
  - unfold bind at 1. unfold bind at 1. unfold get_this at 1. unfold ws_send at 1.
    rewrite E, R.
    rewrite (IH (emit (Transmitted (_ws (this w)) x) w) s E R). simpl.
    now rewrite <- app_assoc.
Qed.

(** The open event on the socket [this._ws]: the socket is open, the
    queue has gone out in order and is empty. *)
Lemma open_event w s :
  socket (_ws (this w)) w = Some s -> readyState s = CONNECTING -> wired s = true ->
  fire handlers (EvOpen (_ws (this w))) w =
  mkWorld (set_message_queue [] (this w))
    (update (_ws (this w)) (set_readyState OPEN) (sockets w)) (objects w) (caller w)
    (trace w ++ ConsoleLog "connected"
       :: map (Transmitted (_ws (this w))) (message_queue (this w))).
Proof.
  intros E R W. unfold fire, enabled, is_wired. simpl target. rewrite E, R, W.
  simpl handle_open. unfold on_open.
  set (w1 := move (_ws (this w)) OPEN w).
  assert (E1 : socket (_ws (this (emit (ConsoleLog "connected") w1)))
                 (emit (ConsoleLog "connected") w1) = Some (set_readyState OPEN s)).
  { unfold socket. simpl. now apply nth_error_update_same. }
  unfold settle.
  rewrite (bind_normal (console_log "connected") _ w1 tt
             (emit (ConsoleLog "connected") w1) eq_refl).
  rewrite (bind_normal get_this _ (emit (ConsoleLog "connected") w1) (this w)
             (emit (ConsoleLog "connected") w1) eq_refl).
  destruct (message_queue (this w)) as [|x q] eqn:Q.
  - simpl. destruct w as [g ? ? ? ?]. destruct g. simpl in *. subst. reflexivity.
  - change (0 <? List.length (x :: q))%nat with true. cbv iota.
    rewrite (bind_normal _ _ _ _ _ (flush_open (x :: q) _ _ E1 eq_refl)).
    simpl. now rewrite <- app_assoc.
Qed.

Lemma consistent_frame w w' :
  _ws (this w') = _ws (this w) -> sockets w' = sockets w -> consistent w' = consistent w.
Proof.
  intros T S. unfold consistent, live, socket. now rewrite T, S.
Qed.

Lemma consistent_alive w : consistent w = true -> alive w.
Proof.
  unfold consistent. rewrite live_spec. intros [[s [E _]] _]. now exists s.
Qed.

(** One observer is entered once, and the loop goes on if and only if
    it returns. *)
Lemma invoke_observer_step f data w :
  consistent w = true ->
  consistent (snd (invoke_observer exec f data w)) = true /\
  deliveries (trace (snd (invoke_observer exec f data w))) = deliveries (trace w) ++ [(f, data)] /\
  fst (invoke_observer exec f data w) =
    (if raises (snd (observer f data (caller w))) then Throw Raised else Normal tt) /\
  _ws (this (snd (invoke_observer exec f data w))) = _ws (this w) /\
  (exists l, onmessage_handler (this (snd (invoke_observer exec f data w)))
             = onmessage_handler (this w) ++ l).
Proof.
  intros K. unfold invoke_observer.
  destruct (observer f data (caller w)) as [u r]. simpl snd.
  set (w0 := emit (Delivered f data) (with_caller u w)).
  assert (K0 : consistent w0 = true) by (rewrite <- K; now apply consistent_frame).
  destruct (react_quiet r w0 (consistent_alive w0 K0)) as [N Q].
  split; [now apply (consistent_quiet w0)|].
  destruct Q as (A & B & _ & _ & _ & Dl & _).
  rewrite Dl, A. unfold w0 at 1 2 3. simpl. rewrite deliveries_app. simpl.
  repeat split; trivial.
Qed.

Lemma observers_loop data (l : list ObserverId) : forall w,
  consistent w = true ->
  consistent (snd (forEach l (fun f => invoke_observer exec f data) w)) = true /\
  _ws (this (snd (forEach l (fun f => invoke_observer exec f data) w))) = _ws (this w) /\
  (exists more, onmessage_handler (this (snd (forEach l (fun f => invoke_observer exec f data) w)))
                = onmessage_handler (this w) ++ more) /\
  (exists entered rest,
     l = entered ++ rest /\
     deliveries (trace (snd (forEach l (fun f => invoke_observer exec f data) w)))
       = deliveries (trace w) ++ map (fun f => (f, data)) entered /\
     (fst (forEach l (fun f => invoke_observer exec f data) w) = Normal tt -> rest = []) /\
     (rest = [] \/
      exists before f u,
        entered = before ++ [f] /\ raises (snd (observer f data u)) = true)).
Proof.
  induction l as [|f l IH]; intros w K; simpl.
  - repeat split; trivial.
    + exists []. now rewrite app_nil_r.
    + exists [], []. simpl. rewrite app_nil_r. auto.
  - unfold bind. destruct (invoke_observer_step f data w K) as (K1 & D1 & N1 & A1 & [m1 B1]).
    destruct (invoke_observer exec f data w) as [[[]|e] w1]; simpl in *.
    + destruct (IH w1 K1) as (K2 & A2 & [m2 B2] & entered & rest & El & D2 & N2 & Last).
      repeat split; trivial; try congruence.
      * exists (m1 ++ m2). now rewrite B2, B1, app_assoc.
      * exists (f :: entered), rest. subst l. simpl. repeat split; trivial.
        -- rewrite D2, D1, <- app_assoc. reflexivity.
        -- destruct Last as [Last|(before & g & u & Eb & Rg)]; [now left|right].
           exists (f :: before), g, u. subst entered. auto.
    + repeat split; trivial.
      * now exists m1.
      * exists [f], l. simpl. repeat split; trivial; [discriminate|].
        right. exists [], f, (caller w). split; [reflexivity|].
        destruct (raises (snd (observer f data (caller w)))); [reflexivity|discriminate].
Qed.

(** When no observer of the list throws on this frame, the loop ends
    normally. *)
Lemma observers_loop_returns data (l : list ObserverId) : forall w,
  consistent w = true ->
  (forall f u, In f l -> raises (snd (observer f data u)) = false) ->
  fst (forEach l (fun f => invoke_observer exec f data) w) = Normal tt.
Proof.
  induction l as [|f l IH]; intros w K R; simpl; [reflexivity|].
  unfold bind. destruct (invoke_observer_step f data w K) as (K1 & _ & N1 & _).
  rewrite (R f (caller w) (or_introl eq_refl)) in N1.
  destruct (invoke_observer exec f data w) as [[[]|e] w1]; simpl in *; [|discriminate].
  apply IH; [exact K1|]. intros g u I. apply R. now right.
Qed.

(** The close event on the socket [this._ws], up to the moment the
    reconnect callback is entered: a new socket stands in [this._ws],
    connecting, with its handlers; the queue is as it was. *)
Lemma close_event w :
  consistent w = true ->
  exists w_mid,
    fire handlers (EvClose (_ws (this w))) w
      = settle (invoke_notifier exec (onclosehandler (this w))) w_mid /\
    this w_mid = set__ws (List.length (sockets w)) (this w) /\
    socket (List.length (sockets w)) w_mid = Some (mkWebSocket ws_address CONNECTING true) /\
    consistent w_mid = true /\
    caller w_mid = caller w /\
    objects w_mid = objects w /\
    trace w_mid
      = trace w ++ [ConsoleLog "disconnected"; Constructed (List.length (sockets w)) ws_address].
Proof.
  intros K. pose proof K as K'. unfold consistent in K'. rewrite live_spec in K'.
  destruct K' as [[s [E [R W]]] O].
  set (h := _ws (this w)) in *. set (h' := List.length (sockets w)).
  set (l1 := update h (set_readyState CLOSED) (sockets w)).
  set (fresh := mkWebSocket ws_address CONNECTING false).
  exists (mkWorld (set__ws h' (this w)) (update h' set_wired (l1 ++ [fresh]))
            (objects w) (caller w)
            (trace w ++ [ConsoleLog "disconnected"; Constructed h' ws_address])).
  assert (L1 : List.length l1 = h') by apply length_update.
  assert (F : nth_error (l1 ++ [fresh]) h' = Some fresh)
    by (rewrite <- L1; apply nth_error_snoc).
  split.
  { unfold fire, enabled, is_wired. simpl target. fold h. rewrite E, W.
    assert (En : match readyState s with
                 | CONNECTING | OPEN | CLOSING => true
                 | CLOSED => false
                 end = true) by (destruct (readyState s); congruence).
    rewrite En. simpl handle_close. unfold on_close.
    set (w1 := move h CLOSED w).
    unfold settle at 1.
    rewrite (bind_normal (console_log "disconnected") _ w1 tt
               (emit (ConsoleLog "disconnected") w1) eq_refl).
    set (w2 := emit (ConsoleLog "disconnected") w1).
    set (w3 := emit (Constructed h' ws_address) (with_sockets (l1 ++ [fresh]) w2)).
    assert (N : new_WebSocket ws_address w2 = (Normal h', w3)).
    { unfold new_WebSocket, w3. simpl sockets. fold l1. rewrite L1. reflexivity. }
    rewrite (bind_normal _ _ _ _ _ N).
    set (w4 := with_this (set__ws h' (this w3)) w3).
    rewrite (bind_normal (modify_this (set__ws h')) _ w3 tt w4 eq_refl).
    set (w5 := with_sockets (update h' set_wired (sockets w4)) w4).
    assert (S5 : setupSocket w4 = (Normal tt, w5)).
    { unfold setupSocket. rewrite (bind_normal get_this _ w4 (this w4) w4 eq_refl).
      unfold ws_assign_handlers, socket. simpl. rewrite F. reflexivity. }
    rewrite (bind_normal _ _ _ _ _ S5).
    rewrite (bind_normal get_this _ w5 (this w5) w5 eq_refl).
    assert (W5 : w5 = mkWorld (set__ws h' (this w)) (update h' set_wired (l1 ++ [fresh]))
                        (objects w) (caller w)
                        (trace w ++ [ConsoleLog "disconnected"; Constructed h' ws_address])).
    { unfold w5, w4, w3, w2, w1, emit, with_sockets, with_this, move. simpl.
      now rewrite <- app_assoc. }
    rewrite W5. reflexivity. }
  split; [reflexivity|].
  assert (F' : nth_error (update h' set_wired (l1 ++ [fresh])) h'
               = Some (mkWebSocket ws_address CONNECTING true))
    by (rewrite (nth_error_update_same _ _ _ _ F); reflexivity).
  split; [exact F'|].
  split; [|repeat split].
  unfold consistent. rewrite live_spec. simpl. unfold socket. simpl. split.
  - exists (mkWebSocket ws_address CONNECTING true). repeat split; [exact F'|discriminate].
  - intros k s' E' N. rewrite nth_error_update_other in E' by congruence.
    rewrite nth_error_snoc_other in E' by congruence.
    destruct (Nat.eq_dec h k) as [e|n].
    + subst k. unfold l1 in E'. unfold socket in E.
      rewrite (nth_error_update_same _ _ _ _ E) in E'. inversion E'. reflexivity.
    + unfold l1 in E'. rewrite nth_error_update_other in E' by exact n.
      apply (O k s' E'). congruence.
Qed.

(** The reconnect callback on a socket that is not open: it is entered
    once, and what it sends goes to the tail of the queue. *)
Lemma invoke_notifier_step (cb : option NotifierId) w :
  consistent w = true -> offline w ->
  consistent (snd (invoke_notifier exec cb w)) = true /\
  offline (snd (invoke_notifier exec cb w)) /\
  _ws (this (snd (invoke_notifier exec cb w))) = _ws (this w) /\
  (exists l, onmessage_handler (this (snd (invoke_notifier exec cb w)))
             = onmessage_handler (this w) ++ l) /\
  message_queue (this (snd (invoke_notifier exec cb w)))
    = message_queue (this w) ++
      match cb with
      | Some n => frames (calls (snd (notifier n (caller w))))
      | None => []
      end /\
  transmitted (trace (snd (invoke_notifier exec cb w))) = transmitted (trace w) /\
  deliveries (trace (snd (invoke_notifier exec cb w))) = deliveries (trace w) /\
  notifications (trace (snd (invoke_notifier exec cb w))) = S (notifications (trace w)) /\
  constructions (trace (snd (invoke_notifier exec cb w))) = constructions (trace w).
Proof.
  intros K Off. destruct cb as [n|]; simpl.
  - destruct (notifier n (caller w)) as [u r]. simpl snd.
    set (w0 := emit (Notified (Some n)) (with_caller u w)).
    assert (K0 : consistent w0 = true) by (rewrite <- K; now apply consistent_frame).
    assert (Off0 : offline w0) by exact Off.
    destruct (react_quiet r w0 (consistent_alive w0 K0)) as [_ Q].
    destruct (react_offline r w0 Off0) as [Hq Ht].
    split; [now apply (consistent_quiet w0)|].
    split; [now apply (offline_quiet w0)|].
    destruct Q as (A & B & _ & _ & _ & Dl & Nt & Cs).
    rewrite A, Hq, Ht, Dl, Nt, Cs. unfold w0. simpl.
    rewrite transmitted_app, deliveries_app, notifications_app, constructions_app. simpl.
    rewrite !app_nil_r, !Nat.add_0_r, Nat.add_1_r. repeat split; trivial.
  - rewrite transmitted_app, deliveries_app, notifications_app, constructions_app. simpl.
    rewrite !app_nil_r, !Nat.add_0_r, Nat.add_1_r.
    repeat split; trivial.
    exists []. now rewrite app_nil_r.
Qed.

Lemma consistent_emit (e : Effect) w : consistent (emit e w) = consistent w.
Proof. now apply consistent_frame. Qed.

(** The whole close event. *)
Lemma close_event_result w :
  consistent w = true ->
  let w' := fire handlers (EvClose (_ws (this w))) w in
  consistent w' = true /\
  offline w' /\
  _ws (this w') = List.length (sockets w) /\
  (exists l, onmessage_handler (this w') = onmessage_handler (this w) ++ l) /\
  message_queue (this w')
    = message_queue (this w) ++
      match onclosehandler (this w) with
      | Some n => frames (calls (snd (notifier n (caller w))))
      | None => []
      end /\
  transmitted (trace w') = transmitted (trace w) /\
  deliveries (trace w') = deliveries (trace w) /\
  notifications (trace w') = S (notifications (trace w)) /\
  constructions (trace w') = S (constructions (trace w)).
Proof.
  intros K w'. destruct (close_event w K) as (w_mid & F & T & S & Km & Cm & _ & Tr).
  assert (Off : offline w_mid).
  { unfold offline. rewrite T. simpl. rewrite S. eexists. split; [reflexivity|]. discriminate. }
  destruct (invoke_notifier_step (onclosehandler (this w)) w_mid Km Off)
    as (K1 & O1 & A1 & [l B1] & Q1 & T1 & D1 & N1 & C1).
  rewrite T in A1, B1, Q1. simpl in A1, B1, Q1. rewrite Cm in Q1.
  rewrite Tr in T1, D1, N1, C1.
  rewrite transmitted_app in T1. rewrite deliveries_app in D1.
  rewrite notifications_app in N1. rewrite constructions_app in C1.
  simpl in T1, D1, N1, C1. rewrite app_nil_r in T1, D1. rewrite Nat.add_0_r in N1.
  rewrite Nat.add_1_r in C1.
  unfold w'. rewrite F.
  destruct (settle_cases (invoke_notifier exec (onclosehandler (this w))) w_mid) as [E|[e E]];
    rewrite E.
  - repeat split; trivial. now exists l.
  - rewrite consistent_emit. simpl.
    rewrite transmitted_app, deliveries_app, notifications_app, constructions_app. simpl.
    rewrite !app_nil_r, !Nat.add_0_r. repeat split; trivial. now exists l.
Qed.

(** A frame that does not decode changes nothing but the log. *)
Lemma message_event_malformed h payload w :
  JSON_parse payload = None ->
  fire handlers (EvMessage h payload) w = w \/
  fire handlers (EvMessage h payload) w = emit (Uncaught SyntaxError) w.
Proof.
  intros P. unfold fire. destruct (enabled (EvMessage h payload) w); [|now left].
  destruct (is_wired h w); [|now left].
  right. unfold settle. simpl. unfold on_message. rewrite P. reflexivity.
Qed.

(** A frame that decodes runs the loop over the observers. *)
Lemma message_event_decoded payload data w s :
  socket (_ws (this w)) w = Some s -> readyState s = OPEN -> wired s = true ->
  JSON_parse payload = Some data ->
  fire handlers (EvMessage (_ws (this w)) payload) w
  = settle (forEach (onmessage_handler (this w)) (fun f => invoke_observer exec f data)) w.
Proof.
  intros E R W P. unfold fire, enabled, is_wired. simpl target. rewrite E, R, W.
  simpl handle_message. unfold on_message. rewrite P. unfold settle.
  rewrite (bind_normal get_this _ w (this w) w eq_refl). reflexivity.
Qed.

(** The browser only has events for the socket [this._ws]. *)
Lemma enabled_current ev w :
  consistent w = true -> enabled ev w = true -> target ev = _ws (this w).
Proof.
  unfold consistent. rewrite live_spec. intros [_ O] En. unfold enabled in En.
  destruct (socket (target ev) w) as [s|] eqn:E; [|discriminate].
  destruct (Nat.eq_dec (target ev) (_ws (this w))) as [e|n]; [exact e|].
  rewrite (O _ _ E n) in En. destruct ev; discriminate.
Qed.

Lemma consistent_fire ev w : consistent w = true -> consistent (fire handlers ev w) = true.
Proof.
  intros K. destruct (enabled ev w) eqn:En.
  2: { unfold fire. now rewrite En. }
  pose proof (enabled_current ev w K En) as T.
  pose proof K as K'. unfold consistent in K'. rewrite live_spec in K'.
  destruct K' as [[s [E [R W]]] O].
  unfold enabled in En. rewrite T, E in En.
  destruct ev as [h|h payload|h]; simpl in T; subst h.
  - destruct (readyState s) eqn:Rs; try discriminate.
    rewrite (open_event w s E Rs W). unfold consistent. rewrite live_spec.
    unfold socket in *. simpl. split.
    + exists (set_readyState OPEN s). rewrite (nth_error_update_same _ _ _ _ E).
      repeat split; [discriminate|exact W].
    + intros k s' E' N. rewrite nth_error_update_other in E' by congruence.
      now apply (O k s' E').
  - destruct (readyState s) eqn:Rs; try discriminate.
    destruct (JSON_parse payload) as [data|] eqn:P.
    + rewrite (message_event_decoded payload data w s E Rs W P).
      destruct (observers_loop data (onmessage_handler (this w)) w K) as (K1 & _).
      destruct (settle_cases (forEach (onmessage_handler (this w))
                  (fun f => invoke_observer exec f data)) w) as [S|[e S]]; rewrite S.
      * exact K1.
      * now rewrite consistent_emit.
    + destruct (message_event_malformed (_ws (this w)) payload w P) as [S|S]; rewrite S.
      * exact K.
      * now rewrite consistent_emit.
  - apply (close_event_result w K).
Qed.

Lemma consistent_step (st : Step) w : consistent w = true -> consistent (step st w) = true.
Proof.
  intros K. destruct st as [c|r|r v|ev]; simpl.
  - apply (consistent_quiet w); [exact K|]. apply exec_quiet. now apply consistent_alive.
  - apply (consistent_quiet w); [exact K|]. apply send_quiet. now apply consistent_alive.
  - rewrite <- K. now apply consistent_frame.
  - now apply consistent_fire.
Qed.

Lemma consistent_run (script : list Step) : forall w,
  consistent w = true -> consistent (run script w) = true.
Proof.
  induction script as [|st script IH]; intros w K; simpl; [exact K|].
  apply IH. now apply consistent_step.
Qed.

(** Every state a client can be in between two steps of its life is
    consistent: the constructor makes it so and no step breaks it. *)
Lemma consistent_reachable (script : list Step) (o : Ref -> Json) (u : U) :
  consistent (run script (new_GameServer o u)) = true.
Proof. apply consistent_run. reflexivity. Qed.

Lemma current_socket w r :
  current w = Some r <-> exists s, socket (_ws (this w)) w = Some s /\ readyState s = r.
Proof.
  unfold current. destruct (socket (_ws (this w)) w) as [s|]; simpl; split.
  - intros E. inversion E. now exists s.
  - intros [s' [E R]]. inversion E. now subst.
  - discriminate.
  - intros [s' [E _]]. discriminate.
Qed.

(** What send does, by the state of the socket. *)
Lemma send_cases data w :
  consistent w = true ->
  fst (send data w) = Normal tt /\
  (current w = Some OPEN ->
   snd (send data w) = emit (Transmitted (_ws (this w)) (JSON_stringify data)) w) /\
  (current w <> Some OPEN ->
   snd (send data w)
   = with_this (set_message_queue (message_queue (this w) ++ [JSON_stringify data]) (this w)) w).
Proof.
  intros K. destruct (consistent_alive w K) as [s E].
  destruct (readyState s) eqn:R.
  2: { rewrite (send_open data w s E R). simpl. repeat split; trivial.
       intros N. exfalso. apply N. apply current_socket. now exists s. }
  all: rewrite (send_not_open data w s E) by congruence; simpl; repeat split; trivial;
    intros O; apply current_socket in O; destruct O as [s' [E' R']]; congruence.
Qed.

(** A row of sends while the socket is not open only grows the queue. *)
Lemma sends_not_open (ds : list Json) : forall w s,
  socket (_ws (this w)) w = Some s -> readyState s <> OPEN ->
  run (map (fun d => Do (CallSend d)) ds) w
  = with_this (set_message_queue (message_queue (this w) ++ map JSON_stringify ds) (this w)) w.
Proof.
  unfold run. induction ds as [|d ds IH]; intros w s E R; cbn [fold_left map step exec].
  - rewrite app_nil_r. destruct w as [g ? ? ? ?]. destruct g. reflexivity.
  - rewrite (send_not_open d w s E R). cbn [snd].
    rewrite (IH (with_this (set_message_queue (message_queue (this w) ++ [JSON_stringify d])
                              (this w)) w) s E R).
    simpl. now rewrite <- app_assoc.
Qed.

Lemma consistent_current w :
  consistent w = true ->
  exists s, socket (_ws (this w)) w = Some s /\ readyState s <> CLOSED /\ wired s = true.
Proof. unfold consistent. rewrite live_spec. now intros [K _]. Qed.

Lemma open_event_consistent w :
  consistent w = true -> current w = Some CONNECTING ->
  fire handlers (EvOpen (_ws (this w))) w =
  mkWorld (set_message_queue [] (this w))
    (update (_ws (this w)) (set_readyState OPEN) (sockets w)) (objects w) (caller w)
    (trace w ++ ConsoleLog "connected"
       :: map (Transmitted (_ws (this w))) (message_queue (this w))).
Proof.
  intros K Cn. destruct (consistent_current w K) as [s [E [_ W]]].
  apply current_socket in Cn. destruct Cn as [s' [E' R]].
  rewrite E in E'. inversion E'; subst s'. now apply (open_event w s).
Qed.

(** close() on a consistent client: the socket is closing, nothing else
    has changed and nothing was transmitted. *)
Lemma close_result w :
  consistent w = true ->
  fst (close w) = Normal tt /\
  consistent (snd (close w)) = true /\
  current (snd (close w)) = Some CLOSING /\
  this (snd (close w)) = this w /\
  List.length (sockets (snd (close w))) = List.length (sockets w) /\
  caller (snd (close w)) = caller w /\
  transmitted (trace (snd (close w))) = transmitted (trace w).
Proof.
  intros K. destruct (close_quiet w (consistent_alive w K)) as [N Q].
  pose proof (consistent_quiet _ _ K Q) as K1.
  destruct (consistent_current w K) as [s [E [R W]]].
  split; [exact N|]. split; [exact K1|].
  clear N Q K1. unfold close, bind, get_this, ws_close. rewrite E.
  destruct (readyState s) eqn:Rs; try congruence; simpl;
    rewrite ?transmitted_app, ?length_update; simpl; rewrite ?app_nil_r;
    repeat split; trivial; apply current_socket; unfold socket in *; simpl.
  - exists (set_readyState CLOSING s). split; [now apply nth_error_update_same|reflexivity].
  - exists (set_readyState CLOSING s). split; [now apply nth_error_update_same|reflexivity].
  - now exists s.
Qed.

Lemma offline_current w :
  consistent w = true -> offline w ->
  current w = Some CONNECTING \/ current w = Some CLOSING.
Proof.
  intros K [s [E R]]. destruct (consistent_current w K) as [s' [E' [R' _]]].
  rewrite E in E'. inversion E'; subst s'.
  destruct (readyState s) eqn:Rs; try congruence; [left|right];
    apply current_socket; now exists s.
Qed.

Lemma disconnects_count (n : nat) : forall w,
  consistent w = true ->
  consistent (disconnects n w) = true /\
  constructions (trace (disconnects n w)) = (n + constructions (trace w))%nat /\
  notifications (trace (disconnects n w)) = (n + notifications (trace w))%nat.
Proof.
  induction n as [|n IH]; intros w K; simpl; [auto|].
  destruct (close_event_result w K) as (K1 & _ & _ & _ & _ & _ & _ & N1 & C1).
  destruct (IH _ K1) as (K2 & C2 & N2).
  rewrite C2, N2, C1, N1. repeat split; trivial; lia.
Qed.

Lemma handlers_grow_fire ev w :
  consistent w = true ->
  exists more,
    onmessage_handler (this (fire handlers ev w)) = onmessage_handler (this w) ++ more.
Proof.
  intros K. destruct (enabled ev w) eqn:En.
  2: { unfold fire. rewrite En. exists []. now rewrite app_nil_r. }
  pose proof (enabled_current ev w K En) as T.
  destruct (consistent_current w K) as [s [E [R W]]].
  unfold enabled in En. rewrite T, E in En.
  destruct ev as [h|h payload|h]; simpl in T; subst h.
  - destruct (readyState s) eqn:Rs; try discriminate.
    rewrite (open_event w s E Rs W). simpl. exists []. now rewrite app_nil_r.
  - destruct (readyState s) eqn:Rs; try discriminate.
    destruct (JSON_parse payload) as [data|] eqn:P.
    + rewrite (message_event_decoded payload data w s E Rs W P).
      destruct (observers_loop data (onmessage_handler (this w)) w K) as (_ & _ & G & _).
      destruct (settle_cases (forEach (onmessage_handler (this w))
                  (fun f => invoke_observer exec f data)) w) as [S|[e S]]; rewrite S;
        exact G.
    + destruct (message_event_malformed (_ws (this w)) payload w P) as [S|S]; rewrite S;
        exists []; simpl; now rewrite app_nil_r.
  - apply (close_event_result w K).
Qed.

(** No step of a run ever takes an observer off the list. *)
Lemma handlers_grow_step (st : Step) w :
  consistent w = true ->
  exists more, onmessage_handler (this (step st w)) = onmessage_handler (this w) ++ more.
Proof.
  intros K. destruct st as [c|r|r v|ev]; simpl.
  - apply (exec_quiet c w (consistent_alive w K)).
  - apply (send_quiet (objects w r) w (consistent_alive w K)).
  - exists []. now rewrite app_nil_r.
  - now apply handlers_grow_fire.
Qed.

Lemma oblivious_send data : oblivious (U := U) (send data).
Proof.
  unfold send. apply oblivious_bind; [apply oblivious_get_this|]. intros g.
  apply oblivious_bind; [apply oblivious_ws_readyState|]. intros r.
  destruct (readyState_value r =? 1)%Z;
    [apply oblivious_ws_send|apply oblivious_modify_this].
Qed.

Lemma oblivious_exec c : oblivious (U := U) (exec c).
Proof.
  destruct c; simpl; try apply oblivious_send; try apply oblivious_modify_this.
  unfold close. apply oblivious_bind; [apply oblivious_get_this|].
  intros g. apply oblivious_ws_close.
Qed.

Lemma oblivious_on_open : oblivious (U := U) on_open.
Proof.
  unfold on_open. apply oblivious_bind; [apply oblivious_console_log|]. intros _.
  apply oblivious_bind; [apply oblivious_get_this|]. intros g.
  destruct (0 <? List.length (message_queue g))%nat; [|apply oblivious_ret].
  apply oblivious_bind; [|intros _; apply oblivious_modify_this].
  apply oblivious_forEach. intros x.
  apply oblivious_bind; [apply oblivious_get_this|]. intros g'. apply oblivious_ws_send.
Qed.

Lemma oblivious_on_message payload : oblivious (U := U) (on_message payload).
Proof.
  unfold on_message. destruct (JSON_parse payload) as [data|]; [|apply oblivious_throw].
  apply oblivious_bind; [apply oblivious_get_this|]. intros g.
  apply oblivious_forEach. intros f. apply oblivious_invoke_observer. apply oblivious_exec.
Qed.

Lemma oblivious_on_close : oblivious (U := U) on_close.
Proof.
  unfold on_close. apply oblivious_bind; [apply oblivious_console_log|]. intros _.
  apply oblivious_bind; [apply oblivious_new_WebSocket|]. intros ws.
  apply oblivious_bind; [apply oblivious_modify_this|]. intros _.
  apply oblivious_bind.
  { unfold setupSocket. apply oblivious_bind; [apply oblivious_get_this|].
    intros g. apply oblivious_ws_assign_handlers. }
  intros _. apply oblivious_bind; [apply oblivious_get_this|]. intros g.
  apply oblivious_invoke_notifier. apply oblivious_exec.
Qed.

Lemma serialized_frame w w' :
  message_queue (this w') = message_queue (this w) -> serialized w -> serialized w'.
Proof. unfold serialized. now intros ->. Qed.

Lemma exec_serialized c w : alive w -> serialized w -> serialized (snd (exec c w)).
Proof.
  intros [s E] Sz. destruct (payload c) as [data|] eqn:P.
  - rewrite (exec_payload c data w P). destruct (readyState s) eqn:R.
    2: { rewrite (send_open data w s E R). exact Sz. }
    all: rewrite (send_not_open data w s E) by congruence; unfold serialized; simpl;
      apply Forall_app; split; [exact Sz|]; constructor; [now exists data|constructor].
  - destruct c; simpl in P; try discriminate; simpl; try exact Sz.
    apply (serialized_frame w); [|exact Sz].
    unfold close, bind, get_this, ws_close. rewrite E.
    destruct (readyState s); reflexivity.
Qed.

Lemma calls_serialized (l : list Call) : forall w,
  alive w -> serialized w -> serialized (snd (forEach l exec w)).
Proof.
  induction l as [|c l IH]; intros w A Sz; simpl; [exact Sz|].
  unfold bind. destruct (exec_quiet c w A) as [N Q].
  pose proof (exec_serialized c w A Sz) as Sz1.
  destruct (exec c w) as [[[]|e] w1]; simpl in *; [|discriminate].
  apply IH; [now apply (alive_quiet w)|exact Sz1].
Qed.

Lemma react_serialized (r : Reaction Call) w :
  alive w -> serialized w -> serialized (snd (react exec r w)).
Proof.
  intros A Sz. unfold react, bind.
  destruct (calls_quiet (calls r) w A) as [N _].
  pose proof (calls_serialized (calls r) w A Sz) as Sz1.
  destruct (forEach (calls r) exec w) as [[[]|e] w1]; simpl in *; [|discriminate].
  destruct (raises r); exact Sz1.
Qed.

Lemma observers_loop_serialized data (l : list ObserverId) : forall w,
  consistent w = true -> serialized w ->
  serialized (snd (forEach l (fun f => invoke_observer exec f data) w)).
Proof.
  induction l as [|f l IH]; intros w K Sz; simpl; [exact Sz|].
  unfold bind. destruct (invoke_observer_step f data w K) as (K1 & _).
  assert (Sz1 : serialized (snd (invoke_observer exec f data w))).
  { unfold invoke_observer. destruct (observer f data (caller w)) as [u r].
    apply react_serialized; [|exact Sz].
    destruct (consistent_alive w K) as [s E]. now exists s. }
  destruct (invoke_observer exec f data w) as [[[]|e] w1]; simpl in *; [|exact Sz1].
  now apply IH.
Qed.

Lemma settle_serialized (m : M GameServer U unit) w :
  serialized (snd (m w)) -> serialized (settle m w).
Proof.
  intros Sz. destruct (settle_cases m w) as [E|[e E]]; rewrite E; exact Sz.
Qed.

Lemma frames_serialized (l : list Call) :
  Forall (fun text => exists data, text = JSON_stringify data) (frames l).
Proof.
  induction l as [|c l IH]; simpl; [constructor|].
  destruct (payload c) as [data|]; [|exact IH].
  constructor; [now exists data|exact IH].
Qed.

Lemma fire_serialized ev w :
  consistent w = true -> serialized w -> serialized (fire handlers ev w).
Proof.
  intros K Sz. destruct (enabled ev w) eqn:En.
  2: { unfold fire. now rewrite En. }
  pose proof (enabled_current ev w K En) as T.
  destruct (consistent_current w K) as [s [E [R W]]].
  unfold enabled in En. rewrite T, E in En.
  destruct ev as [h|h payload|h]; simpl in T; subst h.
  - destruct (readyState s) eqn:Rs; try discriminate.
    rewrite (open_event w s E Rs W). constructor.
  - destruct (readyState s) eqn:Rs; try discriminate.
    destruct (JSON_parse payload) as [data|] eqn:P.
    + rewrite (message_event_decoded payload data w s E Rs W P).
      apply settle_serialized. now apply observers_loop_serialized.
    + destruct (message_event_malformed (_ws (this w)) payload w P) as [S|S]; rewrite S;
        exact Sz.
  - destruct (close_event_result w K) as (_ & _ & _ & _ & Q & _).
    unfold serialized. rewrite Q. apply Forall_app. split; [exact Sz|].
    destruct (onclosehandler (this w)); [apply frames_serialized|constructor].
Qed.

(** At every moment of the life of a client, every element of its
    queue is a text that JSON.stringify made. *)
Lemma serialized_reachable (script : list Step) (o : Ref -> Json) (u : U) :
  serialized (run script (new_GameServer o u)).
Proof.
  assert (G : forall w, consistent w = true -> serialized w ->
                        consistent (run script w) = true /\ serialized (run script w)).
  { unfold run. induction script as [|st script IH]; intros w K Sz; simpl; [auto|].
    apply IH; [now apply consistent_step|].
    destruct st as [c|r|r v|ev]; simpl.
    - apply exec_serialized; [now apply consistent_alive|exact Sz].
    - apply (exec_serialized (CallSend (objects w r))); [now apply consistent_alive|exact Sz].
    - exact Sz.
    - now apply fire_serialized. }
  apply G; [reflexivity|constructor].
Qed.

Lemma same_session_refl w : same_session w w.
Proof. unfold same_session. auto. Qed.

Lemma same_session_sym a b : same_session a b -> same_session b a.
Proof. unfold same_session. intuition congruence. Qed.

Lemma same_session_trans a b w : same_session a b -> same_session b w -> same_session a w.
Proof. unfold same_session. intuition congruence. Qed.

Lemma same_session_objects a b : same_session a b -> b = with_objects (objects b) a.
Proof.
  destruct a, b. unfold same_session, with_objects. simpl.
  intros (-> & -> & -> & ->). reflexivity.
Qed.

(** A step that is neither a mutation nor a send of an object does the
    same in two worlds that differ only in the objects. *)
Lemma step_same_session (st : Step) a b :
  is_mutation st = false -> reads_object st = false ->
  same_session a b -> same_session (step st a) (step st b).
Proof.
  intros Nm Nr S. rewrite (same_session_objects a b S).
  destruct st as [c|r|r v|ev]; try discriminate; simpl.
  - rewrite (oblivious_exec c). simpl. unfold same_session. auto.
  - rewrite (fire_oblivious handlers ev _ a oblivious_on_open oblivious_on_message
               oblivious_on_close).
    unfold same_session. auto.
Qed.

(** Leaving the mutations out of a run that sends no object by
    reference changes nothing but the objects. *)
Lemma run_without_mutations (script : list Step) : forall a b,
  same_session a b -> reads_no_object script = true ->
  same_session (run script a) (run (without_mutations script) b).
Proof.
  unfold run. induction script as [|st script IH]; intros a b S R; simpl; [exact S|].
  simpl in R. apply andb_true_iff in R. destruct R as [R1 R2].
  apply negb_true_iff in R1.
  destruct (is_mutation st) eqn:Im; simpl.
  - apply IH; [|exact R2]. destruct st; try discriminate. simpl.
    unfold same_session in *. simpl. exact S.
  - apply IH; [|exact R2]. now apply step_same_session.
Qed.

End LibFacts.

(* ================================================================== *)
(** ** Who is entered, and what is asked of the client *)

Section CallFacts.
Context {U : Type} {C : Caller Call U} {D : Decoder}.
Implicit Types (w : World GameServer U) (s : WebSocket).

Lemma frames_app (a b : list Call) : frames (a ++ b) = frames a ++ frames b.
Proof.
  induction a as [|c a IH]; simpl; [reflexivity|].
  destruct (payload c); simpl; now rewrite IH.
Qed.

Lemma current_offline w : consistent w = true -> current w <> Some OPEN -> offline w.
Proof.
  intros K N. destruct (consistent_current w K) as [s [E _]].
  exists s. split; [exact E|]. intros R. apply N. apply current_socket. now exists s.
Qed.

Lemma offline_not_open w : offline w -> current w <> Some OPEN.
Proof.
  intros [s [E R]] O. apply current_socket in O. destruct O as [s' [E' R']].
  rewrite E in E'. inversion E'. congruence.
Qed.

(** The caller an observer leaves behind is the one it returns. *)
Lemma invoke_observer_caller f data w :
  consistent w = true ->
  caller (snd (invoke_observer exec f data w)) = fst (observer f data (caller w)).
Proof.
  intros K. unfold invoke_observer.
  destruct (observer f data (caller w)) as [u r]. simpl fst.
  set (w0 := emit (Delivered f data) (with_caller u w)).
  assert (K0 : consistent w0 = true) by (rewrite <- K; now apply consistent_frame).
  destruct (react_quiet r w0 (consistent_alive w0 K0)) as [_ Q].
  destruct Q as (_ & _ & _ & Cl & _). rewrite Cl. reflexivity.
Qed.

(** The loop of the message handler enters exactly the observers of
    [Ledger.reached], in that order. *)
Lemma observers_loop_reached data (l : list ObserverId) : forall w,
  consistent w = true ->
  deliveries (trace (snd (forEach l (fun f => invoke_observer exec f data) w)))
  = deliveries (trace w) ++ map (fun f => (f, data)) (Ledger.reached data l (caller w)).
Proof.
  induction l as [|f l IH]; intros w K.
  - simpl. now rewrite app_nil_r.
  - simpl forEach. unfold bind.
    destruct (invoke_observer_step f data w K) as (K1 & D1 & F1 & _).
    pose proof (invoke_observer_caller f data w K) as C1.
    simpl Ledger.reached.
    destruct (invoke_observer exec f data w) as [[[]|e] w1]; simpl in K1, D1, F1, C1 |- *.
    + destruct (raises (snd (observer f data (caller w)))); [discriminate|].
      rewrite (IH w1 K1), D1, C1, <- app_assoc. reflexivity.
    + destruct (raises (snd (observer f data (caller w)))); [|discriminate].
      rewrite D1. reflexivity.
Qed.

(** The entered observers are the head of the list, and the list goes
    on behind them only when the last one entered threw. *)
Lemma reached_prefix data (l : list ObserverId) : forall (u : U),
  exists rest,
    l = Ledger.reached data l u ++ rest /\
    (rest = [] \/
     exists before f u',
       Ledger.reached data l u = before ++ [f] /\ raises (snd (observer f data u')) = true).
Proof.
  induction l as [|f l IH]; intros u; simpl.
  - exists []. split; [reflexivity|now left].
  - destruct (raises (snd (observer f data u))) eqn:R.
    + exists l. split; [reflexivity|]. right. exists [], f, u. split; [reflexivity|exact R].
    + destruct (IH (fst (observer f data u))) as (rest & E & Last).
      exists rest. split; [simpl; now rewrite <- E|].
      destruct Last as [N|(before & g & u' & Eb & Rg)]; [now left|right].
      exists (f :: before), g, u'. split; [simpl; now rewrite Eb|exact Rg].
Qed.

Lemma reached_all data (l : list ObserverId) : forall (u : U),
  (forall f u', In f l -> raises (snd (observer f data u')) = false) ->
  Ledger.reached data l u = l.
Proof.
  induction l as [|f l IH]; intros u H; simpl; [reflexivity|].
  rewrite (H f u (or_introl eq_refl)). f_equal. apply IH.
  intros g u' I. apply H. now right.
Qed.

(** The loop ends with the first observer that throws. *)
Lemma reached_first_throw data (before : list ObserverId) f (after : list ObserverId) :
  forall (u : U),
  (forall g u', In g before -> raises (snd (observer g data u')) = false) ->
  (forall u', raises (snd (observer f data u')) = true) ->
  Ledger.reached data (before ++ f :: after) u = before ++ [f].
Proof.
  induction before as [|g before IH]; intros u Hb Hf; simpl.
  - now rewrite Hf.
  - rewrite (Hb g u (or_introl eq_refl)). f_equal. apply IH; [|exact Hf].
    intros g' u' I. apply Hb. now right.
Qed.

(** While the socket is not open and none opens, every step leaves the
    network alone and puts the texts of the calls made during it at the
    tail of the queue. *)
Lemma step_waiting (st : Step) w :
  consistent w = true -> offline w -> Ledger.waits [st] = true ->
  consistent (step st w) = true /\ offline (step st w) /\
  message_queue (this (step st w)) = message_queue (this w) ++ frames (Ledger.asked st w) /\
  transmitted (trace (step st w)) = transmitted (trace w).
Proof.
  intros K O Wt.
  split; [now apply consistent_step|].
  destruct st as [c|r|r v|ev]; simpl step; simpl Ledger.asked.
  - destruct (exec_quiet c w (offline_alive w O)) as [_ Q].
    split; [now apply (offline_quiet w)|]. now apply exec_offline.
  - destruct (send_quiet (objects w r) w (offline_alive w O)) as [_ Q].
    split; [now apply (offline_quiet w)|].
    apply (exec_offline (CallSend (objects w r)) w O).
  - split; [exact O|]. simpl. now rewrite app_nil_r.
  - destruct (enabled ev w) eqn:En.
    2: { unfold fire. rewrite En. split; [exact O|]. simpl. now rewrite app_nil_r. }
    pose proof (enabled_current ev w K En) as Tg.
    destruct O as [s [E R]].
    unfold enabled in En. rewrite Tg, E in En.
    destruct ev as [h|h payload|h]; simpl in Tg; subst h.
    + discriminate.
    + destruct (readyState s); try discriminate. congruence.
    + destruct (close_event_result w K) as (_ & O1 & _ & _ & Q & Tr & _).
      split; [exact O1|]. split; [|exact Tr].
      rewrite Q. unfold Ledger.answered.
      destruct (onclosehandler (this w)); [reflexivity|].
      simpl. reflexivity.
Qed.

Lemma run_waiting (script : list Step) : forall w,
  consistent w = true -> offline w -> Ledger.waits script = true ->
  consistent (run script w) = true /\ offline (run script w) /\
  message_queue (this (run script w))
  = message_queue (this w) ++ frames (Ledger.asked_all script w) /\
  transmitted (trace (run script w)) = transmitted (trace w).
Proof.
  unfold run. induction script as [|st script IH]; intros w K O Wt.
  - simpl. rewrite app_nil_r. auto.
  - simpl in Wt. apply andb_true_iff in Wt. destruct Wt as [W1 W2].
    assert (W1' : Ledger.waits [st] = true) by (simpl; now rewrite W1).
    destruct (step_waiting st w K O W1') as (K1 & O1 & Q1 & T1).
    destruct (IH (step st w) K1 O1 W2) as (K2 & O2 & Q2 & T2).
    simpl fold_left. simpl Ledger.asked_all.
    split; [exact K2|]. split; [exact O2|].
    split; [rewrite Q2, Q1, frames_app, app_assoc; reflexivity|].
    now rewrite T2, T1.
Qed.

(** A helper is send on its payload: it returns, and its text goes to
    the socket or to the tail of the queue. *)
Lemma send_delivers data w :
  consistent w = true -> Ledger.delivers (send data) (JSON_stringify data) w.
Proof. intros K. exact (send_cases data w K). Qed.

Lemma string_app_assoc (a b c : string) : ((a ++ b) ++ c)%string = (a ++ (b ++ c))%string.
Proof. induction a as [|x a IH]; simpl; [reflexivity|now rewrite IH]. Qed.

End CallFacts.

(* ================================================================== *)
(** ** The claims about the caller-driven client *)

Section LibClaims.
Context {U : Type} {C : Caller Call U} {D : Decoder}.
Implicit Types (w : World GameServer U) (s : WebSocket).

(** C3.  [send] never throws.  It serializes its argument; when the
    socket [this._ws] is OPEN the text goes on the network at once and
    the queue is untouched, and in every other state nothing is
    transmitted and the text is appended to the tail of the queue. *)
Theorem send_transmits_iff_open data w :
  consistent w = true ->
  fst (send data w) = Normal tt /\
  (current w = Some OPEN ->
   snd (send data w) = emit (Transmitted (_ws (this w)) (JSON_stringify data)) w) /\
  (current w <> Some OPEN ->
   snd (send data w)
   = with_this (set_message_queue (message_queue (this w) ++ [JSON_stringify data]) (this w)) w).
Proof. exact (send_cases data w). Qed.

(** C2.  Sends made while the socket is not open are queued in call
    order and put nothing on the network.  When the socket is
    connecting, its open event then transmits the whole queue, oldest
    first, on that socket, and leaves the queue empty.  The same holds
    across whatever happens before the next socket opens: further calls
    and close events, with their reconnects and reconnect callbacks,
    transmit nothing and drop nothing; every text of a call made in the
    meantime goes behind those already waiting, in the order of the
    calls, and the open event of the socket that is then connecting
    transmits all of them in that order and leaves the queue empty. *)
Theorem open_flushes_queue_in_order (ds : list Json) (script : list Step) w :
  consistent w = true ->
  let w1 := run (map (fun d => Do (CallSend d)) ds) w in
  let w2 := fire handlers (EvOpen (_ws (this w))) w1 in
  let w3 := run script w1 in
  let w4 := fire handlers (EvOpen (_ws (this w3))) w3 in
  (current w <> Some OPEN ->
   message_queue (this w1) = message_queue (this w) ++ map JSON_stringify ds /\
   trace w1 = trace w) /\
  (current w = Some CONNECTING ->
   trace w2
   = trace w ++ ConsoleLog "connected"
       :: map (Transmitted (_ws (this w))) (message_queue (this w) ++ map JSON_stringify ds) /\
   transmitted (trace w2)
   = transmitted (trace w) ++ message_queue (this w) ++ map JSON_stringify ds /\
   message_queue (this w2) = [] /\
   current w2 = Some OPEN) /\
  (current w <> Some OPEN -> Ledger.waits script = true ->
   message_queue (this w3)
   = message_queue (this w) ++ map JSON_stringify ds ++ frames (Ledger.asked_all script w1) /\
   transmitted (trace w3) = transmitted (trace w) /\
   current w3 <> Some OPEN /\
   (current w3 = Some CONNECTING ->
    trace w4
    = trace w3 ++ ConsoleLog "connected"
        :: map (Transmitted (_ws (this w3))) (message_queue (this w3)) /\
    transmitted (trace w4)
    = transmitted (trace w) ++ message_queue (this w) ++ map JSON_stringify ds
        ++ frames (Ledger.asked_all script w1) /\
    message_queue (this w4) = [] /\
    current w4 = Some OPEN)).
Proof.
  intros K w1 w2 w3 w4. destruct (consistent_current w K) as [s [E [_ W]]].
  assert (Q : readyState s <> OPEN ->
              w1 = with_this (set_message_queue
                     (message_queue (this w) ++ map JSON_stringify ds) (this w)) w)
    by (intros N; apply (sends_not_open ds w s E N)).
  split.
  { intros N. rewrite Q; [simpl; auto|].
    intros R. apply N. apply current_socket. now exists s. }
  split.
  { intros Cn. apply current_socket in Cn. destruct Cn as [s' [E' R]].
    rewrite E in E'. inversion E'; subst s'.
    assert (E1 : w1 = with_this (set_message_queue
                   (message_queue (this w) ++ map JSON_stringify ds) (this w)) w)
      by (apply Q; congruence).
    assert (T1 : _ws (this w1) = _ws (this w)) by (rewrite E1; reflexivity).
    assert (S1 : socket (_ws (this w1)) w1 = Some s) by (rewrite E1; exact E).
    assert (E2 : w2 = fire handlers (EvOpen (_ws (this w1))) w1) by (now rewrite T1).
    rewrite (open_event w1 s S1 R W) in E2.
    rewrite E2, E1. simpl. rewrite transmitted_app. simpl. rewrite transmitted_map_Transmitted.
    repeat split; trivial.
    apply current_socket. unfold socket in *. simpl.
    exists (set_readyState OPEN s). split; [|reflexivity].
    now apply nth_error_update_same. }
  intros N Wt.
  assert (R : readyState s <> OPEN).
  { intros R. apply N. apply current_socket. now exists s. }
  pose proof (Q R) as E1.
  assert (K1 : consistent w1 = true) by (rewrite E1, <- K; now apply consistent_frame).
  assert (O1 : offline w1) by (rewrite E1; exists s; split; [exact E|exact R]).
  destruct (run_waiting script w1 K1 O1 Wt) as (K3 & O3 & Q3 & T3). fold w3 in K3, O3, Q3, T3.
  assert (Q1 : message_queue (this w1) = message_queue (this w) ++ map JSON_stringify ds)
    by (rewrite E1; reflexivity).
  assert (T1 : transmitted (trace w1) = transmitted (trace w)) by (rewrite E1; reflexivity).
  split; [rewrite Q3, Q1, <- app_assoc; reflexivity|].
  split; [now rewrite T3|].
  split; [now apply offline_not_open|].
  intros Cn. unfold w4. rewrite (open_event_consistent w3 K3 Cn). simpl.
  split; [reflexivity|].
  split.
  { rewrite transmitted_app. simpl. rewrite transmitted_map_Transmitted, T3, T1, Q3, Q1.
    now rewrite <- !app_assoc. }
  split; [reflexivity|].
  apply current_socket in Cn. destruct Cn as [s3 [E3 R3]].
  apply current_socket. unfold socket in *. simpl.
  exists (set_readyState OPEN s3). split; [|reflexivity].
  now apply nth_error_update_same.
Qed.

(** C10.  A frame that JSON.parse rejects reaches no observer and leaves
    the client object, every socket, and the caller as they were: the
    only trace of it is the report of the uncaught SyntaxError. *)
Theorem malformed_frame_changes_nothing h payload w :
  JSON_parse payload = None ->
  let w' := fire handlers (EvMessage h payload) w in
  this w' = this w /\
  sockets w' = sockets w /\
  caller w' = caller w /\
  objects w' = objects w /\
  deliveries (trace w') = deliveries (trace w) /\
  (trace w' = trace w \/ trace w' = trace w ++ [Uncaught SyntaxError]).
Proof.
  intros P w'. unfold w'.
  destruct (message_event_malformed h payload w P) as [E|E]; rewrite E; simpl.
  - repeat split; trivial. now left.
  - rewrite deliveries_app. simpl. rewrite app_nil_r. repeat split; trivial. now right.
Qed.

(** C4.  The close event of the socket [this._ws] always constructs a
    socket that did not exist before and makes it [this._ws]; the
    reconnect callback is entered exactly once, after that, while the new
    socket is still connecting and with the queue as the disconnect left
    it.  When the event is over the new socket is connecting or closing,
    never open, and the client is ready for the next close event: [n]
    close events in a row construct [n] sockets and enter the callback
    [n] times. *)
Theorem close_event_reconnects_and_notifies_once w :
  consistent w = true ->
  let h := _ws (this w) in
  let h' := List.length (sockets w) in
  let w' := fire handlers (EvClose h) w in
  (exists w_mid,
     w' = settle (invoke_notifier exec (onclosehandler (this w))) w_mid /\
     _ws (this w_mid) = h' /\
     current w_mid = Some CONNECTING /\
     message_queue (this w_mid) = message_queue (this w) /\
     trace w_mid = trace w ++ [ConsoleLog "disconnected"; Constructed h' ws_address]) /\
  socket h' w = None /\
  h' <> h /\
  _ws (this w') = h' /\
  (current w' = Some CONNECTING \/ current w' = Some CLOSING) /\
  constructions (trace w') = S (constructions (trace w)) /\
  notifications (trace w') = S (notifications (trace w)) /\
  consistent w' = true /\
  (forall n,
     constructions (trace (disconnects n w)) = (n + constructions (trace w))%nat /\
     notifications (trace (disconnects n w)) = (n + notifications (trace w))%nat).
Proof.
  intros K h h' w'.
  destruct (close_event w K) as (w_mid & F & T & S & Km & _ & _ & Tr).
  destruct (close_event_result w K) as (K1 & O1 & A1 & _ & _ & _ & _ & N1 & C1).
  destruct (consistent_current w K) as [s [E _]].
  split.
  { exists w_mid. rewrite T. simpl. repeat split; trivial.
    apply current_socket. rewrite T. simpl. eexists. split; [exact S|reflexivity]. }
  split; [apply nth_error_None; unfold h'; lia|].
  split; [pose proof (socket_lt _ _ _ E); unfold h, h'; lia|].
  split; [exact A1|].
  split; [now apply offline_current|].
  repeat split; trivial; apply (disconnects_count n w K).
Qed.

(** C9.  The reconnect callback runs while the replacement socket is
    connecting, so whatever it sends is appended behind the texts that
    were queued before the disconnect, and nothing goes out during the
    close event.  If the replacement socket is still connecting when the
    event is over, its open event transmits first the old queue, in
    order, and then what the callback sent. *)
Theorem callback_sends_go_behind_the_queue w :
  consistent w = true ->
  let pending :=
    match onclosehandler (this w) with
    | Some n => frames (calls (snd (notifier n (caller w))))
    | None => []
    end in
  let w1 := fire handlers (EvClose (_ws (this w))) w in
  let w2 := fire handlers (EvOpen (_ws (this w1))) w1 in
  (exists w_mid,
     w1 = settle (invoke_notifier exec (onclosehandler (this w))) w_mid /\
     current w_mid = Some CONNECTING /\
     message_queue (this w_mid) = message_queue (this w)) /\
  message_queue (this w1) = message_queue (this w) ++ pending /\
  transmitted (trace w1) = transmitted (trace w) /\
  (current w1 = Some CONNECTING ->
   transmitted (trace w2) = transmitted (trace w) ++ message_queue (this w) ++ pending /\
   message_queue (this w2) = []).
Proof.
  intros K pending w1 w2.
  destruct (close_event w K) as (w_mid & F & T & S & Km & _ & _ & Tr).
  destruct (close_event_result w K) as (K1 & _ & _ & _ & Q1 & T1 & _).
  split.
  { exists w_mid. rewrite T. simpl. repeat split; trivial.
    apply current_socket. rewrite T. simpl. eexists. split; [exact S|reflexivity]. }
  split; [exact Q1|]. split; [exact T1|].
  intros Cn. unfold w2. rewrite (open_event_consistent w1 K1 Cn). simpl.
  rewrite transmitted_app. simpl. rewrite transmitted_map_Transmitted.
  fold w1 in T1, Q1. rewrite T1, Q1. auto.
Qed.

(** C1, as the code has it.  After close() the socket is closing, so a
    later send queues its text and transmits nothing.  The close event
    that follows makes the client construct a new socket, as after any
    other disconnect, and the text is still in the queue, behind what was
    queued before it.  If that socket is connecting when the event is
    over, its open event puts the text on the network. *)
Theorem send_after_close_goes_out_on_the_next_socket data w :
  consistent w = true ->
  let w1 := snd (close w) in
  let w2 := snd (send data w1) in
  let w3 := fire handlers (EvClose (_ws (this w))) w2 in
  let w4 := fire handlers (EvOpen (_ws (this w3))) w3 in
  current w1 = Some CLOSING /\
  message_queue (this w2) = message_queue (this w) ++ [JSON_stringify data] /\
  transmitted (trace w2) = transmitted (trace w) /\
  _ws (this w3) = List.length (sockets w) /\
  exists later,
    message_queue (this w3) = message_queue (this w) ++ JSON_stringify data :: later /\
    transmitted (trace w3) = transmitted (trace w) /\
    (current w3 = Some CONNECTING ->
     transmitted (trace w4)
     = transmitted (trace w) ++ message_queue (this w) ++ JSON_stringify data :: later /\
     message_queue (this w4) = []).
Proof.
  intros K w1 w2 w3 w4.
  destruct (close_result w K) as (_ & K1 & C1 & T1 & L1 & _ & Tr1). fold w1 in K1, C1, T1, L1, Tr1.
  split; [exact C1|].
  apply current_socket in C1. destruct C1 as [s1 [E1 R1]].
  assert (N1 : readyState s1 <> OPEN) by congruence.
  assert (E2 : w2 = with_this (set_message_queue
                 (message_queue (this w1) ++ [JSON_stringify data]) (this w1)) w1).
  { unfold w2. now rewrite (send_not_open data w1 s1 E1 N1). }
  assert (K2 : consistent w2 = true).
  { rewrite <- K1. rewrite E2. now apply consistent_frame. }
  assert (A2 : _ws (this w2) = _ws (this w)) by (rewrite E2; simpl; now rewrite T1).
  assert (Q2 : message_queue (this w2) = message_queue (this w) ++ [JSON_stringify data])
    by (rewrite E2; simpl; now rewrite T1).
  assert (Tr2 : transmitted (trace w2) = transmitted (trace w)) by (rewrite E2; exact Tr1).
  assert (L2 : List.length (sockets w2) = List.length (sockets w)) by (rewrite E2; exact L1).
  split; [exact Q2|]. split; [exact Tr2|].
  assert (F3 : w3 = fire handlers (EvClose (_ws (this w2))) w2) by (now rewrite A2).
  destruct (close_event_result w2 K2) as (K3 & _ & A3 & _ & Q3 & Tr3 & _).
  rewrite <- F3 in K3, A3, Q3, Tr3.
  split; [now rewrite A3, L2|].
  rewrite Q2, <- app_assoc in Q3. simpl in Q3.
  eexists. split; [exact Q3|]. split; [now rewrite Tr3|].
  intros Cn. unfold w4. rewrite (open_event_consistent w3 K3 Cn). simpl.
  rewrite transmitted_app. simpl. rewrite transmitted_map_Transmitted.
  rewrite Tr3, Tr2, Q3. auto.
Qed.

(** C5, as the code has it.  A decoded frame is handed to the observers
    in registration order, once each, with the same decoded value, until
    one of them throws: the observers registered after that one are not
    entered for this frame.  The observers entered are exactly those of
    [Ledger.reached]: each is entered in the state of the caller that
    the one before it left, and the first that throws there is the last.
    When no observer throws on the frame, all of them are entered.
    addMsgHandler appends to the list without looking for duplicates,
    and no step of a run removes an entry. *)
Theorem frame_reaches_observers_in_order payload data w :
  consistent w = true -> current w = Some OPEN -> JSON_parse payload = Some data ->
  let w' := fire handlers (EvMessage (_ws (this w)) payload) w in
  let entered := Ledger.reached data (onmessage_handler (this w)) (caller w) in
  deliveries (trace w') = deliveries (trace w) ++ map (fun f => (f, data)) entered /\
  (exists rest,
     onmessage_handler (this w) = entered ++ rest /\
     (rest = [] \/
      exists before f u,
        entered = before ++ [f] /\ raises (snd (observer f data u)) = true)) /\
  (forall before f after,
     onmessage_handler (this w) = before ++ f :: after ->
     (forall g u, In g before -> raises (snd (observer g data u)) = false) ->
     (forall u, raises (snd (observer f data u)) = true) ->
     entered = before ++ [f] /\
     deliveries (trace w') = deliveries (trace w) ++ map (fun g => (g, data)) (before ++ [f])) /\
  ((forall f u, In f (onmessage_handler (this w)) -> raises (snd (observer f data u)) = false) ->
   reaches_every_observer w payload) /\
  (forall f,
     onmessage_handler (this (snd (addMsgHandler f w))) = onmessage_handler (this w) ++ [f]) /\
  (forall st,
     exists more, onmessage_handler (this (step st w)) = onmessage_handler (this w) ++ more).
Proof.
  intros K Cn P w' entered.
  destruct (consistent_current w K) as [s [E [_ W]]].
  apply current_socket in Cn. destruct Cn as [s' [E' R]].
  rewrite E in E'. inversion E'; subst s'.
  pose proof (message_event_decoded payload data w s E R W P) as F.
  assert (Dw : deliveries (trace w')
               = deliveries (trace (snd (forEach (onmessage_handler (this w))
                                      (fun f => invoke_observer exec f data) w)))).
  { unfold w'. rewrite F.
    destruct (settle_cases (forEach (onmessage_handler (this w))
                (fun f => invoke_observer exec f data)) w) as [S|[e S]]; rewrite S;
      [reflexivity|]. simpl. rewrite deliveries_app. simpl. now rewrite app_nil_r. }
  assert (Dl : deliveries (trace w')
               = deliveries (trace w) ++ map (fun f => (f, data)) entered).
  { rewrite Dw. now apply observers_loop_reached. }
  split; [exact Dl|].
  split; [apply reached_prefix|].
  split.
  { intros before f after El Hb Hf.
    assert (En : entered = before ++ [f]).
    { unfold entered. rewrite El. now apply reached_first_throw. }
    split; [exact En|]. now rewrite Dl, En. }
  split.
  { intros Rs data' P'. rewrite P in P'. inversion P'; subst data'.
    fold w'. rewrite Dl. unfold entered. now rewrite (reached_all data _ _ Rs). }
  split; [reflexivity|].
  intros st. now apply handlers_grow_step.
Qed.

(** C7.  send serializes its argument when it is called: what goes on
    the network or into the queue is the text of the object as it was at
    that moment, and at every moment of the life of a client its queue
    holds nothing but such texts.  Two runs that go on from the send and
    differ only in what the caller then does to its objects end with the
    same client state (so the same queue) and the same log (so the same
    frames on the network). *)
Theorem text_is_fixed_when_send_is_called (r : Ref) (script1 script2 : list Step) w :
  consistent w = true ->
  reads_no_object script1 = true -> reads_no_object script2 = true ->
  without_mutations script1 = without_mutations script2 ->
  let text := JSON_stringify (objects w r) in
  let w1 := step (SendObject r) w in
  (current w = Some OPEN ->
   trace w1 = trace w ++ [Transmitted (_ws (this w)) text] /\
   message_queue (this w1) = message_queue (this w)) /\
  (current w <> Some OPEN ->
   message_queue (this w1) = message_queue (this w) ++ [text] /\ trace w1 = trace w) /\
  (forall script o u, serialized (run script (new_GameServer o u))) /\
  same_session (run script1 w1) (run script2 w1).
Proof.
  intros K R1 R2 Eq text w1.
  destruct (send_cases (objects w r) w K) as (_ & Ho & Hn).
  split; [intros O; unfold w1; simpl; rewrite (Ho O); auto|].
  split; [intros N; unfold w1; simpl; rewrite (Hn N); auto|].
  split; [intros script o u; apply serialized_reachable|].
  apply (same_session_trans _ (run (without_mutations script1) w1)).
  - apply run_without_mutations; [apply same_session_refl|exact R1].
  - rewrite Eq. apply same_session_sym.
    apply run_without_mutations; [apply same_session_refl|exact R2].
Qed.

(** C8.  Each typed helper is send applied to the tagged payload of its
    variant: one top-level key that names the variant, holding the record
    of the fields.  The six variants of the wire protocol are exactly
    what the helpers send.  A call of a helper returns and puts the text
    of its variant on the network when the socket is open, and at the
    tail of the queue when it is not; the text is the tag and the quoted
    fields, in the order of the source. *)
Theorem helpers_send_the_tagged_variants w :
  (forall name, createRoom name w = send (Wire.tagged (Wire.CreateRoom name)) w) /\
  (forall room_id name, joinRoom room_id name w = send (Wire.tagged (Wire.JoinRoom name room_id)) w) /\
  ready w = send (Wire.tagged Wire.Ready) w /\
  (forall card description,
     activePlayerChoose card description w
     = send (Wire.tagged (Wire.ActivePlayerChooseCard card description)) w) /\
  (forall card, playersChoose card w = send (Wire.tagged (Wire.PlayerChooseCard card)) w) /\
  (forall card, vote card w = send (Wire.tagged (Wire.Vote card)) w) /\
  (forall i, exec (Wire.helper i) w = send (Wire.tagged i) w) /\
  (forall c, Wire.is_helper c = true -> exists i, c = Wire.helper i) /\
  (forall i, exists tag fields, Wire.tagged i = JObj [(tag, JObj fields)]) /\
  JSON_stringify (Wire.tagged (Wire.JoinRoom "Ann" "AB12"))
  = wire "{'JoinRoom':{'name':'Ann','room_id':'AB12'}}" /\
  (consistent w = true ->
   (forall name,
      Ledger.delivers (createRoom name)
        (wire "{'CreateRoom':{'name':" ++ quote name ++ "}}")%string w) /\
   (forall room_id name,
      Ledger.delivers (joinRoom room_id name)
        (wire "{'JoinRoom':{'name':" ++ quote name
           ++ wire ",'room_id':" ++ quote room_id ++ "}}")%string w) /\
   Ledger.delivers ready (wire "{'Ready':{}}") w /\
   (forall card description,
      Ledger.delivers (activePlayerChoose card description)
        (wire "{'ActivePlayerChooseCard':{'card':" ++ quote card
           ++ wire ",'description':" ++ quote description ++ "}}")%string w) /\
   (forall card,
      Ledger.delivers (playersChoose card)
        (wire "{'PlayerChooseCard':{'card':" ++ quote card ++ "}}")%string w) /\
   (forall card,
      Ledger.delivers (vote card) (wire "{'Vote':{'card':" ++ quote card ++ "}}")%string w) /\
   (forall i, Ledger.delivers (exec (Wire.helper i)) (JSON_stringify (Wire.tagged i)) w)).
Proof.
  assert (One : forall tag key value,
            JSON_stringify (Wire.variant tag [(key, value)])
            = ("{" ++ quote tag ++ ":{" ++ quote key ++ ":" ++ quote value ++ "}}")%string).
  { intros tag key value. unfold Wire.variant, quote. simpl.
    repeat (rewrite !string_app_assoc; simpl). reflexivity. }
  assert (Two : forall tag key value key' value',
            JSON_stringify (Wire.variant tag [(key, value); (key', value')])
            = ("{" ++ quote tag ++ ":{" ++ quote key ++ ":" ++ quote value ++ ","
                 ++ quote key' ++ ":" ++ quote value' ++ "}}")%string).
  { intros tag key value key' value'. unfold Wire.variant, quote. simpl.
    repeat (rewrite !string_app_assoc; simpl). reflexivity. }
  repeat match goal with |- _ /\ _ => split end; trivial.
  - intros i. destruct i; reflexivity.
  - intros c Hc. destruct c; try discriminate.
    + now exists (Wire.CreateRoom name).
    + now exists (Wire.JoinRoom name room_id).
    + now exists Wire.Ready.
    + now exists (Wire.ActivePlayerChooseCard card description).
    + now exists (Wire.PlayerChooseCard card).
    + now exists (Wire.Vote card).
  - intros i. destruct i; simpl; unfold Wire.variant; simpl; eauto.
  - intros K.
    repeat match goal with |- _ /\ _ => split end.
    + intros name.
      pose proof (send_delivers (Wire.tagged (Wire.CreateRoom name)) w K) as H.
      simpl Wire.tagged in H. rewrite One in H. exact H.
    + intros room_id name.
      pose proof (send_delivers (Wire.tagged (Wire.JoinRoom name room_id)) w K) as H.
      simpl Wire.tagged in H. rewrite Two in H. exact H.
    + exact (send_delivers (Wire.tagged Wire.Ready) w K).
    + intros card description.
      pose proof (send_delivers (Wire.tagged (Wire.ActivePlayerChooseCard card description)) w K)
        as H.
      simpl Wire.tagged in H. rewrite Two in H. exact H.
    + intros card.
      pose proof (send_delivers (Wire.tagged (Wire.PlayerChooseCard card)) w K) as H.
      simpl Wire.tagged in H. rewrite One in H. exact H.
    + intros card.
      pose proof (send_delivers (Wire.tagged (Wire.Vote card)) w K) as H.
      simpl Wire.tagged in H. rewrite One in H. exact H.
    + intros i. destruct i; exact (send_delivers _ w K).
Qed.

End LibClaims.

(* ================================================================== *)
(** ** The internal-requeue client, and the two compared *)

Section LegacyFacts.
Context {U : Type} {C : Caller Legacy.Call U} {D : Decoder}.
Implicit Types (w : World Legacy.GameServer U).

(** The close event of the older class, in full: no callback, but the
    rejoin message at the head of the queue once a room is known. *)
Lemma legacy_close_event w :
  Legacy.consistent w = true ->
  fire Legacy.handlers (EvClose (Legacy._ws (this w))) w
  = mkWorld
      (Legacy.set_message_queue
         (if Legacy.is_not_empty_string (Legacy.joined_room (this w))
          then Legacy.rejoin_message (this w) :: Legacy.message_queue (this w)
          else Legacy.message_queue (this w))
         (Legacy.set__ws (List.length (sockets w)) (this w)))
      (update (List.length (sockets w)) set_wired
         (update (Legacy._ws (this w)) (set_readyState CLOSED) (sockets w)
            ++ [mkWebSocket Legacy.ws_address CONNECTING false]))
      (objects w) (caller w)
      (trace w ++ [ConsoleLog "disconnected";
                   Constructed (List.length (sockets w)) Legacy.ws_address]).
Proof.
  intros K. unfold Legacy.consistent in K. rewrite live_spec in K.
  destruct K as [[s [E [R W]]] _].
  set (h := Legacy._ws (this w)) in *. set (h' := List.length (sockets w)).
  set (l1 := update h (set_readyState CLOSED) (sockets w)).
  set (fresh := mkWebSocket Legacy.ws_address CONNECTING false).
  assert (L1 : List.length l1 = h') by apply length_update.
  assert (F : nth_error (l1 ++ [fresh]) h' = Some fresh)
    by (rewrite <- L1; apply nth_error_snoc).
  unfold fire, enabled, is_wired. simpl target. fold h. rewrite E, W.
  assert (En : match readyState s with
               | CONNECTING | OPEN | CLOSING => true
               | CLOSED => false
               end = true) by (destruct (readyState s); congruence).
  rewrite En. simpl handle_close. unfold Legacy.on_close.
  set (w1 := move h CLOSED w).
  unfold settle.
  rewrite (bind_normal (console_log "disconnected") _ w1 tt
             (emit (ConsoleLog "disconnected") w1) eq_refl).
  set (w2 := emit (ConsoleLog "disconnected") w1).
  set (w3 := emit (Constructed h' Legacy.ws_address) (with_sockets (l1 ++ [fresh]) w2)).
  assert (N : new_WebSocket Legacy.ws_address w2 = (Normal h', w3)).
  { unfold new_WebSocket, w3. simpl sockets. fold l1. rewrite L1. reflexivity. }
  rewrite (bind_normal _ _ _ _ _ N).
  set (w4 := with_this (Legacy.set__ws h' (this w3)) w3).
  rewrite (bind_normal (modify_this (Legacy.set__ws h')) _ w3 tt w4 eq_refl).
  rewrite (bind_normal get_this _ w4 (this w4) w4 eq_refl).
  change (Legacy.joined_room (this w4)) with (Legacy.joined_room (this w)).
  destruct (Legacy.is_not_empty_string (Legacy.joined_room (this w))).
  - set (w5 := with_this (Legacy.set_message_queue
                  (Legacy.rejoin_message (this w4) :: Legacy.message_queue (this w4))
                  (this w4)) w4).
    rewrite (bind_normal
               (modify_this (fun g => Legacy.set_message_queue
                  (Legacy.rejoin_message g :: Legacy.message_queue g) g))
               _ w4 tt w5 eq_refl).
    unfold Legacy.setupSocket.
    rewrite (bind_normal get_this _ w5 (this w5) w5 eq_refl).
    unfold ws_assign_handlers, socket. simpl. rewrite F. simpl.
    unfold w5, w4, w3, w2, w1, with_sockets, with_this, emit, move. simpl.
    now rewrite <- app_assoc.
  - rewrite (bind_normal (ret tt) _ w4 tt w4 eq_refl).
    unfold Legacy.setupSocket.
    rewrite (bind_normal get_this _ w4 (this w4) w4 eq_refl).
    unfold ws_assign_handlers, socket. simpl. rewrite F. simpl.
    unfold w4, w3, w2, w1, with_sockets, with_this, emit, move. simpl.
    now rewrite <- app_assoc.
Qed.

End LegacyFacts.


(* ================================================================== *)
(** ** The claims at work on the page of the game *)

Lemma send_transmits_iff_open_witness :
  consistent Demo.mounted = true /\
  message_queue (this (snd (send (Wire.tagged Wire.Ready) Demo.mounted)))
  = [wire "{'JoinRoom':{'name':'Ann','room_id':'AB12'}}"; wire "{'Ready':{}}"].
Proof.
  split; [reflexivity|].
  destruct (send_transmits_iff_open (Wire.tagged Wire.Ready) Demo.mounted eq_refl)
    as (_ & _ & Hn).
  rewrite Hn; [reflexivity|discriminate].
Defined.

Lemma open_flushes_queue_in_order_witness :
  consistent Demo.mounted = true /\
  current Demo.mounted = Some CONNECTING /\
  transmitted (trace
    (run (C := Demo.caller) (D := Text.decoder)
       [Do (CallSend (Wire.tagged (Wire.Vote "card7")));
        Happen (EvClose 0); Happen (EvOpen 1)] Demo.mounted))
  = [wire "{'JoinRoom':{'name':'Ann','room_id':'AB12'}}";
     wire "{'Vote':{'card':'card7'}}";
     wire "{'JoinRoom':{'name':'Ann','room_id':'AB12'}}"] /\
  message_queue (this
    (run (C := Demo.caller) (D := Text.decoder)
       [Do (CallSend (Wire.tagged (Wire.Vote "card7")));
        Happen (EvClose 0); Happen (EvOpen 1)] Demo.mounted))
  = [].
Proof.
  split; [reflexivity|]. split; [reflexivity|].
  destruct (open_flushes_queue_in_order (C := Demo.caller) (D := Text.decoder)
              [Wire.tagged (Wire.Vote "card7")] [Happen (EvClose 0)] Demo.mounted eq_refl)
    as (_ & _ & F).
  assert (N : current Demo.mounted <> Some OPEN) by discriminate.
  destruct (F N eq_refl) as (_ & _ & _ & G).
  destruct (G eq_refl) as (_ & T & Q & _).
  split; [exact T|exact Q].
Defined.

Lemma malformed_frame_changes_nothing_witness :
  JSON_parse (Decoder := Text.decoder) "not json" = None /\
  this (fire (handlers (C := Demo.caller) (D := Text.decoder)) (EvMessage 0 "not json")
          Demo.opened)
  = this Demo.opened.
Proof.
  split; [reflexivity|].
  apply (malformed_frame_changes_nothing (C := Demo.caller) (D := Text.decoder)
           0 "not json" Demo.opened eq_refl).
Defined.

Lemma close_event_reconnects_and_notifies_once_witness :
  consistent Demo.opened = true /\
  notifications (trace
    (fire (handlers (C := Demo.caller) (D := Text.decoder)) (EvClose 0) Demo.opened))
  = 1%nat.
Proof.
  split; [reflexivity|].
  destruct (close_event_reconnects_and_notifies_once (C := Demo.caller) (D := Text.decoder)
              Demo.opened eq_refl) as (_ & _ & _ & _ & _ & _ & N & _).
  exact N.
Defined.

Lemma callback_sends_go_behind_the_queue_witness :
  consistent Demo.waiting = true /\
  message_queue (this
    (fire (handlers (C := Demo.caller) (D := Text.decoder)) (EvClose 0) Demo.waiting))
  = [wire "{'JoinRoom':{'name':'Ann','room_id':'AB12'}}";
     wire "{'Vote':{'card':'card7'}}";
     wire "{'JoinRoom':{'name':'Ann','room_id':'AB12'}}"].
Proof.
  split; [reflexivity|].
  destruct (callback_sends_go_behind_the_queue (C := Demo.caller) (D := Text.decoder)
              Demo.waiting eq_refl) as (_ & Q & _).
  exact Q.
Defined.

Lemma send_after_close_goes_out_on_the_next_socket_witness :
  consistent Demo.opened = true /\
  current (snd (close Demo.opened)) = Some CLOSING.
Proof.
  split; [reflexivity|].
  apply (send_after_close_goes_out_on_the_next_socket (C := Demo.caller) (D := Text.decoder)
           (Wire.tagged Wire.Ready) Demo.opened eq_refl).
Defined.

Lemma frame_reaches_observers_in_order_witness :
  consistent Demo.watched = true /\
  current Demo.watched = Some OPEN /\
  JSON_parse (Decoder := Text.decoder) Demo.room_state_frame
  = Some (JObj [("RoomState", JObj [("players", JObj []); ("stage", JStr "Joining")])]) /\
  reaches_every_observer (C := Demo.caller) (D := Text.decoder)
    Demo.watched Demo.room_state_frame.
Proof.
  split; [reflexivity|]. split; [reflexivity|]. split; [reflexivity|].
  destruct (frame_reaches_observers_in_order (C := Demo.caller) (D := Text.decoder)
              Demo.room_state_frame _ Demo.watched eq_refl eq_refl eq_refl)
    as (_ & _ & _ & R & _).
  apply R. intros f u [<-|[<-|[]]]; reflexivity.
Defined.

Lemma text_is_fixed_when_send_is_called_witness :
  consistent Demo.holding = true /\
  trace (run (C := Demo.caller) (D := Text.decoder)
           [Mutate 0 (Wire.tagged (Wire.JoinRoom "Eve" "ZZ99")); Happen (EvOpen 0)]
           (step (C := Demo.caller) (D := Text.decoder) (SendObject 0) Demo.holding))
  = trace (run (C := Demo.caller) (D := Text.decoder)
           [Happen (EvOpen 0)]
           (step (C := Demo.caller) (D := Text.decoder) (SendObject 0) Demo.holding)).
Proof.
  split; [reflexivity|].
  apply (text_is_fixed_when_send_is_called (C := Demo.caller) (D := Text.decoder) 0
           [Mutate 0 (Wire.tagged (Wire.JoinRoom "Eve" "ZZ99")); Happen (EvOpen 0)]
           [Happen (EvOpen 0)] Demo.holding eq_refl eq_refl eq_refl eq_refl).
Defined.

Lemma helpers_send_the_tagged_variants_witness :
  Wire.is_helper (CallVote "card7") = true /\
  (exists i, CallVote "card7" = Wire.helper i) /\
  consistent Demo.opened = true /\
  trace (snd (vote "card7" Demo.opened))
  = trace Demo.opened ++ [Transmitted 0 (wire "{'Vote':{'card':'card7'}}")] /\
  message_queue (this (snd (vote "card7" Demo.waiting)))
  = message_queue (this Demo.waiting) ++ [wire "{'Vote':{'card':'card7'}}"].
Proof.
  split; [reflexivity|].
  destruct (helpers_send_the_tagged_variants Demo.mounted)
    as (_ & _ & _ & _ & _ & _ & _ & H & _).
  split; [apply H; reflexivity|].
  split; [reflexivity|].
  destruct (helpers_send_the_tagged_variants Demo.opened)
    as (_ & _ & _ & _ & _ & _ & _ & _ & _ & _ & Ho).
  destruct (Ho eq_refl) as (_ & _ & _ & _ & _ & Vo & _).
  destruct (Vo "card7") as (_ & Vopen & _).
  destruct (helpers_send_the_tagged_variants Demo.waiting)
    as (_ & _ & _ & _ & _ & _ & _ & _ & _ & _ & Hw).
  destruct (Hw eq_refl) as (_ & _ & _ & _ & _ & Vw & _).
  destruct (Vw "card7") as (_ & _ & Vwait).
  assert (N : current Demo.waiting <> Some OPEN) by discriminate.
  split; [rewrite (Vopen eq_refl); reflexivity|rewrite (Vwait N); reflexivity].
Defined.


(** C1 as the specification words it fails: the page has an open
    socket, calls close() and then ready(); the browser reports the
    close, the client reconnects, and the Ready message goes out on the
    new socket. *)
Lemma close_does_not_silence_the_client :
  ~ silent_after_close (C := Demo.caller) (D := Text.decoder) Demo.opened.
Proof.
  intros H. specialize (H (Wire.tagged Wire.Ready) [EvClose 0; EvOpen 1]).
  vm_compute in H. discriminate.
Qed.

(** C5 as the specification words it fails: of three observers the
    second throws on the frame, and the third is never entered. *)
Lemma a_throwing_observer_starves_the_later_ones :
  ~ reaches_every_observer (C := Demo.caller) (D := Text.decoder)
      Demo.crowded Demo.room_state_frame.
Proof.
  intros H.
  pose proof (H (JObj [("RoomState", JObj [("players", JObj []); ("stage", JStr "Joining")])])
                eq_refl) as K.
  vm_compute in K. discriminate.
Qed.

(* ================================================================== *)
(** ** More about the caller-driven client: its books *)

Section LedgerFacts.
Context {U : Type} {C : Caller Call U} {D : Decoder}.
Implicit Types (w : World GameServer U) (s : WebSocket).

Lemma plain_quiet_log (ext : list Effect) :
  forallb Ledger.plain ext = true ->
  Ledger.entered ext = [] /\ deliveries ext = [] /\
  notifications ext = 0%nat /\ constructions ext = 0%nat.
Proof.
  induction ext as [|e ext IH]; simpl; [auto|].
  intros H. apply andb_true_iff in H. destruct H as [He Hx].
  destruct e; simpl in *; try discriminate; now apply IH.
Qed.

Lemma entered_app (a b : list Effect) :
  Ledger.entered (a ++ b) = Ledger.entered a ++ Ledger.entered b.
Proof.
  induction a as [|e a IH]; simpl; [reflexivity|].
  destruct e; simpl; rewrite IH; reflexivity.
Qed.

(** A public method logs nothing but frames and closing handshakes,
    whatever the state of the client. *)
Lemma exec_plain c w :
  exists ext, trace (snd (exec c w)) = trace w ++ ext /\ forallb Ledger.plain ext = true.
Proof.
  assert (Hs : forall data,
             exists ext, trace (snd (send data w)) = trace w ++ ext /\
                         forallb Ledger.plain ext = true).
  { intros data. unfold send, bind, get_this, ws_readyState, ws_send, modify_this.
    destruct (socket (_ws (this w)) w) as [s|] eqn:E; simpl.
    - destruct (readyState s) eqn:R; simpl; rewrite ?E, ?R; simpl;
        try (exists []; rewrite app_nil_r; now split).
      eexists. split; [reflexivity|reflexivity].
    - exists []. rewrite app_nil_r. now split. }
  destruct c; simpl; try apply Hs; try (exists []; rewrite app_nil_r; now split).
  unfold close, bind, get_this, ws_close.
  destruct (socket (_ws (this w)) w) as [s|]; simpl;
    [destruct (readyState s); simpl|];
    try (exists []; rewrite app_nil_r; now split);
    (eexists; split; [reflexivity|reflexivity]).
Qed.

Lemma calls_plain (l : list Call) : forall w,
  exists ext, trace (snd (forEach l exec w)) = trace w ++ ext /\
              forallb Ledger.plain ext = true.
Proof.
  induction l as [|c l IH]; intros w; simpl.
  - exists []. rewrite app_nil_r. now split.
  - unfold bind. destruct (exec_plain c w) as (e1 & T1 & P1).
    destruct (exec c w) as [[[]|e] w1]; simpl in *.
    + destruct (IH w1) as (e2 & T2 & P2). exists (e1 ++ e2).
      rewrite T2, T1, app_assoc, forallb_app, P1, P2. now split.
    + now exists e1.
Qed.

Lemma react_plain (r : Reaction Call) w :
  exists ext, trace (snd (react exec r w)) = trace w ++ ext /\
              forallb Ledger.plain ext = true.
Proof.
  unfold react, bind. destruct (calls_plain (calls r) w) as (e1 & T1 & P1).
  destruct (forEach (calls r) exec w) as [[[]|e] w1]; simpl in *.
  - destruct (raises r); now exists e1.
  - now exists e1.
Qed.

(** The close event, with the state in which the callback is entered
    written out. *)
Lemma close_event_explicit w :
  consistent w = true ->
  fire handlers (EvClose (_ws (this w))) w
  = settle (invoke_notifier exec (onclosehandler (this w))) (Ledger.reconnecting w).
Proof.
  intros K. destruct (consistent_current w K) as [s [E [R W]]].
  set (h := _ws (this w)) in *. set (h' := List.length (sockets w)).
  set (l1 := update h (set_readyState CLOSED) (sockets w)).
  set (fresh := mkWebSocket ws_address CONNECTING false).
  assert (L1 : List.length l1 = h') by apply length_update.
  assert (F : nth_error (l1 ++ [fresh]) h' = Some fresh)
    by (rewrite <- L1; apply nth_error_snoc).
  unfold fire, enabled, is_wired. simpl target. fold h. rewrite E, W.
  assert (En : match readyState s with
               | CONNECTING | OPEN | CLOSING => true
               | CLOSED => false
               end = true) by (destruct (readyState s); congruence).
  rewrite En. simpl handle_close. unfold on_close.
  set (w1 := move h CLOSED w).
  unfold settle at 1.
  rewrite (bind_normal (console_log "disconnected") _ w1 tt
             (emit (ConsoleLog "disconnected") w1) eq_refl).
  set (w2 := emit (ConsoleLog "disconnected") w1).
  set (w3 := emit (Constructed h' ws_address) (with_sockets (l1 ++ [fresh]) w2)).
  assert (N : new_WebSocket ws_address w2 = (Normal h', w3)).
  { unfold new_WebSocket, w3. simpl sockets. fold l1. rewrite L1. reflexivity. }
  rewrite (bind_normal _ _ _ _ _ N).
  set (w4 := with_this (set__ws h' (this w3)) w3).
  rewrite (bind_normal (modify_this (set__ws h')) _ w3 tt w4 eq_refl).
  set (w5 := with_sockets (update h' set_wired (sockets w4)) w4).
  assert (S5 : setupSocket w4 = (Normal tt, w5)).
  { unfold setupSocket. rewrite (bind_normal get_this _ w4 (this w4) w4 eq_refl).
    unfold ws_assign_handlers, socket. simpl. rewrite F. reflexivity. }
  rewrite (bind_normal _ _ _ _ _ S5).
  rewrite (bind_normal get_this _ w5 (this w5) w5 eq_refl).
  assert (W5 : w5 = Ledger.reconnecting w).
  { unfold w5, w4, w3, w2, w1, emit, with_sockets, with_this, move, Ledger.reconnecting.
    simpl. fold h h' l1 fresh. now rewrite <- app_assoc. }
  rewrite W5. reflexivity.
Qed.

Lemma reconnecting_consistent w :
  consistent w = true -> consistent (Ledger.reconnecting w) = true.
Proof.
  intros K. pose proof K as K'. unfold consistent in K'. rewrite live_spec in K'.
  destruct K' as [[s [E [R W]]] O].
  set (h := _ws (this w)) in *. set (h' := List.length (sockets w)).
  set (l1 := update h (set_readyState CLOSED) (sockets w)).
  set (fresh := mkWebSocket ws_address CONNECTING false).
  assert (L1 : List.length l1 = h') by apply length_update.
  assert (F : nth_error (l1 ++ [fresh]) h' = Some fresh)
    by (rewrite <- L1; apply nth_error_snoc).
  assert (F' : nth_error (update h' set_wired (l1 ++ [fresh])) h'
               = Some (mkWebSocket ws_address CONNECTING true))
    by (rewrite (nth_error_update_same _ _ _ _ F); reflexivity).
  unfold consistent. rewrite live_spec. unfold Ledger.reconnecting, socket. simpl.
  fold h h' l1 fresh. split.
  - exists (mkWebSocket ws_address CONNECTING true). repeat split; [exact F'|discriminate].
  - intros k s' E' N. rewrite nth_error_update_other in E' by congruence.
    rewrite nth_error_snoc_other in E' by congruence.
    destruct (Nat.eq_dec h k) as [e|n].
    + subst k. unfold l1 in E'. unfold socket in E.
      rewrite (nth_error_update_same _ _ _ _ E) in E'. inversion E'. reflexivity.
    + unfold l1 in E'. rewrite nth_error_update_other in E' by exact n.
      apply (O k s' E'). congruence.
Qed.

Lemma invoke_notifier_trace (cb : option NotifierId) w :
  exists ext,
    trace (snd (invoke_notifier exec cb w)) = trace w ++ Notified cb :: ext /\
    forallb Ledger.plain ext = true.
Proof.
  destruct cb as [n|]; simpl.
  - destruct (notifier n (caller w)) as [u r].
    destruct (react_plain r (emit (Notified (Some n)) (with_caller u w))) as (ext & T & P).
    exists ext. rewrite T. simpl. rewrite <- app_assoc. now split.
  - exists []. now split.
Qed.

(** The log of a close event: the two lines of the handler, the entry
    into the callback that is registered at that moment, and then only
    what that callback makes the public methods do. *)
Lemma close_event_log w :
  consistent w = true ->
  exists ext,
    trace (fire handlers (EvClose (_ws (this w))) w)
    = trace w ++ ConsoleLog "disconnected"
        :: Constructed (List.length (sockets w)) ws_address
        :: Notified (onclosehandler (this w)) :: ext /\
    Ledger.entered ext = [].
Proof.
  intros K. rewrite (close_event_explicit w K).
  destruct (invoke_notifier_trace (onclosehandler (this w)) (Ledger.reconnecting w))
    as (ext & T & P).
  destruct (plain_quiet_log ext P) as (En & _).
  destruct (settle_cases (invoke_notifier exec (onclosehandler (this w)))
              (Ledger.reconnecting w)) as [S|[e S]]; rewrite S.
  - exists ext. rewrite T. simpl. rewrite <- app_assoc. now split.
  - exists (ext ++ [Uncaught e]). simpl. rewrite T. simpl.
    rewrite <- !app_assoc. simpl. split; [reflexivity|].
    rewrite entered_app, En. reflexivity.
Qed.

End LedgerFacts.

Section LedgerClaims.
Context {U : Type} {C : Caller Call U} {D : Decoder}.
Implicit Types (w : World GameServer U) (s : WebSocket).

(** X3.  onclose keeps one callback: the one given last.  After
    onclose(first) and onclose(second), a close event enters second,
    once, and does not enter first. *)
Theorem onclose_keeps_the_last_callback (first second : NotifierId) w :
  consistent w = true ->
  let w1 := snd (onclose second (snd (onclose first w))) in
  let w2 := fire handlers (EvClose (_ws (this w))) w1 in
  onclosehandler (this w1) = Some second /\
  message_queue (this w1) = message_queue (this w) /\
  onmessage_handler (this w1) = onmessage_handler (this w) /\
  trace w1 = trace w /\
  Ledger.entered (trace w2) = Ledger.entered (trace w) ++ [Some second].
Proof.
  intros K w1 w2. repeat split.
  assert (K1 : consistent w1 = true) by (rewrite <- K; now apply consistent_frame).
  destruct (close_event_log w1 K1) as (ext & T & En).
  unfold w2. change (_ws (this w)) with (_ws (this w1)). rewrite T.
  rewrite entered_app. simpl. rewrite En. reflexivity.
Qed.

End LedgerClaims.

Section AccountFacts.
Context {U : Type} {C : Caller Call U} {D : Decoder}.
Implicit Types (w : World GameServer U) (s : WebSocket).

Lemma evolves_length w w' :
  (forall h, evolves (socket h w) (socket h w')) ->
  List.length (sockets w') = List.length (sockets w).
Proof.
  intros E. unfold socket in E.
  destruct (Nat.lt_trichotomy (List.length (sockets w')) (List.length (sockets w)))
    as [L|[L|L]]; [|exact L|]; exfalso.
  - specialize (E (List.length (sockets w'))).
    rewrite (proj2 (nth_error_None (sockets w') _) (Nat.le_refl _)) in E.
    destruct (nth_error (sockets w) (List.length (sockets w'))) eqn:N; [exact E|].
    apply nth_error_None in N. lia.
  - specialize (E (List.length (sockets w))).
    rewrite (proj2 (nth_error_None (sockets w) _) (Nat.le_refl _)) in E.
    destruct (nth_error (sockets w') (List.length (sockets w))) eqn:N; [exact E|].
    apply nth_error_None in N. lia.
Qed.

Lemma quiet_accounted w w' : quiet w w' -> Ledger.accounted w -> Ledger.accounted w'.
Proof.
  intros (A & _ & E & _ & _ & _ & N & Cs) (H1 & H2 & H3).
  unfold Ledger.accounted. rewrite A, N, Cs, (evolves_length w w' E). auto.
Qed.

Lemma accounted_frame w w' :
  _ws (this w') = _ws (this w) -> sockets w' = sockets w ->
  constructions (trace w') = constructions (trace w) ->
  notifications (trace w') = notifications (trace w) ->
  Ledger.accounted w -> Ledger.accounted w'.
Proof.
  unfold Ledger.accounted. intros -> -> -> ->. auto.
Qed.

Lemma accounted_emit (e : Effect) w :
  constructions [e] = 0%nat -> notifications [e] = 0%nat ->
  Ledger.accounted w -> Ledger.accounted (emit e w).
Proof.
  intros Hc Hn. apply accounted_frame; trivial; simpl.
  - rewrite constructions_app, Hc. lia.
  - rewrite notifications_app, Hn. lia.
Qed.

Lemma observers_loop_accounted data (l : list ObserverId) : forall w,
  consistent w = true -> Ledger.accounted w ->
  Ledger.accounted (snd (forEach l (fun f => invoke_observer exec f data) w)).
Proof.
  induction l as [|f l IH]; intros w K A; simpl; [exact A|].
  unfold bind. destruct (invoke_observer_step f data w K) as (K1 & _).
  assert (A1 : Ledger.accounted (snd (invoke_observer exec f data w))).
  { unfold invoke_observer. destruct (observer f data (caller w)) as [u r].
    set (w0 := emit (Delivered f data) (with_caller u w)).
    assert (K0 : consistent w0 = true) by (rewrite <- K; now apply consistent_frame).
    destruct (react_quiet r w0 (consistent_alive w0 K0)) as [_ Q].
    apply (quiet_accounted w0); [exact Q|].
    unfold w0. apply accounted_emit; trivial. }
  destruct (invoke_observer exec f data w) as [[[]|e] w1]; simpl in *; [|exact A1].
  now apply IH.
Qed.

Lemma settle_accounted (m : M GameServer U unit) w :
  Ledger.accounted (snd (m w)) -> Ledger.accounted (settle m w).
Proof.
  intros A. destruct (settle_cases m w) as [E|[e E]]; rewrite E; [exact A|].
  now apply accounted_emit.
Qed.

Lemma constructions_map_Transmitted h (q : list string) :
  constructions (map (Transmitted h) q) = 0%nat /\
  notifications (map (Transmitted h) q) = 0%nat.
Proof. induction q as [|x q IH]; simpl; auto. Qed.

Lemma fire_accounted ev w :
  consistent w = true -> Ledger.accounted w -> Ledger.accounted (fire handlers ev w).
Proof.
  intros K A. destruct (enabled ev w) eqn:En.
  2: { unfold fire. now rewrite En. }
  pose proof (enabled_current ev w K En) as T.
  destruct (consistent_current w K) as [s [E [R W]]].
  unfold enabled in En. rewrite T, E in En.
  destruct ev as [h|h payload|h]; simpl in T; subst h.
  - destruct (readyState s) eqn:Rs; try discriminate.
    rewrite (open_event w s E Rs W). destruct A as (H1 & H2 & H3).
    destruct (constructions_map_Transmitted (_ws (this w)) (message_queue (this w)))
      as [Z1 Z2].
    unfold Ledger.accounted. simpl.
    rewrite length_update, constructions_app, notifications_app. simpl.
    rewrite Z1, Z2. lia.
  - destruct (readyState s) eqn:Rs; try discriminate.
    destruct (JSON_parse payload) as [data|] eqn:P.
    + rewrite (message_event_decoded payload data w s E Rs W P).
      apply settle_accounted. now apply observers_loop_accounted.
    + destruct (message_event_malformed (_ws (this w)) payload w P) as [S|S]; rewrite S;
        [exact A|now apply accounted_emit].
  - rewrite (close_event_explicit w K). apply settle_accounted.
    pose proof (reconnecting_consistent w K) as Kr.
    assert (Ar : Ledger.accounted
                   (emit (Notified (onclosehandler (this w))) (Ledger.reconnecting w))).
    { destruct A as (H1 & H2 & H3). unfold Ledger.accounted, Ledger.reconnecting. simpl.
      rewrite length_update, length_app, length_update. simpl.
      rewrite !constructions_app, !notifications_app. simpl. lia. }
    destruct (onclosehandler (this w)) as [n|]; simpl; [|exact Ar].
    unfold invoke_notifier. change (caller (Ledger.reconnecting w)) with (caller w).
    destruct (notifier n (caller w)) as [u r].
    set (w0 := emit (Notified (Some n)) (with_caller u (Ledger.reconnecting w))).
    assert (K0 : consistent w0 = true) by (rewrite <- Kr; now apply consistent_frame).
    destruct (react_quiet r w0 (consistent_alive w0 K0)) as [_ Q].
    apply (quiet_accounted w0); [exact Q|exact Ar].
Qed.

Lemma step_accounted (st : Step) w :
  consistent w = true -> Ledger.accounted w -> Ledger.accounted (step st w).
Proof.
  intros K A. destruct st as [c|r|r v|ev]; simpl.
  - apply (quiet_accounted w); [|exact A]. apply exec_quiet. now apply consistent_alive.
  - apply (quiet_accounted w); [|exact A]. apply send_quiet. now apply consistent_alive.
  - exact A.
  - now apply fire_accounted.
Qed.

Lemma run_accounted (script : list Step) : forall w,
  consistent w = true -> Ledger.accounted w -> Ledger.accounted (run script w).
Proof.
  unfold run. induction script as [|st script IH]; intros w K A; simpl; [exact A|].
  apply IH; [now apply consistent_step|now apply step_accounted].
Qed.

End AccountFacts.

Section AccountClaims.
Context {U : Type} {C : Caller Call U} {D : Decoder}.

(** X2.  At every moment of the life of a client the socket in
    [this._ws] is the one constructed last; it is the only socket that
    is not closed; and the class has constructed one socket in its
    constructor and one more each time it entered the reconnect
    callback, no other. *)
Theorem sockets_are_accounted_for (script : list Step) (o : Ref -> Json) (u : U) :
  let w := run script (new_GameServer o u) in
  S (_ws (this w)) = List.length (sockets w) /\
  List.length (sockets w) = constructions (trace w) /\
  constructions (trace w) = S (notifications (trace w)) /\
  (forall h s, socket h w = Some s -> (readyState s = CLOSED <-> h <> _ws (this w))).
Proof.
  intros w.
  assert (K : consistent w = true) by apply consistent_reachable.
  assert (A : Ledger.accounted w).
  { apply run_accounted; [reflexivity|]. unfold Ledger.accounted. simpl. auto. }
  destruct A as (H1 & H2 & H3). repeat split; trivial.
  - intros Cl e. subst h. destruct (consistent_current w K) as [s' [E' [R' _]]].
    rewrite E' in H. inversion H. congruence.
  - intros N. unfold consistent in K. rewrite live_spec in K.
    destruct K as [_ O]. now apply (O h s).
Qed.

End AccountClaims.

Section SentFacts.
Context {U : Type} {C : Caller Call U} {D : Decoder}.
Implicit Types (w : World GameServer U) (s : WebSocket).

Lemma tidy_frame w w' :
  _ws (this w') = _ws (this w) -> sockets w' = sockets w ->
  message_queue (this w') = message_queue (this w) ->
  Ledger.tidy w -> Ledger.tidy w'.
Proof.
  unfold Ledger.tidy, current, socket. intros -> -> ->. auto.
Qed.

Lemma tidy_not_open w : current w <> Some OPEN -> Ledger.tidy w.
Proof. unfold Ledger.tidy. tauto. Qed.

(** A public method adds to the texts taken for sending exactly the
    text it sends, at the end. *)
Lemma exec_sent c w :
  consistent w = true -> Ledger.tidy w ->
  Ledger.sent (snd (exec c w)) = Ledger.sent w ++ frames [c] /\
  Ledger.tidy (snd (exec c w)).
Proof.
  intros K T. destruct (consistent_current w K) as [s [E [R W]]].
  unfold Ledger.sent. simpl frames.
  destruct (payload c) as [data|] eqn:P.
  - rewrite (exec_payload c data w P). destruct (readyState s) eqn:Rs.
    2: { rewrite (send_open data w s E Rs). simpl.
         assert (Q : message_queue (this w) = [])
           by (apply T; apply current_socket; now exists s).
         rewrite transmitted_app, Q. simpl. rewrite !app_nil_r. split; [reflexivity|].
         intros _. exact Q. }
    all: rewrite (send_not_open data w s E) by congruence; simpl;
      rewrite app_assoc; split; [reflexivity|];
      apply tidy_not_open; intros O; apply current_socket in O;
      destruct O as [s' [E' R']]; unfold socket in *; simpl in E';
      rewrite E in E'; inversion E'; congruence.
  - rewrite app_nil_r. destruct c; simpl in P; try discriminate; simpl.
    + split; [reflexivity|]. now apply (tidy_frame w).
    + destruct (close_result w K) as (_ & _ & Cl & Th & _ & _ & Tr).
      rewrite Tr, Th. split; [reflexivity|].
      apply tidy_not_open. rewrite Cl. discriminate.
    + split; [reflexivity|]. now apply (tidy_frame w).
Qed.

Lemma calls_sent (l : list Call) : forall w,
  consistent w = true -> Ledger.tidy w ->
  Ledger.sent (snd (forEach l exec w)) = Ledger.sent w ++ frames l /\
  Ledger.tidy (snd (forEach l exec w)).
Proof.
  induction l as [|c l IH]; intros w K T; simpl.
  - rewrite app_nil_r. auto.
  - unfold bind. destruct (exec_quiet c w (consistent_alive w K)) as [N Q].
    pose proof (consistent_quiet _ _ K Q) as K1.
    destruct (exec_sent c w K T) as [S1 T1].
    destruct (exec c w) as [[[]|e] w1]; simpl in *; [|discriminate].
    destruct (IH w1 K1 T1) as [S2 T2]. split; [|exact T2].
    rewrite S2, S1. destruct (payload c); simpl; now rewrite <- app_assoc.
Qed.

Lemma react_sent (r : Reaction Call) w :
  consistent w = true -> Ledger.tidy w ->
  Ledger.sent (snd (react exec r w)) = Ledger.sent w ++ frames (calls r) /\
  Ledger.tidy (snd (react exec r w)).
Proof.
  intros K T. unfold react, bind.
  destruct (calls_quiet (calls r) w (consistent_alive w K)) as [N _].
  destruct (calls_sent (calls r) w K T) as [S1 T1].
  destruct (forEach (calls r) exec w) as [[[]|e] w1]; simpl in *; [|discriminate].
  destruct (raises r); simpl; auto.
Qed.

(** One observer adds the texts of the calls it makes. *)
Lemma invoke_observer_sent f data w :
  consistent w = true -> Ledger.tidy w ->
  Ledger.sent (snd (invoke_observer exec f data w))
  = Ledger.sent w ++ frames (calls (snd (observer f data (caller w)))) /\
  Ledger.tidy (snd (invoke_observer exec f data w)).
Proof.
  intros K T. unfold invoke_observer. destruct (observer f data (caller w)) as [u r].
  set (w0 := emit (Delivered f data) (with_caller u w)).
  assert (K0 : consistent w0 = true) by (rewrite <- K; now apply consistent_frame).
  assert (T0 : Ledger.tidy w0) by (now apply (tidy_frame w)).
  assert (S0 : Ledger.sent w0 = Ledger.sent w).
  { unfold Ledger.sent, w0. simpl. rewrite transmitted_app. simpl.
    now rewrite app_nil_r. }
  destruct (react_sent r w0 K0 T0) as [S1 T1]. split; [|exact T1].
  simpl snd. now rewrite S1, S0.
Qed.

(** The loop over the observers adds the texts of the calls that the
    entered observers make, in the order of the calls. *)
Lemma observers_loop_sent data (l : list ObserverId) : forall w,
  consistent w = true -> Ledger.tidy w ->
  Ledger.sent (snd (forEach l (fun f => invoke_observer exec f data) w))
  = Ledger.sent w ++ frames (Ledger.heard data l (caller w)) /\
  Ledger.tidy (snd (forEach l (fun f => invoke_observer exec f data) w)).
Proof.
  induction l as [|f l IH]; intros w K T.
  - simpl. rewrite app_nil_r. auto.
  - simpl forEach. unfold bind.
    destruct (invoke_observer_step f data w K) as (K1 & _ & F1 & _).
    pose proof (invoke_observer_caller f data w K) as C1.
    destruct (invoke_observer_sent f data w K T) as [S1 T1].
    simpl Ledger.heard. rewrite frames_app.
    destruct (invoke_observer exec f data w) as [[[]|e] w1]; simpl in K1, F1, C1, S1, T1 |- *.
    + destruct (raises (snd (observer f data (caller w)))); [discriminate|].
      destruct (IH w1 K1 T1) as [S2 T2]. split; [|exact T2].
      rewrite S2, S1, C1, app_assoc. reflexivity.
    + destruct (raises (snd (observer f data (caller w)))); [|discriminate].
      split; [|exact T1]. simpl. now rewrite S1, app_nil_r.
Qed.

Lemma settle_sent (m : M GameServer U unit) w :
  Ledger.sent (settle m w) = Ledger.sent (snd (m w)) /\
  (Ledger.tidy (snd (m w)) -> Ledger.tidy (settle m w)).
Proof.
  destruct (settle_cases m w) as [E|[e E]]; rewrite E; [auto|].
  split.
  - unfold Ledger.sent. simpl. rewrite transmitted_app. simpl. now rewrite app_nil_r.
  - now apply tidy_frame.
Qed.

(** The open event moves the queue to the network and adds nothing. *)
Lemma open_sent w :
  consistent w = true -> current w = Some CONNECTING ->
  Ledger.sent (fire handlers (EvOpen (_ws (this w))) w) = Ledger.sent w /\
  Ledger.tidy (fire handlers (EvOpen (_ws (this w))) w).
Proof.
  intros K Cn. rewrite (open_event_consistent w K Cn). unfold Ledger.sent, Ledger.tidy.
  simpl. rewrite transmitted_app. simpl. rewrite transmitted_map_Transmitted, app_nil_r.
  auto.
Qed.

(** An event adds the texts of the calls its callbacks make, and
    nothing else. *)
Lemma fire_sent ev w :
  consistent w = true -> Ledger.tidy w ->
  Ledger.sent (fire handlers ev w) = Ledger.sent w ++ frames (Ledger.asked (Happen ev) w) /\
  Ledger.tidy (fire handlers ev w).
Proof.
  intros K T. simpl Ledger.asked. destruct (enabled ev w) eqn:En.
  2: { unfold fire. rewrite En. simpl. rewrite app_nil_r. auto. }
  pose proof (enabled_current ev w K En) as Tg.
  destruct (consistent_current w K) as [s [E [R W]]].
  unfold enabled in En. rewrite Tg, E in En.
  destruct ev as [h|h payload|h]; simpl in Tg; subst h.
  - destruct (readyState s) eqn:Rs; try discriminate.
    assert (Cn : current w = Some CONNECTING) by (apply current_socket; now exists s).
    destruct (open_sent w K Cn) as [S1 T1]. split; [|exact T1].
    simpl. now rewrite app_nil_r.
  - destruct (readyState s) eqn:Rs; try discriminate.
    destruct (JSON_parse payload) as [data|] eqn:P.
    + rewrite (message_event_decoded payload data w s E Rs W P).
      destruct (observers_loop_sent data (onmessage_handler (this w)) w K T) as [S1 T1].
      destruct (settle_sent (forEach (onmessage_handler (this w))
                  (fun f => invoke_observer exec f data)) w) as [S2 T2].
      split; [now rewrite S2|now apply T2].
    + destruct (message_event_malformed (_ws (this w)) payload w P) as [S|S]; rewrite S.
      * simpl. rewrite app_nil_r. auto.
      * split; [|now apply (tidy_frame w)].
        unfold Ledger.sent. simpl. rewrite transmitted_app. simpl.
        now rewrite !app_nil_r.
  - destruct (close_event_result w K) as (K1 & O1 & _ & _ & Q & Tr & _).
    split.
    + unfold Ledger.sent, Ledger.answered. rewrite Q, Tr, app_assoc.
      now destruct (onclosehandler (this w)).
    + apply tidy_not_open. destruct (offline_current _ K1 O1) as [X|X]; rewrite X; discriminate.
Qed.

Lemma step_sent (st : Step) w :
  consistent w = true -> Ledger.tidy w ->
  Ledger.sent (step st w) = Ledger.sent w ++ frames (Ledger.asked st w) /\
  Ledger.tidy (step st w).
Proof.
  intros K T. destruct st as [c|r|r v|ev].
  - exact (exec_sent c w K T).
  - exact (exec_sent (CallSend (objects w r)) w K T).
  - split; [unfold Ledger.sent; simpl; now rewrite app_nil_r|].
    now apply (tidy_frame w).
  - now apply fire_sent.
Qed.

(** A run adds the texts of the calls made during it, in the order of
    the calls. *)
Lemma run_sent (script : list Step) : forall w,
  consistent w = true -> Ledger.tidy w ->
  Ledger.sent (run script w) = Ledger.sent w ++ frames (Ledger.asked_all script w) /\
  Ledger.tidy (run script w).
Proof.
  unfold run. induction script as [|st script IH]; intros w K T.
  - simpl. rewrite app_nil_r. auto.
  - destruct (step_sent st w K T) as [S1 T1].
    destruct (IH (step st w) (consistent_step st w K) T1) as [S2 T2].
    simpl fold_left. simpl Ledger.asked_all.
    split; [|exact T2]. now rewrite S2, S1, frames_app, app_assoc.
Qed.

End SentFacts.

Section AppendFacts.
Context {G U : Type}.

Lemma appends_ret {A} (a : A) : Ledger.appends (G := G) (U := U) (ret a).
Proof. intros w. exists []. simpl. now rewrite app_nil_r. Qed.

Lemma appends_throw {A} (e : Exn) : Ledger.appends (G := G) (U := U) (A := A) (throw e).
Proof. intros w. exists []. simpl. now rewrite app_nil_r. Qed.

Lemma appends_bind {A B} (m : M G U A) (k : A -> M G U B) :
  Ledger.appends m -> (forall a, Ledger.appends (k a)) -> Ledger.appends (bind m k).
Proof.
  intros Hm Hk w. unfold bind. destruct (Hm w) as [e1 T1].
  destruct (m w) as [[a|e] w1]; simpl in *.
  - destruct (Hk a w1) as [e2 T2]. exists (e1 ++ e2). now rewrite T2, T1, app_assoc.
  - now exists e1.
Qed.

Lemma appends_forEach {A} (l : list A) (f : A -> M G U unit) :
  (forall x, Ledger.appends (f x)) -> Ledger.appends (forEach l f).
Proof.
  intros Hf. induction l as [|x l IH]; simpl.
  - apply appends_ret.
  - apply appends_bind; [apply Hf|intros _; exact IH].
Qed.

Lemma appends_same {A} (m : M G U A) :
  (forall w, trace (snd (m w)) = trace w) -> Ledger.appends m.
Proof. intros H w. exists []. now rewrite H, app_nil_r. Qed.

Lemma appends_ws_send h frame : Ledger.appends (G := G) (U := U) (ws_send h frame).
Proof.
  intros w. unfold ws_send.
  destruct (socket h w) as [s|]; [destruct (readyState s)|]; simpl;
    try (exists []; now rewrite app_nil_r).
  now eexists.
Qed.

Lemma appends_ws_close h : Ledger.appends (G := G) (U := U) (ws_close h).
Proof.
  intros w. unfold ws_close.
  destruct (socket h w) as [s|]; [destruct (readyState s)|]; simpl;
    try (exists []; now rewrite app_nil_r); now eexists.
Qed.

Lemma appends_ws_readyState h : Ledger.appends (G := G) (U := U) (ws_readyState h).
Proof.
  apply appends_same. intros w. unfold ws_readyState. now destruct (socket h w).
Qed.

Lemma appends_ws_assign_handlers h :
  Ledger.appends (G := G) (U := U) (ws_assign_handlers h).
Proof.
  apply appends_same. intros w. unfold ws_assign_handlers. now destruct (socket h w).
Qed.

Lemma appends_console_log text : Ledger.appends (G := G) (U := U) (console_log text).
Proof. intros w. now eexists. Qed.

Lemma appends_new_WebSocket address :
  Ledger.appends (G := G) (U := U) (new_WebSocket address).
Proof. intros w. now eexists. Qed.

Lemma appends_react {Call} (exec : Call -> M G U unit) (r : Reaction Call) :
  (forall c, Ledger.appends (exec c)) -> Ledger.appends (react exec r).
Proof.
  intros He. unfold react. apply appends_bind; [now apply appends_forEach|].
  intros _. destruct (raises r); [apply appends_throw|apply appends_ret].
Qed.

Lemma appends_invoke_observer {Call} {C : Caller Call U} (exec : Call -> M G U unit) f data :
  (forall c, Ledger.appends (exec c)) -> Ledger.appends (invoke_observer exec f data).
Proof.
  intros He w. unfold invoke_observer. destruct (observer f data (caller w)) as [u r].
  destruct (appends_react exec r He (emit (Delivered f data) (with_caller u w))) as [ext T].
  exists (Delivered f data :: ext). rewrite T. simpl. now rewrite <- app_assoc.
Qed.

Lemma appends_invoke_notifier {Call} {C : Caller Call U} (exec : Call -> M G U unit) cb :
  (forall c, Ledger.appends (exec c)) -> Ledger.appends (invoke_notifier exec cb).
Proof.
  intros He w. unfold invoke_notifier. destruct cb as [n|]; [|now eexists].
  destruct (notifier n (caller w)) as [u r].
  destruct (appends_react exec r He (emit (Notified (Some n)) (with_caller u w))) as [ext T].
  exists (Notified (Some n) :: ext). rewrite T. simpl. now rewrite <- app_assoc.
Qed.

Lemma fire_appends (hs : Handlers G U) ev w :
  Ledger.appends (handle_open hs) -> (forall p, Ledger.appends (handle_message hs p)) ->
  Ledger.appends (handle_close hs) ->
  exists ext, trace (fire hs ev w) = trace w ++ ext.
Proof.
  intros Ho Hm Hc.
  assert (St : forall (m : M G U unit) w0, Ledger.appends m ->
                 exists ext, trace (settle m w0) = trace w0 ++ ext).
  { intros m w0 Ha. destruct (Ha w0) as [ext T].
    destruct (settle_cases m w0) as [E|[e E]]; rewrite E.
    - now exists ext.
    - exists (ext ++ [Uncaught e]). simpl. now rewrite T, app_assoc. }
  unfold fire. destruct (enabled ev w); [|exists []; now rewrite app_nil_r].
  destruct ev as [h|h payload|h]; destruct (is_wired h w);
    try (exists []; simpl; now rewrite app_nil_r).
  - apply (St _ (move h OPEN w) Ho).
  - apply (St _ w (Hm payload)).
  - apply (St _ (move h CLOSED w) Hc).
Qed.

End AppendFacts.

Section LogFacts.
Context {U : Type} {C : Caller Call U} {D : Decoder}.
Implicit Types (w : World GameServer U).

Lemma appends_send data : Ledger.appends (U := U) (send data).
Proof.
  unfold send. apply appends_bind; [apply appends_same; reflexivity|]. intros g.
  apply appends_bind; [apply appends_ws_readyState|]. intros r.
  destruct (readyState_value r =? 1)%Z;
    [apply appends_ws_send|apply appends_same; reflexivity].
Qed.

Lemma appends_exec c : Ledger.appends (U := U) (exec c).
Proof.
  destruct c; simpl; try apply appends_send; try (apply appends_same; reflexivity).
  unfold close. apply appends_bind; [apply appends_same; reflexivity|].
  intros g. apply appends_ws_close.
Qed.

(** No step rewrites the log. *)
Lemma step_appends (st : Step) w : exists ext, trace (step st w) = trace w ++ ext.
Proof.
  destruct st as [c|r|r v|ev]; simpl.
  - apply appends_exec.
  - apply appends_send.
  - exists []. simpl. now rewrite app_nil_r.
  - apply fire_appends.
    + unfold handlers, on_open. simpl.
      apply appends_bind; [apply appends_console_log|]. intros _.
      apply appends_bind; [apply appends_same; reflexivity|]. intros g.
      destruct (0 <? List.length (message_queue g))%nat; [|apply appends_ret].
      apply appends_bind; [|intros _; apply appends_same; reflexivity].
      apply appends_forEach. intros x.
      apply appends_bind; [apply appends_same; reflexivity|]. intros g'.
      apply appends_ws_send.
    + intros payload. unfold handlers, on_message. simpl.
      destruct (JSON_parse payload) as [data|]; [|apply appends_throw].
      apply appends_bind; [apply appends_same; reflexivity|]. intros g.
      apply appends_forEach. intros f. apply appends_invoke_observer. apply appends_exec.
    + unfold handlers, on_close. simpl.
      apply appends_bind; [apply appends_console_log|]. intros _.
      apply appends_bind; [apply appends_new_WebSocket|]. intros ws.
      apply appends_bind; [apply appends_same; reflexivity|]. intros _.
      apply appends_bind.
      { unfold setupSocket. apply appends_bind; [apply appends_same; reflexivity|].
        intros g. apply appends_ws_assign_handlers. }
      intros _. apply appends_bind; [apply appends_same; reflexivity|]. intros g.
      apply appends_invoke_notifier. apply appends_exec.
Qed.

Lemma run_appends (script : list Step) : forall w,
  exists ext, trace (run script w) = trace w ++ ext.
Proof.
  unfold run. induction script as [|st script IH]; intros w; simpl.
  - exists []. now rewrite app_nil_r.
  - destruct (step_appends st w) as [e1 T1]. destruct (IH (step st w)) as [e2 T2].
    exists (e1 ++ e2). now rewrite T2, T1, app_assoc.
Qed.

End LogFacts.

Section SentClaims.
Context {U : Type} {C : Caller Call U} {D : Decoder}.

(** X1.  Take the frames a client has put on the network followed by
    the texts in its queue.  At every moment of its life this sequence
    is the texts of the calls made so far, in the order of the calls,
    and every step adds to its end exactly the texts of the calls made
    during the step: the call itself for a call of a public method,
    nothing for an open event, which only moves texts from the queue to
    the network, and for a close or a message event the calls that the
    callbacks make which the event enters.  So no step, reconnects
    included, drops, repeats or reorders a text.  While the socket is
    open the queue is empty, and what is on the network stays there: the
    frames transmitted so far are a prefix of those transmitted later. *)
Theorem sent_texts_only_grow_at_the_end (script : list Step) (o : Ref -> Json) (u : U) :
  let w := run script (new_GameServer o u) in
  (current w = Some OPEN -> message_queue (this w) = []) /\
  Ledger.sent w = frames (Ledger.asked_all script (new_GameServer o u)) /\
  (forall st, Ledger.sent (step st w) = Ledger.sent w ++ frames (Ledger.asked st w)) /\
  (forall c, Ledger.sent (step (Do c) w) = Ledger.sent w ++ frames [c]) /\
  (forall h, Ledger.sent (step (Happen (EvOpen h)) w) = Ledger.sent w) /\
  (forall more,
     Ledger.sent (run more w) = Ledger.sent w ++ frames (Ledger.asked_all more w)) /\
  (forall more, exists later,
     transmitted (trace (run more w)) = transmitted (trace w) ++ later).
Proof.
  intros w.
  assert (K : consistent w = true) by apply consistent_reachable.
  assert (K0 : consistent (new_GameServer o u) = true) by reflexivity.
  assert (T0 : Ledger.tidy (new_GameServer o u)) by (apply tidy_not_open; discriminate).
  destruct (run_sent script (new_GameServer o u) K0 T0) as [S T]. fold w in S, T.
  split; [exact T|].
  split; [exact S|].
  split; [intros st; apply (step_sent st w K T)|].
  split; [intros c; apply (step_sent (Do c) w K T)|].
  split.
  { intros h. destruct (step_sent (Happen (EvOpen h)) w K T) as [S1 _].
    rewrite S1. simpl. destruct (enabled (EvOpen h) w); simpl; now rewrite app_nil_r. }
  split; [intros more; apply (run_sent more w K T)|].
  intros more. destruct (run_appends more w) as [ext E].
  exists (transmitted ext). now rewrite E, transmitted_app.
Qed.

End SentClaims.

Lemma onclose_keeps_the_last_callback_witness :
  consistent Demo.opened = true /\
  Ledger.entered (trace
    (fire (handlers (C := Demo.caller) (D := Text.decoder)) (EvClose 0)
       (snd (onclose 5 (snd (onclose 4 Demo.opened))))))
  = [Some 5].
Proof.
  split; [reflexivity|].
  destruct (onclose_keeps_the_last_callback (C := Demo.caller) (D := Text.decoder)
              4 5 Demo.opened eq_refl) as (_ & _ & _ & _ & E).
  exact E.
Defined.

(* ================================================================== *)
(** ** The page of a game and its client (src/unnamed/part_003) *)

Section GameFacts.
Context {D : Decoder}.
Implicit Types (w : World GameServer Page.Variables) (p : Page.Variables).

#[local] Existing Instance Game.caller.

Lemma game_observer_calls_nothing data p : calls (snd (Game.observer data p)) = [].
Proof.
  unfold Game.observer. destruct data; try reflexivity;
    repeat match goal with
           | |- context [if ?b then _ else _] => destruct b; try reflexivity
           end.
Qed.

Lemma game_observer_keeps_the_room data p :
  Page.roomCode (fst (Game.observer data p)) = Page.roomCode p /\
  Page.name (fst (Game.observer data p)) = Page.name p.
Proof.
  unfold Game.observer. destruct data; try (split; reflexivity);
    repeat match goal with
           | |- context [if ?b then _ else _] => destruct b; try (split; reflexivity)
           end.
Qed.

Lemma game_observer_room_state data p :
  truthy_value (Game.prop data "RoomState") = true ->
  Game.observer data p = (Game.set_rejoin true p, Game.returns).
Proof.
  intros T. unfold Game.observer. destruct data; try (now rewrite T); discriminate.
Qed.

Lemma game_observer_invalid_room data p :
  Game.selected data = Some "InvalidRoomId" ->
  Game.observer data p = (Game.set_rejoin false p, Game.returns).
Proof.
  unfold Game.selected, Game.chain. simpl.
  destruct data; try discriminate; unfold Game.observer;
    repeat match goal with
           | |- context [if ?b then _ else _] => destruct b; try discriminate
           end; reflexivity.
Qed.

Lemma game_invoke f data w :
  invoke_observer exec f data w
  = ((if raises (snd (Game.observer data (caller w))) then Throw Raised else Normal tt),
     emit (Delivered f data) (with_caller (fst (Game.observer data (caller w))) w)).
Proof.
  unfold invoke_observer. simpl.
  pose proof (game_observer_calls_nothing data (caller w)) as Cs.
  destruct (Game.observer data (caller w)) as [u r]. simpl in Cs.
  unfold react. rewrite Cs. simpl. unfold bind. simpl.
  destruct (raises r); reflexivity.
Qed.

(** Observers that call nothing leave the client and its sockets as
    they are. *)
Lemma game_loop data (l : list ObserverId) : forall w,
  let r := forEach l (fun f => invoke_observer exec f data) w in
  this (snd r) = this w /\ sockets (snd r) = sockets w /\ objects (snd r) = objects w /\
  transmitted (trace (snd r)) = transmitted (trace w) /\
  constructions (trace (snd r)) = constructions (trace w) /\
  Page.roomCode (caller (snd r)) = Page.roomCode (caller w) /\
  Page.name (caller (snd r)) = Page.name (caller w).
Proof.
  induction l as [|f l IH]; intros w; cbv zeta; [repeat split|].
  pose proof (game_observer_keeps_the_room data (caller w)) as [Rc Nm].
  assert (Tr : transmitted (trace (emit (Delivered f data)
                 (with_caller (fst (Game.observer data (caller w))) w)))
               = transmitted (trace w)).
  { simpl. rewrite transmitted_app. simpl. now rewrite app_nil_r. }
  assert (Cn : constructions (trace (emit (Delivered f data)
                 (with_caller (fst (Game.observer data (caller w))) w)))
               = constructions (trace w)).
  { simpl. rewrite constructions_app. simpl. now rewrite Nat.add_0_r. }
  change (forEach (f :: l) (fun f => invoke_observer exec f data) w)
    with (bind (invoke_observer exec f data)
            (fun _ => forEach l (fun f => invoke_observer exec f data)) w).
  unfold bind. rewrite game_invoke.
  destruct (raises (snd (Game.observer data (caller w)))).
  - cbv beta iota. unfold snd at 1 2 3 4 5 6 7. repeat split; assumption.
  - cbv beta iota.
    destruct (IH (emit (Delivered f data) (with_caller (fst (Game.observer data (caller w))) w)))
      as (A1 & A2 & A3 & A4 & A5 & A6 & A7).
    rewrite A1, A2, A3, A4, A5, A6, A7. repeat split; assumption.
Qed.

(** Observers that return and set [rejoin] to [b]. *)
Lemma game_loop_sets data (b : bool) (l : list ObserverId) : forall w,
  (forall p, Game.observer data p = (Game.set_rejoin b p, Game.returns)) ->
  l <> [] ->
  fst (forEach l (fun f => invoke_observer exec f data) w) = Normal tt /\
  caller (snd (forEach l (fun f => invoke_observer exec f data) w))
  = Game.set_rejoin b (caller w).
Proof.
  induction l as [|f l IH]; intros w O Ne; [congruence|].
  change (forEach (f :: l) (fun f => invoke_observer exec f data) w)
    with (bind (invoke_observer exec f data)
            (fun _ => forEach l (fun f => invoke_observer exec f data)) w).
  unfold bind. rewrite game_invoke, O. unfold Game.returns. cbn [snd fst raises].
  cbv beta iota.
  destruct l as [|f' l'].
  - simpl. split; reflexivity.
  - destruct (IH (emit (Delivered f data) (with_caller (Game.set_rejoin b (caller w)) w)) O)
      as [F Cl]; [discriminate|].
    split; [exact F|]. rewrite Cl. reflexivity.
Qed.

Lemma game_message_event h payload w :
  let w' := fire handlers (EvMessage h payload) w in
  this w' = this w /\ sockets w' = sockets w /\ objects w' = objects w /\
  transmitted (trace w') = transmitted (trace w) /\
  constructions (trace w') = constructions (trace w) /\
  Page.roomCode (caller w') = Page.roomCode (caller w) /\
  Page.name (caller w') = Page.name (caller w).
Proof.
  simpl. unfold fire. destruct (enabled (EvMessage h payload) w); [|repeat split].
  destruct (is_wired h w); [|repeat split].
  unfold handlers, on_message. simpl.
  destruct (JSON_parse payload) as [data|].
  - unfold settle, bind. simpl.
    pose proof (game_loop data (onmessage_handler (this w)) w) as L. simpl in L.
    destruct (forEach (onmessage_handler (this w)) (fun f => invoke_observer exec f data) w)
      as [[[]|e] w1]; simpl in *; [exact L|].
    rewrite transmitted_app, constructions_app. simpl. rewrite app_nil_r, Nat.add_0_r. exact L.
  - unfold settle, throw. simpl. rewrite transmitted_app, constructions_app. simpl.
    rewrite app_nil_r, Nat.add_0_r. repeat split.
Qed.

(** A frame whose branch sets [rejoin] to [b]. *)
Lemma game_message_sets payload data (b : bool) w :
  consistent w = true -> current w = Some OPEN -> onmessage_handler (this w) <> [] ->
  JSON_parse payload = Some data ->
  (forall p, Game.observer data p = (Game.set_rejoin b p, Game.returns)) ->
  caller (fire handlers (EvMessage (_ws (this w)) payload) w) = Game.set_rejoin b (caller w).
Proof.
  intros K O Ne P Ob.
  apply current_socket in O. destruct O as (s & E & R).
  assert (Wd : wired s = true).
  { unfold consistent in K. rewrite live_spec in K. destruct K as [(s' & E' & _ & W') _].
    congruence. }
  rewrite (message_event_decoded payload data w s E R Wd P).
  destruct (game_loop_sets data b (onmessage_handler (this w)) w Ob Ne) as [F Cl].
  unfold settle.
  destruct (forEach (onmessage_handler (this w)) (fun f => invoke_observer exec f data) w)
    as [[[]|e] w1]; simpl in *; [exact Cl|discriminate].
Qed.

(** The close event on a page whose callback finds [rejoin] false, or
    that has registered no callback. *)
Lemma game_close_event w :
  consistent w = true ->
  let w' := fire handlers (EvClose (_ws (this w))) w in
  message_queue (this w')
  = message_queue (this w) ++
    match onclosehandler (this w) with
    | Some _ =>
        if Page.rejoin (caller w)
        then frames [CallJoinRoom (Page.roomCode (caller w)) (Page.name (caller w))]
        else []
    | None => []
    end /\
  caller w' = caller w /\
  current w' = Some CONNECTING.
Proof.
  intros K. cbv zeta.
  destruct (close_event w K) as (w_mid & F & T & S & Km & Cm & _ & _).
  rewrite F. unfold settle, invoke_notifier.
  assert (Cur : forall (u : Page.Variables) (e : Effect),
            socket (_ws (this w_mid)) (emit e (with_caller u w_mid))
            = Some (mkWebSocket ws_address CONNECTING true)).
  { intros u e. rewrite T. exact S. }
  assert (Q : message_queue (this w_mid) = message_queue (this w)) by now rewrite T.
  destruct (onclosehandler (this w)) as [n|].
  - simpl notifier. unfold Page.reconnected. rewrite Cm.
    destruct (Page.rejoin (caller w)) eqn:Rj; unfold react; cbn [calls raises forEach].
    + unfold bind.
      change (exec (CallJoinRoom (Page.roomCode (caller w)) (Page.name (caller w))))
        with (send (U := Page.Variables)
                (JObj [("JoinRoom", JObj [("name", JStr (Page.name (caller w)));
                                          ("room_id", JStr (Page.roomCode (caller w)))])])).
      rewrite (send_not_open _ _ _ (Cur (caller w) (Notified (Some n))));
        [|discriminate].
      cbv beta iota. unfold ret. cbv beta iota.
      split; [simpl; now rewrite Q|].
      split; [reflexivity|].
      unfold current, socket. simpl. unfold socket in Cur. simpl in Cur.
      rewrite (Cur (caller w) (Notified None)). reflexivity.
    + unfold bind, ret. cbv beta iota.
      split; [simpl; now rewrite Q, app_nil_r|].
      split; [reflexivity|].
      unfold current, socket. simpl. unfold socket in Cur. simpl in Cur.
      rewrite (Cur (caller w) (Notified None)). reflexivity.
  - cbv beta iota.
    split; [simpl; now rewrite Q, app_nil_r|].
    split; [simpl; exact Cm|].
    unfold current, socket. simpl. unfold socket in Cur. simpl in Cur.
      rewrite (Cur (caller w) (Notified None)). reflexivity.
Qed.

End GameFacts.

Section GameClaims.
Context {D : Decoder}.
Implicit Types (w : World GameServer Page.Variables) (p : Page.Variables).

#[local] Existing Instance Game.caller.

(** X4.  The observer of the game page never calls the client: whatever
    frame arrives, on whatever socket, and whether or not the observer
    throws on it, the fields of the client, the sockets, the frames on
    the network, and the room code and the name of the page stay as they
    are. *)
Theorem a_frame_never_makes_the_page_send (h : Handle) (payload : string) w :
  let w' := fire handlers (EvMessage h payload) w in
  this w' = this w /\ sockets w' = sockets w /\ objects w' = objects w /\
  transmitted (trace w') = transmitted (trace w) /\
  constructions (trace w') = constructions (trace w) /\
  Page.roomCode (caller w') = Page.roomCode (caller w) /\
  Page.name (caller w') = Page.name (caller w).
Proof. exact (game_message_event h payload w). Qed.

(** X5.  A frame with a truthy RoomState arms the rejoin: once the page
    has seen one, the next close event makes the reconnect callback
    queue JoinRoom with the page's room code and name, behind what the
    queue held. *)
Theorem a_room_state_frame_arms_the_rejoin (payload : string) (data : Json) (n : NotifierId) w :
  consistent w = true -> current w = Some OPEN ->
  onmessage_handler (this w) <> [] -> onclosehandler (this w) = Some n ->
  JSON_parse payload = Some data ->
  truthy_value (Game.prop data "RoomState") = true ->
  let w1 := fire handlers (EvMessage (_ws (this w)) payload) w in
  let w2 := fire handlers (EvClose (_ws (this w1))) w1 in
  Page.rejoin (caller w1) = true /\
  message_queue (this w2)
  = message_queue (this w)
    ++ frames [CallJoinRoom (Page.roomCode (caller w)) (Page.name (caller w))] /\
  transmitted (trace w2) = transmitted (trace w) /\
  current w2 = Some CONNECTING.
Proof.
  intros K O Ne Cb P T w1 w2.
  destruct (game_message_event (_ws (this w)) payload w) as (T1 & S1 & _ & X1 & _).
  fold w1 in T1, S1, X1.
  assert (C1 : caller w1 = Game.set_rejoin true (caller w)).
  { apply (game_message_sets payload data true w K O Ne P).
    intros p. now apply game_observer_room_state. }
  assert (K1 : consistent w1 = true).
  { rewrite <- K. apply consistent_frame; [now rewrite T1|exact S1]. }
  destruct (game_close_event w1 K1) as (Q & _ & Cu). fold w2 in Q, Cu.
  destruct (close_event_result w1 K1) as (_ & _ & _ & _ & _ & X2 & _). fold w2 in X2.
  split; [now rewrite C1|].
  split; [|split; [now rewrite X2|exact Cu]].
  rewrite Q, T1, Cb, C1. reflexivity.
Qed.

(** X6.  A frame that takes the InvalidRoomId branch disarms the rejoin:
    after it the next close event still reconnects, but the reconnect
    callback queues nothing. *)
Theorem an_invalid_room_frame_disarms_the_rejoin (payload : string) (data : Json) w :
  consistent w = true -> current w = Some OPEN ->
  onmessage_handler (this w) <> [] ->
  JSON_parse payload = Some data ->
  Game.selected data = Some "InvalidRoomId" ->
  let w1 := fire handlers (EvMessage (_ws (this w)) payload) w in
  let w2 := fire handlers (EvClose (_ws (this w1))) w1 in
  Page.rejoin (caller w1) = false /\
  message_queue (this w2) = message_queue (this w) /\
  transmitted (trace w2) = transmitted (trace w) /\
  constructions (trace w2) = S (constructions (trace w)) /\
  current w2 = Some CONNECTING.
Proof.
  intros K O Ne P Sel w1 w2.
  destruct (game_message_event (_ws (this w)) payload w) as (T1 & S1 & _ & X1 & N1 & _).
  fold w1 in T1, S1, X1, N1.
  assert (C1 : caller w1 = Game.set_rejoin false (caller w)).
  { apply (game_message_sets payload data false w K O Ne P).
    intros p. now apply game_observer_invalid_room. }
  assert (K1 : consistent w1 = true).
  { rewrite <- K. apply consistent_frame; [now rewrite T1|exact S1]. }
  destruct (game_close_event w1 K1) as (Q & _ & Cu). fold w2 in Q, Cu.
  destruct (close_event_result w1 K1) as (_ & _ & _ & _ & _ & X2 & _ & _ & N2).
  fold w2 in X2, N2.
  split; [now rewrite C1|].
  split; [|split; [now rewrite X2|split; [now rewrite N2, N1|exact Cu]]].
  rewrite Q, T1, C1. simpl. destruct (onclosehandler (this w)); now rewrite app_nil_r.
Qed.

(** X7.  Leaving the page: onDestroy sets rejoin to false and closes the
    socket.  The close event that follows still makes the client
    construct a new socket, which starts connecting, but nothing is
    queued for it and nothing is transmitted. *)
Theorem leaving_the_page_stops_the_rejoin w :
  consistent w = true ->
  let w1 := Game.onDestroy w in
  let w2 := fire handlers (EvClose (_ws (this w1))) w1 in
  current w1 = Some CLOSING /\
  Page.rejoin (caller w2) = false /\
  message_queue (this w2) = message_queue (this w) /\
  transmitted (trace w2) = transmitted (trace w) /\
  constructions (trace w2) = S (constructions (trace w)) /\
  current w2 = Some CONNECTING.
Proof.
  intros K w1 w2.
  set (w0 := with_caller (Game.set_rejoin false (caller w)) w).
  assert (K0 : consistent w0 = true) by (rewrite <- K; now apply consistent_frame).
  destruct (close_result w0 K0) as (_ & K1 & Cu1 & T1 & _ & C1 & X1).
  destruct (close_quiet w0 (consistent_alive w0 K0)) as (_ & _ & _ & _ & _ & _ & _ & _ & N1).
  change (snd (close w0)) with w1 in K1, Cu1, T1, C1, X1, N1.
  destruct (game_close_event w1 K1) as (Q & C2 & Cu2). fold w2 in Q, C2, Cu2.
  destruct (close_event_result w1 K1) as (_ & _ & _ & _ & _ & X2 & _ & _ & N2).
  fold w2 in X2, N2.
  split; [exact Cu1|].
  split; [now rewrite C2, C1|].
  split; [|split; [now rewrite X2, X1|split; [now rewrite N2, N1|exact Cu2]]].
  rewrite Q, T1, C1. simpl. destruct (onclosehandler (this w)); now rewrite app_nil_r.
Qed.

End GameClaims.

Lemma a_room_state_frame_arms_the_rejoin_witness :
  consistent (Game.playing (Page.mkVariables false "AB12" "Ann")) = true /\
  message_queue (this
    (fire (handlers (C := Game.caller) (D := Text.decoder)) (EvClose 0)
       (fire (handlers (C := Game.caller) (D := Text.decoder))
          (EvMessage 0 Demo.room_state_frame)
          (Game.playing (Page.mkVariables false "AB12" "Ann")))))
  = [wire "{'JoinRoom':{'name':'Ann','room_id':'AB12'}}"].
Proof.
  split; [reflexivity|].
  destruct (a_room_state_frame_arms_the_rejoin (D := Text.decoder)
              Demo.room_state_frame
              (JObj [("RoomState", JObj [("players", JObj []); ("stage", JStr "Joining")])])
              0 (Game.playing (Page.mkVariables false "AB12" "Ann"))
              eq_refl eq_refl ltac:(discriminate) eq_refl eq_refl eq_refl)
    as (_ & Q & _).
  exact Q.
Defined.

Lemma an_invalid_room_frame_disarms_the_rejoin_witness :
  consistent (Game.playing Demo.ann) = true /\
  Page.rejoin (caller (Game.playing Demo.ann)) = true /\
  message_queue (this
    (fire (handlers (C := Game.caller) (D := Text.decoder)) (EvClose 0)
       (fire (handlers (C := Game.caller) (D := Text.decoder))
          (EvMessage 0 (wire "{'InvalidRoomId':{}}"))
          (Game.playing Demo.ann))))
  = [].
Proof.
  split; [reflexivity|]. split; [reflexivity|].
  destruct (an_invalid_room_frame_disarms_the_rejoin (D := Text.decoder)
              (wire "{'InvalidRoomId':{}}") (JObj [("InvalidRoomId", JObj [])])
              (Game.playing Demo.ann)
              eq_refl eq_refl ltac:(discriminate) eq_refl eq_refl)
    as (_ & Q & _).
  exact Q.
Defined.

Lemma leaving_the_page_stops_the_rejoin_witness :
  consistent (Game.playing Demo.ann) = true /\
  Page.rejoin (caller (Game.playing Demo.ann)) = true /\
  message_queue (this
    (fire (handlers (C := Game.caller) (D := Text.decoder)) (EvClose 0)
       (Game.onDestroy (Game.playing Demo.ann))))
  = [].
Proof.
  split; [reflexivity|]. split; [reflexivity|].
  destruct (leaving_the_page_stops_the_rejoin (D := Text.decoder) (Game.playing Demo.ann) eq_refl)
    as (_ & _ & Q & _).
  exact Q.
Defined.

(* ================================================================== *)
(** ** More about the client that rejoins by itself (src/gameServer.ts) *)

Section RejoinFacts.
Context {U : Type} {C : Caller Legacy.Call U} {D : Decoder}.
Implicit Types (w : World Legacy.GameServer U) (s : WebSocket).

Lemma keeps_refl w : Rejoin.keeps w w.
Proof. unfold Rejoin.keeps. repeat split. intros h. apply evolves_refl. Qed.

Lemma keeps_trans w1 w2 w3 : Rejoin.keeps w1 w2 -> Rejoin.keeps w2 w3 -> Rejoin.keeps w1 w3.
Proof.
  intros (A1 & A2 & A3 & A4 & A5 & A6) (B1 & B2 & B3 & B4 & B5 & B6).
  unfold Rejoin.keeps. repeat split; try congruence.
  intros h. eapply evolves_trans; [apply A5|apply B5].
Qed.

(** A change of the queue, of the observers, of the caller, or a line
    of the log that constructs nothing. *)
Lemma keeps_frame w w' :
  Legacy._ws (this w') = Legacy._ws (this w) ->
  Legacy.joined_room (this w') = Legacy.joined_room (this w) ->
  Legacy.name (this w') = Legacy.name (this w) ->
  Legacy.opened (this w') = Legacy.opened (this w) ->
  sockets w' = sockets w ->
  constructions (trace w') = constructions (trace w) ->
  Rejoin.keeps w w'.
Proof.
  intros A1 A2 A3 A4 A5 A6. unfold Rejoin.keeps. repeat split; trivial.
  intros h. unfold socket. rewrite A5. apply evolves_refl.
Qed.

Lemma keeps_emit (e : Effect) w : constructions [e] = 0%nat -> Rejoin.keeps w (emit e w).
Proof.
  intros N. apply keeps_frame; try reflexivity.
  simpl. rewrite constructions_app, N. apply Nat.add_0_r.
Qed.

Lemma steady_ret {A} (a : A) : Rejoin.steady (U := U) (ret a).
Proof. intros w. apply keeps_refl. Qed.

Lemma steady_throw {A} (e : Exn) : Rejoin.steady (U := U) (A := A) (throw e).
Proof. intros w. apply keeps_refl. Qed.

Lemma steady_bind {A B} (m : M Legacy.GameServer U A) (k : A -> M Legacy.GameServer U B) :
  Rejoin.steady m -> (forall a, Rejoin.steady (k a)) -> Rejoin.steady (bind m k).
Proof.
  intros Hm Hk w. unfold bind. pose proof (Hm w) as K1.
  destruct (m w) as [[a|e] w1]; simpl in *; [|exact K1].
  eapply keeps_trans; [exact K1|apply Hk].
Qed.

Lemma steady_forEach {A} (l : list A) (f : A -> M Legacy.GameServer U unit) :
  (forall x, Rejoin.steady (f x)) -> Rejoin.steady (forEach l f).
Proof.
  intros Hf. induction l as [|x l IH]; simpl.
  - apply steady_ret.
  - apply steady_bind; [apply Hf|intros _; exact IH].
Qed.

Lemma steady_get_this : Rejoin.steady (U := U) get_this.
Proof. intros w. apply keeps_refl. Qed.

Lemma steady_console_log text : Rejoin.steady (U := U) (console_log text).
Proof. intros w. now apply keeps_emit. Qed.

Lemma steady_ws_readyState h : Rejoin.steady (U := U) (ws_readyState h).
Proof. intros w. unfold ws_readyState. destruct (socket h w); apply keeps_refl. Qed.

Lemma steady_ws_send h frame : Rejoin.steady (U := U) (ws_send h frame).
Proof.
  intros w. unfold ws_send.
  destruct (socket h w) as [s|]; [destruct (readyState s)|]; simpl;
    try apply keeps_refl. now apply keeps_emit.
Qed.

Lemma steady_ws_close h : Rejoin.steady (U := U) (ws_close h).
Proof.
  intros w. unfold ws_close.
  destruct (socket h w) as [s|] eqn:E; [|apply keeps_refl].
  assert (Q : readyState s <> CLOSED ->
              Rejoin.keeps w (emit (CloseStarted h)
                (with_sockets (update h (set_readyState CLOSING) (sockets w)) w))).
  { intros N. unfold Rejoin.keeps. simpl. rewrite constructions_app. simpl.
    rewrite Nat.add_0_r. repeat split.
    intros h'. unfold socket. simpl.
    destruct (Nat.eq_dec h h') as [e|n].
    - subst h'. unfold socket in E. rewrite (nth_error_update_same _ _ _ _ E), E. simpl.
      unfold closing_step. simpl. auto.
    - rewrite (nth_error_update_other _ _ _ _ n). apply evolves_refl. }
  destruct (readyState s) eqn:R; simpl; try apply keeps_refl; apply Q; congruence.
Qed.

Lemma steady_send data : Rejoin.steady (U := U) (Legacy.send data).
Proof.
  unfold Legacy.send. apply steady_bind; [apply steady_get_this|]. intros g.
  apply steady_bind; [apply steady_ws_readyState|]. intros r.
  destruct (readyState_value r =? 1)%Z; [apply steady_ws_send|].
  intros w. now apply keeps_frame.
Qed.

Lemma steady_exec c : Rejoin.steady (U := U) (Legacy.exec c).
Proof.
  destruct c; simpl; try apply steady_send.
  - unfold Legacy.ping. apply steady_bind; [apply steady_console_log|].
    intros _. apply steady_send.
  - intros w. now apply keeps_frame.
  - unfold Legacy.close. apply steady_bind; [apply steady_get_this|].
    intros g. apply steady_ws_close.
Qed.

Lemma steady_react (r : Reaction Legacy.Call) : Rejoin.steady (U := U) (react Legacy.exec r).
Proof.
  unfold react. apply steady_bind; [apply steady_forEach, steady_exec|].
  intros _. destruct (raises r); [apply steady_throw|apply steady_ret].
Qed.

Lemma steady_invoke_observer f data :
  Rejoin.steady (U := U) (invoke_observer Legacy.exec f data).
Proof.
  intros w. unfold invoke_observer. destruct (observer f data (caller w)) as [u r].
  eapply keeps_trans; [|apply steady_react].
  apply keeps_frame; try reflexivity.
  simpl. rewrite constructions_app. simpl. apply Nat.add_0_r.
Qed.

Lemma steady_loop data (l : list ObserverId) :
  Rejoin.steady (U := U) (forEach l (fun f => invoke_observer Legacy.exec f data)).
Proof. apply steady_forEach. intros f. apply steady_invoke_observer. Qed.

Lemma keeps_settle (m : M Legacy.GameServer U unit) w :
  Rejoin.steady m -> Rejoin.keeps w (settle m w).
Proof.
  intros Hm. unfold settle. pose proof (Hm w) as K.
  destruct (m w) as [[[]|e] w1]; simpl in *; [exact K|].
  eapply keeps_trans; [exact K|now apply keeps_emit].
Qed.

Lemma consistent_keeps w w' :
  Legacy.consistent w = true -> Rejoin.keeps w w' -> Legacy.consistent w' = true.
Proof.
  unfold Legacy.consistent. rewrite !live_spec.
  intros [[s [E [R W]]] O] (A & _ & _ & _ & S & _).
  rewrite A. split.
  - pose proof (S (Legacy._ws (this w))) as S0. rewrite E in S0.
    destruct (socket (Legacy._ws (this w)) w') as [s'|]; [|contradiction].
    exists s'. destruct S0 as (_ & W' & R'). repeat split; [|congruence].
    destruct R' as [R'|[R' _]]; congruence.
  - intros h s' E' N. pose proof (S h) as Sh. rewrite E' in Sh.
    destruct (socket h w) as [s0|] eqn:E0; [|contradiction].
    pose proof (O h s0 E0 N) as K. destruct Sh as (_ & _ & [Sh|[_ Sh]]); congruence.
Qed.

(** A socket that is closing stays so under method calls. *)
Lemma closing_keeps w w' :
  Rejoin.current w = Some CLOSING -> Rejoin.keeps w w' -> Rejoin.current w' = Some CLOSING.
Proof.
  unfold Rejoin.current. intros Cu (A & _ & _ & _ & S & _). rewrite A.
  pose proof (S (Legacy._ws (this w))) as S0.
  destruct (socket (Legacy._ws (this w)) w) as [s|]; [|discriminate].
  destruct (socket (Legacy._ws (this w)) w') as [s'|]; [|contradiction].
  simpl in *. destruct S0 as (_ & _ & [R|[R _]]); congruence.
Qed.

Lemma legacy_enabled_current ev w :
  Legacy.consistent w = true -> enabled ev w = true -> target ev = Legacy._ws (this w).
Proof.
  unfold Legacy.consistent. rewrite live_spec. intros [_ O] En. unfold enabled in En.
  destruct (socket (target ev) w) as [s|] eqn:E; [|discriminate].
  destruct (Nat.eq_dec (target ev) (Legacy._ws (this w))) as [e|n]; [exact e|].
  rewrite (O _ _ E n) in En. destruct ev; discriminate.
Qed.

(** A truthy value has properties to read. *)
Lemma truthy_has_properties (v : Value) key :
  truthy_value v = true -> exists v', get v key = inl v'.
Proof.
  destruct v as [[]|]; simpl; try discriminate; intros _; eexists; reflexivity.
Qed.

(** The message handler on a frame that decodes: [null] is a TypeError
    before anything else; any other value is learnt from, and then
    shown to the observers. *)
Lemma legacy_on_message payload data w :
  JSON_parse payload = Some data ->
  Legacy.on_message payload w
  = match data with
    | JNull => (Throw TypeError, w)
    | _ => forEach (Legacy.onmessage_handler (this w))
             (fun f => invoke_observer Legacy.exec f data)
             (with_this (Rejoin.learn data (this w)) w)
    end.
Proof.
  intros P. unfold Legacy.on_message. rewrite P.
  unfold Rejoin.learn, Rejoin.teaches.
  destruct data; try reflexivity.
  cbn [get].
  destruct (truthy_value (lookup "RoomStatus" props)) eqn:T.
  - destruct (truthy_has_properties _ "room_id" T) as [room Rm]. rewrite Rm.
    destruct w as [g ? ? ? ?]; destruct g; reflexivity.
  - destruct w as [g ? ? ? ?]; destruct g; reflexivity.
Qed.

Lemma legacy_flush_open (q : list string) : forall w s,
  socket (Legacy._ws (this w)) w = Some s -> readyState s = OPEN ->
  forEach q (fun data_str => g' <- get_this ;; ws_send (Legacy._ws g') data_str) w =
  (Normal tt,
   mkWorld (this w) (sockets w) (objects w) (caller w)
     (trace w ++ map (Transmitted (Legacy._ws (this w))) q)).
Proof.
  induction q as [|x q IH]; intros w s E R; simpl.
  - rewrite app_nil_r. destruct w; reflexivity.
  - unfold bind at 1. unfold bind at 1. unfold get_this at 1. unfold ws_send at 1.
    rewrite E, R.
    rewrite (IH (emit (Transmitted (Legacy._ws (this w)) x) w) s E R). simpl.
    now rewrite <- app_assoc.
Qed.

Lemma legacy_open_event w s :
  socket (Legacy._ws (this w)) w = Some s -> readyState s = CONNECTING -> wired s = true ->
  fire Legacy.handlers (EvOpen (Legacy._ws (this w))) w =
  mkWorld (Legacy.set_message_queue [] (this w))
    (update (Legacy._ws (this w)) (set_readyState OPEN) (sockets w)) (objects w) (caller w)
    (trace w ++ ConsoleLog "connected"
       :: map (Transmitted (Legacy._ws (this w))) (Legacy.message_queue (this w))).
Proof.
  intros E R W. unfold fire, enabled, is_wired. simpl target. rewrite E, R, W.
  simpl handle_open. unfold Legacy.on_open.
  set (w1 := move (Legacy._ws (this w)) OPEN w).
  assert (E1 : socket (Legacy._ws (this (emit (ConsoleLog "connected") w1)))
                 (emit (ConsoleLog "connected") w1) = Some (set_readyState OPEN s)).
  { unfold socket. simpl. now apply nth_error_update_same. }
  unfold settle.
  rewrite (bind_normal (console_log "connected") _ w1 tt
             (emit (ConsoleLog "connected") w1) eq_refl).
  rewrite (bind_normal get_this _ (emit (ConsoleLog "connected") w1) (this w)
             (emit (ConsoleLog "connected") w1) eq_refl).
  destruct (Legacy.message_queue (this w)) as [|x q] eqn:Q.
  - simpl. destruct w as [g ? ? ? ?]. destruct g. simpl in *. subst. reflexivity.
  - change (0 <? List.length (x :: q))%nat with true. cbv iota.
    rewrite (bind_normal _ _ _ _ _ (legacy_flush_open (x :: q) _ _ E1 eq_refl)).
    simpl. now rewrite <- app_assoc.
Qed.

(** The message event on the open socket, for a frame that decodes to
    something other than null. *)
Lemma legacy_message_event payload data w :
  Legacy.consistent w = true -> Rejoin.current w = Some OPEN ->
  JSON_parse payload = Some data -> data <> JNull ->
  let w0 := with_this (Rejoin.learn data (this w)) w in
  let w1 := fire Legacy.handlers (EvMessage (Legacy._ws (this w)) payload) w in
  w1 = settle (forEach (Legacy.onmessage_handler (this w))
                 (fun f => invoke_observer Legacy.exec f data)) w0 /\
  Rejoin.keeps w0 w1 /\ Legacy.consistent w1 = true.
Proof.
  intros K O P Nn w0 w1.
  assert (F : w1 = settle (forEach (Legacy.onmessage_handler (this w))
                             (fun f => invoke_observer Legacy.exec f data)) w0).
  { unfold w1, fire, enabled, is_wired. simpl target.
    unfold Rejoin.current in O.
    pose proof K as K'. unfold Legacy.consistent in K'. rewrite live_spec in K'.
    destruct K' as [(s & E & _ & W) _]. rewrite E in O |- *. simpl in O.
    inversion O as [R]. rewrite R, W. simpl handle_message.
    unfold settle. rewrite (legacy_on_message payload data w P).
    destruct data; try reflexivity. congruence. }
  split; [exact F|].
  assert (Kp : Rejoin.keeps w0 w1) by (rewrite F; apply keeps_settle, steady_loop).
  split; [exact Kp|].
  apply (consistent_keeps w0 w1); [|exact Kp].
  rewrite <- K. unfold Legacy.consistent, live, socket, w0, Rejoin.learn. simpl.
  destruct (Rejoin.teaches data); reflexivity.
Qed.

End RejoinFacts.

Section RejoinLog.
Context {U : Type} {C : Caller Legacy.Call U} {D : Decoder}.
Implicit Types (w : World Legacy.GameServer U) (s : WebSocket).

Lemma legacy_appends_send data : Ledger.appends (U := U) (Legacy.send data).
Proof.
  unfold Legacy.send. apply appends_bind; [apply appends_same; reflexivity|]. intros g.
  apply appends_bind; [apply appends_ws_readyState|]. intros r.
  destruct (readyState_value r =? 1)%Z;
    [apply appends_ws_send|apply appends_same; reflexivity].
Qed.

Lemma legacy_appends_exec c : Ledger.appends (U := U) (Legacy.exec c).
Proof.
  destruct c; simpl; try apply legacy_appends_send; try (apply appends_same; reflexivity).
  - unfold Legacy.ping. apply appends_bind; [apply appends_console_log|].
    intros _. apply legacy_appends_send.
  - unfold Legacy.close. apply appends_bind; [apply appends_same; reflexivity|].
    intros g. apply appends_ws_close.
Qed.

(** The first observer of the list is entered, whatever happens next. *)
Lemma legacy_loop_enters_the_first data f (l : list ObserverId) w :
  exists ext,
    trace (settle (forEach (f :: l) (fun f => invoke_observer Legacy.exec f data)) w)
    = trace w ++ Delivered f data :: ext.
Proof.
  assert (St : forall w0, exists ext,
            trace (snd (invoke_observer Legacy.exec f data w0))
            = trace w0 ++ Delivered f data :: ext).
  { intros w0. unfold invoke_observer. destruct (observer f data (caller w0)) as [u r].
    destruct (appends_react Legacy.exec r legacy_appends_exec
                (emit (Delivered f data) (with_caller u w0))) as [ext T].
    exists ext. rewrite T. simpl. now rewrite <- app_assoc. }
  destruct (St w) as [e1 T1].
  unfold settle. simpl forEach. unfold bind.
  destruct (invoke_observer Legacy.exec f data w) as [[[]|e] w1]; simpl in T1.
  - destruct (appends_forEach l (fun f => invoke_observer Legacy.exec f data)
                (fun f => appends_invoke_observer Legacy.exec f data legacy_appends_exec) w1)
      as [e2 T2].
    destruct (forEach l (fun f => invoke_observer Legacy.exec f data) w1) as [[[]|e] w2];
      simpl in T2 |- *.
    + exists (e1 ++ e2). rewrite T2, T1, <- app_assoc. reflexivity.
    + exists (e1 ++ e2 ++ [Uncaught e]). rewrite T2, T1, <- !app_assoc. reflexivity.
  - exists (e1 ++ [Uncaught e]). simpl. rewrite T1, <- app_assoc. reflexivity.
Qed.

End RejoinLog.

Section RejoinClaims.
Context {U : Type} {C : Caller Legacy.Call U} {D : Decoder}.
Implicit Types (w : World Legacy.GameServer U) (s : WebSocket).

(** X8.  The class of src/gameServer.ts rejoins ahead of the queue.  A
    frame with a truthy RoomStatus teaches the client its room: whatever
    room_id is.  If that is not the empty string, the close event puts
    a JoinRoom message with the client's name and that room at the head
    of the queue, and the open event of the new socket sends it first,
    then the rest of the queue, in order.  For a room that is a string
    the text is the one joinRoom(room, name) sends; when RoomStatus had
    no room_id the text names no room at all. *)
Theorem the_client_rejoins_ahead_of_the_queue (payload : string) (data : Json) (room : Value) w :
  Legacy.consistent w = true -> Rejoin.current w = Some OPEN ->
  JSON_parse payload = Some data ->
  Rejoin.teaches data = Some room ->
  Legacy.is_not_empty_string room = true ->
  let w1 := fire Legacy.handlers (EvMessage (Legacy._ws (this w)) payload) w in
  let w2 := fire Legacy.handlers (EvClose (Legacy._ws (this w1))) w1 in
  let w3 := fire Legacy.handlers (EvOpen (Legacy._ws (this w2))) w2 in
  let text := Rejoin.rejoin_text (Legacy.name (this w)) room in
  Legacy.joined_room (this w1) = room /\
  Legacy.message_queue (this w2) = text :: Legacy.message_queue (this w1) /\
  transmitted (trace w3) = transmitted (trace w1) ++ text :: Legacy.message_queue (this w1) /\
  Legacy.message_queue (this w3) = [] /\
  (forall r, room = Some (JStr r) ->
     text = JSON_stringify
              (JObj [("JoinRoom", JObj [("name", JStr (Legacy.name (this w)));
                                        ("room_id", JStr r)])])) /\
  (room = None ->
     text = JSON_stringify (JObj [("JoinRoom", JObj [("name", JStr (Legacy.name (this w)))])])).
Proof.
  intros K O P Te Ne w1 w2 w3 text.
  assert (Nn : data <> JNull) by (intros ->; discriminate).
  destruct (legacy_message_event payload data w K O P Nn) as (_ & Kp & K1).
  fold w1 in Kp, K1.
  destruct Kp as (_ & Jr & Nm & _).
  assert (J1 : Legacy.joined_room (this w1) = room).
  { rewrite Jr. unfold Rejoin.learn. simpl. now rewrite Te. }
  assert (N1 : Legacy.name (this w1) = Legacy.name (this w)).
  { rewrite Nm. unfold Rejoin.learn. simpl. now destruct (Rejoin.teaches data). }
  assert (Tx : Legacy.rejoin_message (this w1) = text).
  { unfold Legacy.rejoin_message, text, Rejoin.rejoin_text. now rewrite J1, N1. }
  pose proof (legacy_close_event w1 K1) as F2. fold w2 in F2.
  rewrite J1, Ne, Tx in F2.
  set (h' := List.length (sockets w1)) in *.
  set (l1 := update (Legacy._ws (this w1)) (set_readyState CLOSED) (sockets w1)) in *.
  set (fresh := mkWebSocket Legacy.ws_address CONNECTING false) in *.
  assert (L1 : List.length l1 = h') by apply length_update.
  assert (E2 : socket (Legacy._ws (this w2)) w2 = Some (set_wired fresh)).
  { rewrite F2. unfold socket. simpl.
    apply nth_error_update_same. rewrite <- L1. apply nth_error_snoc. }
  pose proof (legacy_open_event w2 _ E2 eq_refl eq_refl) as F3. fold w3 in F3.
  split; [exact J1|].
  split; [now rewrite F2|].
  split.
  { assert (T3 : trace w3 = trace w2 ++ ConsoleLog "connected"
                    :: map (Transmitted (Legacy._ws (this w2))) (Legacy.message_queue (this w2)))
      by now rewrite F3.
    assert (T2 : trace w2 = trace w1 ++ [ConsoleLog "disconnected";
                                         Constructed h' Legacy.ws_address])
      by now rewrite F2.
    assert (Q2 : Legacy.message_queue (this w2) = text :: Legacy.message_queue (this w1))
      by now rewrite F2.
    rewrite T3, transmitted_app. simpl. rewrite transmitted_map_Transmitted, T2, transmitted_app, Q2.
    simpl. now rewrite app_nil_r. }
  split; [now rewrite F3|].
  split; [intros r ->; reflexivity|intros ->; reflexivity].
Qed.

(** X9.  What a step can change of what the client knows: the room
    changes only when a frame with a truthy RoomStatus arrives, and then
    to the room_id of that frame; the name changes only when the name
    store is set. *)
Theorem the_room_changes_only_on_a_room_status_frame (st : Legacy.Step) w :
  Legacy.consistent w = true ->
  (Legacy.joined_room (this (Legacy.step st w)) <> Legacy.joined_room (this w) ->
   exists h payload data,
     st = Legacy.Happen (EvMessage h payload) /\ JSON_parse payload = Some data /\
     Rejoin.teaches data = Some (Legacy.joined_room (this (Legacy.step st w)))) /\
  (Legacy.name (this (Legacy.step st w)) <> Legacy.name (this w) ->
   exists value, st = Legacy.StoreSet value).
Proof.
  intros K.
  set (w' := Legacy.step st w).
  match goal with
  | |- ?G =>
      assert (Same : Legacy.joined_room (this w') = Legacy.joined_room (this w) /\
                     Legacy.name (this w') = Legacy.name (this w) -> G)
  end.
  { intros [A B]. split; intros N; contradiction. }
  destruct st as [c|value|ev].
  - apply Same. destruct (steady_exec c w) as (_ & A & B & _). split; assumption.
  - split; [intros N; now contradiction N|intros _; now exists value].
  - destruct (enabled ev w) eqn:En.
    2: { apply Same. unfold w'. simpl. unfold fire. rewrite En. split; reflexivity. }
    pose proof (legacy_enabled_current ev w K En) as Tg.
    destruct ev as [h|h payload|h]; simpl in Tg; subst h.
    + apply Same. unfold w'. simpl. unfold fire. rewrite En.
      destruct (is_wired (Legacy._ws (this w)) w); [|split; reflexivity].
      assert (St : Rejoin.steady (U := U) Legacy.on_open).
      { unfold Legacy.on_open. apply steady_bind; [apply steady_console_log|]. intros _.
        apply steady_bind; [apply steady_get_this|]. intros g.
        destruct (0 <? List.length (Legacy.message_queue g))%nat; [|apply steady_ret].
        apply steady_bind; [|intros _ w0; now apply keeps_frame].
        apply steady_forEach. intros x.
        apply steady_bind; [apply steady_get_this|]. intros g'. apply steady_ws_send. }
      destruct (keeps_settle Legacy.on_open (move (Legacy._ws (this w)) OPEN w) St)
        as (_ & A & B & _).
      split; assumption.
    + assert (W : w' = if is_wired (Legacy._ws (this w)) w
                       then settle (Legacy.on_message payload) w else w).
      { unfold w'. simpl. unfold fire. now rewrite En. }
      clearbody w'.
      destruct (is_wired (Legacy._ws (this w)) w); [|apply Same; subst w'; split; reflexivity].
      destruct (JSON_parse payload) as [data|] eqn:P.
      2: { apply Same. subst w'. unfold settle, Legacy.on_message. rewrite P.
           split; reflexivity. }
      unfold settle in W. rewrite (legacy_on_message payload data w P) in W.
      assert (Lp : data <> JNull ->
                Legacy.joined_room (this w')
                = Legacy.joined_room (Rejoin.learn data (this w)) /\
                Legacy.name (this w') = Legacy.name (this w)).
      { intros Nn.
        pose proof (keeps_settle _ (with_this (Rejoin.learn data (this w)) w)
                      (steady_loop data (Legacy.onmessage_handler (this w))))
          as (_ & A & B & _).
        unfold settle in A, B.
        assert (W' : w' = match forEach (Legacy.onmessage_handler (this w))
                                  (fun f => invoke_observer Legacy.exec f data)
                                  (with_this (Rejoin.learn data (this w)) w) with
                          | (Normal _, w2) => w2
                          | (Throw e, w2) => emit (Uncaught e) w2
                          end).
        { rewrite W. destruct data; try reflexivity. congruence. }
        rewrite W', A, B. split; [reflexivity|].
        unfold Rejoin.learn. simpl. now destruct (Rejoin.teaches data). }
      destruct (Rejoin.teaches data) as [room|] eqn:Te.
      * assert (Nn : data <> JNull) by (intros ->; discriminate).
        destruct (Lp Nn) as [A B].
        split; [|intros N; now contradiction N].
        intros _. exists (Legacy._ws (this w)), payload, data.
        split; [reflexivity|]. split; [exact P|].
        rewrite A, Te. unfold Rejoin.learn. rewrite Te. reflexivity.
      * apply Same.
        assert (Dn : data = JNull \/ data <> JNull)
          by (destruct data; [left; reflexivity|right; discriminate ..]).
        destruct Dn as [->|Nn].
        -- subst w'. split; reflexivity.
        -- destruct (Lp Nn) as [A B]. split; [|exact B].
           rewrite A. unfold Rejoin.learn. rewrite Te. reflexivity.
    + apply Same. unfold w'. simpl. rewrite (legacy_close_event w K). simpl. split; reflexivity.
Qed.

(** X10.  The class of src/gameServer.ts reads [data.RoomStatus] before
    it shows a frame to anybody: the frame [null] ends the handler by a
    TypeError and reaches no observer, while any other frame that
    decodes sets [opened] and is given to the first observer. *)
Theorem the_older_client_shows_a_frame_unless_it_is_null
    (payload : string) (data : Json) (f : ObserverId) (l : list ObserverId) w :
  Legacy.consistent w = true -> Rejoin.current w = Some OPEN ->
  Legacy.onmessage_handler (this w) = f :: l ->
  JSON_parse payload = Some data ->
  let w1 := fire Legacy.handlers (EvMessage (Legacy._ws (this w)) payload) w in
  (data = JNull -> w1 = emit (Uncaught TypeError) w) /\
  (data <> JNull ->
   Legacy.opened (this w1) = true /\
   exists more, deliveries (trace w1) = deliveries (trace w) ++ (f, data) :: more).
Proof.
  intros K O Hs P w1. split.
  - intros ->. unfold w1, fire, enabled, is_wired. simpl target.
    unfold Rejoin.current in O.
    pose proof K as K'. unfold Legacy.consistent in K'. rewrite live_spec in K'.
    destruct K' as [(s & E & _ & W) _]. rewrite E in O |- *. simpl in O.
    inversion O as [R]. rewrite R, W. simpl handle_message.
    unfold settle. rewrite (legacy_on_message payload JNull w P). reflexivity.
  - intros Nn.
    destruct (legacy_message_event payload data w K O P Nn) as (F & Kp & _).
    fold w1 in F, Kp. destruct Kp as (_ & _ & _ & Op & _).
    split; [rewrite Op; reflexivity|].
    rewrite Hs in F.
    destruct (legacy_loop_enters_the_first data f l
                (with_this (Rejoin.learn data (this w)) w)) as [ext T].
    rewrite <- F in T. exists (deliveries ext).
    rewrite T. simpl. rewrite deliveries_app. reflexivity.
Qed.

End RejoinClaims.

Section LandingClaims.
Context {D : Decoder}.
Implicit Types (w : World Legacy.GameServer unit).

#[local] Existing Instance Landing.caller.

(** X11.  The landing page closes its socket when a frame with a truthy
    RoomState arrives, but the client it leaves behind does not stay
    closed: on the close event it constructs one more socket, which
    starts connecting. *)
Theorem the_landing_page_closes_and_the_client_reconnects
    (payload : string) (data : Json) w :
  Legacy.consistent w = true -> Rejoin.current w = Some OPEN ->
  Legacy.onmessage_handler (this w) <> [] ->
  JSON_parse payload = Some data ->
  truthy_value (Game.prop data "RoomState") = true ->
  let w1 := fire Legacy.handlers (EvMessage (Legacy._ws (this w)) payload) w in
  let w2 := fire Legacy.handlers (EvClose (Legacy._ws (this w1))) w1 in
  Rejoin.current w1 = Some CLOSING /\
  constructions (trace w1) = constructions (trace w) /\
  constructions (trace w2) = S (constructions (trace w)) /\
  Legacy._ws (this w2) = List.length (sockets w) /\
  Rejoin.current w2 = Some CONNECTING.
Proof.
  intros K O Ne P T w1 w2.
  assert (Nn : data <> JNull) by (intros ->; discriminate).
  destruct (legacy_message_event payload data w K O P Nn) as (F & Kp & K1).
  fold w1 in F, Kp, K1.
  set (w0 := with_this (Rejoin.learn data (this w)) w) in *.
  destruct (Legacy.onmessage_handler (this w)) as [|f l]; [congruence|].
  assert (Ob : forall u, Landing.observer data u
                 = (u, mkReaction [Legacy.CallClose]
                         (Game.unprintable_value
                            (Game.prop_of (Game.prop data "RoomState") "room_id")))).
  { intros u. unfold Landing.observer. destruct data; try (now rewrite T); discriminate. }
  pose proof K as K'. unfold Legacy.consistent in K'. rewrite live_spec in K'.
  destruct K' as [(s & E & _ & W) _].
  unfold Rejoin.current in O. rewrite E in O. simpl in O. inversion O as [R].
  assert (E0 : forall e u, socket (Legacy._ws (this w0)) (emit e (with_caller u w0)) = Some s).
  { intros e u. unfold w0, Rejoin.learn, socket. simpl.
    destruct (Rejoin.teaches data); exact E. }
  assert (First : Rejoin.current (snd (invoke_observer Legacy.exec f data w0)) = Some CLOSING).
  { unfold invoke_observer. simpl observer. rewrite Ob.
    set (wA := emit (Delivered f data) (with_caller _ w0)).
    pose proof (E0 (Delivered f data) (caller w)) as EA.
    change (socket (Legacy._ws (this wA)) wA = Some s) in EA.
    unfold react. cbn [calls raises forEach]. unfold bind.
    change (Legacy.exec Legacy.CallClose) with (Legacy.close (U := unit)).
    assert (Cl : Legacy.close wA
                 = (Normal tt,
                    emit (CloseStarted (Legacy._ws (this wA)))
                      (with_sockets
                         (update (Legacy._ws (this wA)) (set_readyState CLOSING) (sockets wA))
                         wA))).
    { unfold Legacy.close, bind, get_this, ws_close.
      rewrite EA, R. reflexivity. }
    rewrite Cl. cbv beta iota. unfold ret. cbv beta iota.
    assert (Cu : Rejoin.current
                   (emit (CloseStarted (Legacy._ws (this wA)))
                      (with_sockets
                         (update (Legacy._ws (this wA)) (set_readyState CLOSING) (sockets wA))
                         wA))
                 = Some CLOSING).
    { unfold Rejoin.current, socket. cbn [sockets this emit with_sockets].
      unfold socket in EA. rewrite (nth_error_update_same _ _ _ _ EA). reflexivity. }
    destruct (Game.unprintable_value _); exact Cu. }
  assert (Cu1 : Rejoin.current w1 = Some CLOSING).
  { rewrite F. unfold settle. simpl forEach. unfold bind.
    destruct (invoke_observer Legacy.exec f data w0) as [[[]|e] wf]; simpl in First.
    - apply (closing_keeps wf); [exact First|].
      apply (keeps_settle _ wf (steady_loop data l)).
    - apply (closing_keeps wf); [exact First|]. now apply keeps_emit. }
  destruct Kp as (_ & _ & _ & _ & Sk & N1).
  assert (L1 : List.length (sockets w1) = List.length (sockets w)).
  { apply Nat.le_antisymm.
    - destruct (Nat.le_gt_cases (List.length (sockets w1)) (List.length (sockets w)))
        as [Le|Gt]; [exact Le|].
      pose proof (Sk (List.length (sockets w))) as S0. unfold socket in S0.
      assert (A : nth_error (sockets w0) (List.length (sockets w)) = None)
        by (apply nth_error_None; unfold w0; simpl; lia).
      rewrite A in S0.
      destruct (nth_error (sockets w1) (List.length (sockets w))) eqn:B; [contradiction|].
      apply nth_error_None in B. lia.
    - destruct (Nat.le_gt_cases (List.length (sockets w)) (List.length (sockets w1)))
        as [Le|Gt]; [exact Le|].
      pose proof (Sk (List.length (sockets w1))) as S0. unfold socket in S0.
      assert (A : nth_error (sockets w1) (List.length (sockets w1)) = None)
        by (apply nth_error_None; lia).
      rewrite A in S0.
      destruct (nth_error (sockets w0) (List.length (sockets w1))) eqn:B; [contradiction|].
      apply nth_error_None in B. unfold w0 in B. simpl in B. lia. }
  pose proof (legacy_close_event w1 K1) as F2. fold w2 in F2.
  split; [exact Cu1|].
  split; [rewrite N1; reflexivity|].
  split.
  { rewrite F2. simpl. rewrite constructions_app. simpl. rewrite N1. unfold w0. simpl. lia. }
  split; [rewrite F2; simpl; exact L1|].
  rewrite F2. unfold Rejoin.current, socket. simpl.
  set (l1 := update (Legacy._ws (this w1)) (set_readyState CLOSED) (sockets w1)).
  assert (Ll : List.length l1 = List.length (sockets w1)) by apply length_update.
  rewrite (nth_error_update_same set_wired (l1 ++ [mkWebSocket Legacy.ws_address CONNECTING false])
             (List.length (sockets w1)) (mkWebSocket Legacy.ws_address CONNECTING false)).
  - reflexivity.
  - rewrite <- Ll. apply nth_error_snoc.
Qed.

End LandingClaims.

Lemma the_client_rejoins_ahead_of_the_queue_witness :
  Legacy.consistent Rejoin.watched = true /\
  transmitted (trace
    (Legacy.run (C := Demo.legacy_caller) (D := Text.decoder)
       [Legacy.Happen (EvMessage 0 Rejoin.room_status_frame);
        Legacy.Happen (EvClose 0); Legacy.Happen (EvOpen 1)] Rejoin.watched))
  = [wire "{'JoinRoom':{'name':'Ann','room_id':'AB12'}}"].
Proof.
  split; [reflexivity|].
  destruct (the_client_rejoins_ahead_of_the_queue (C := Demo.legacy_caller) (D := Text.decoder)
              Rejoin.room_status_frame
              (JObj [("RoomStatus", JObj [("room_id", JStr "AB12")])])
              (Some (JStr "AB12")) Rejoin.watched
              eq_refl eq_refl eq_refl eq_refl eq_refl) as (_ & _ & T & _).
  exact T.
Defined.

Lemma the_room_changes_only_on_a_room_status_frame_witness :
  Legacy.consistent Rejoin.watched = true /\
  exists h payload data,
    Legacy.Happen (EvMessage 0 Rejoin.room_status_frame) = Legacy.Happen (EvMessage h payload) /\
    JSON_parse (Decoder := Text.decoder) payload = Some data /\
    Rejoin.teaches data = Some (Some (JStr "AB12")).
Proof.
  split; [reflexivity|].
  destruct (the_room_changes_only_on_a_room_status_frame
              (C := Demo.legacy_caller) (D := Text.decoder)
              (Legacy.Happen (EvMessage 0 Rejoin.room_status_frame)) Rejoin.watched eq_refl)
    as [R _].
  apply R. intros H. vm_compute in H. discriminate.
Defined.

Lemma the_older_client_shows_a_frame_unless_it_is_null_witness :
  Legacy.consistent Rejoin.watched = true /\
  fire (Legacy.handlers (C := Demo.legacy_caller) (D := Text.decoder))
    (EvMessage 0 "null") Rejoin.watched
  = emit (Uncaught TypeError) Rejoin.watched.
Proof.
  split; [reflexivity|].
  destruct (the_older_client_shows_a_frame_unless_it_is_null
              (C := Demo.legacy_caller) (D := Text.decoder)
              "null" JNull 0 [] Rejoin.watched eq_refl eq_refl eq_refl eq_refl) as [N _].
  exact (N eq_refl).
Defined.

Lemma the_landing_page_closes_and_the_client_reconnects_witness :
  Legacy.consistent (Landing.creating "Ann") = true /\
  transmitted (trace (Landing.creating "Ann")) = [wire "{'CreateRoom':{'name':'Ann'}}"] /\
  Rejoin.current
    (Legacy.run (C := Landing.caller) (D := Text.decoder)
       [Legacy.Happen (EvMessage 0 Demo.room_state_frame); Legacy.Happen (EvClose 0)]
       (Landing.creating "Ann"))
  = Some CONNECTING.
Proof.
  split; [reflexivity|]. split; [reflexivity|].
  destruct (the_landing_page_closes_and_the_client_reconnects (D := Text.decoder)
              Demo.room_state_frame
              (JObj [("RoomState", JObj [("players", JObj []); ("stage", JStr "Joining")])])
              (Landing.creating "Ann")
              eq_refl eq_refl ltac:(discriminate) eq_refl eq_refl) as (_ & _ & _ & _ & Cu).
  exact Cu.
Defined.

(* ================================================================== *)
(** ** Who played and who voted for which card *)

Section CardFacts.
Context {A : Type}.
Implicit Types (o : Cards.Obj A) (k : string).

Lemma own_put_same k (v : A) o : Cards.own k (Cards.put k v o) = Some v.
Proof.
  induction o as [|[k' v'] o IH]; simpl.
  - now rewrite String.eqb_refl.
  - destruct (k' =? k)%string eqn:E; simpl; rewrite E; [reflexivity|exact IH].
Qed.

Lemma own_put_other k k' (v : A) o : k' <> k -> Cards.own k' (Cards.put k v o) = Cards.own k' o.
Proof.
  intros N. induction o as [|[k0 v0] o IH]; simpl.
  - apply String.eqb_neq in N. rewrite String.eqb_sym. now rewrite N.
  - destruct (k0 =? k)%string eqn:E; simpl.
    + apply String.eqb_eq in E. subst k0.
      assert (E' : (k =? k')%string = false) by (apply String.eqb_neq; congruence).
      now rewrite E'.
    + destruct (k0 =? k')%string; [reflexivity|exact IH].
Qed.

End CardFacts.

Section CardLoops.
Implicit Types (entries votes : list (string * string)) (card player : string).

Lemma find_snoc {B} (f : B -> bool) (l : list B) (x : B) :
  find f (l ++ [x]) = match find f l with
                      | Some y => Some y
                      | None => if f x then Some x else None
                      end.
Proof.
  induction l as [|y l IH]; simpl; [reflexivity|].
  destruct (f y); [reflexivity|exact IH].
Qed.

Lemma last_holder_cons card e entries :
  Cards.last_holder card (e :: entries)
  = match Cards.last_holder card entries with
    | Some p => Some p
    | None => if (snd e =? card)%string then Some (fst e) else None
    end.
Proof.
  unfold Cards.last_holder. simpl rev. rewrite find_snoc.
  destruct (find _ (rev entries)); simpl; [reflexivity|].
  destruct (snd e =? card)%string; reflexivity.
Qed.

Lemma last_holder_in card player entries :
  Cards.last_holder card entries = Some player -> In (player, card) entries.
Proof.
  unfold Cards.last_holder. intros H.
  destruct (find _ (rev entries)) as [[p c]|] eqn:F; [|discriminate].
  apply find_some in F. destruct F as [I E]. simpl in *.
  apply String.eqb_eq in E. inversion H. subst. now apply in_rev.
Qed.

(** The first loop, from any object. *)
Lemma holders_from entries : forall (o : Cards.Obj string) card,
  Cards.own card (fold_left (fun o e => Cards.assign (snd e) (fst e) o) entries o)
  = if (card =? "__proto__")%string then Cards.own card o
    else match Cards.last_holder card entries with
         | Some p => Some p
         | None => Cards.own card o
         end.
Proof.
  induction entries as [|[p c] entries IH]; intros o card; simpl fold_left.
  - unfold Cards.last_holder. simpl. now destruct (card =? "__proto__")%string.
  - rewrite IH, last_holder_cons. simpl fst. simpl snd.
    destruct (card =? "__proto__")%string eqn:Pr.
    + unfold Cards.assign. destruct (c =? "__proto__")%string eqn:Pc; [reflexivity|].
      apply own_put_other. apply String.eqb_eq in Pr. apply String.eqb_neq in Pc. congruence.
    + destruct (Cards.last_holder card entries); [reflexivity|].
      unfold Cards.assign.
      destruct (c =? card)%string eqn:E.
      * apply String.eqb_eq in E. subst c. rewrite Pr. apply own_put_same.
      * destruct (c =? "__proto__")%string; [reflexivity|].
        apply own_put_other. apply String.eqb_neq in E. congruence.
Qed.

Lemma voters_of_cons card player c votes :
  Cards.voters_of card ((player, c) :: votes)
  = if (c =? card)%string then player :: Cards.voters_of card votes
    else Cards.voters_of card votes.
Proof. unfold Cards.voters_of. simpl. now destruct (c =? card)%string. Qed.

(** The second loop, from an object that has no property of its own
    under an inherited name. *)
Lemma tally_from votes : forall (o : Cards.Obj (list string)),
  (forall k, Cards.is_inherited k = true -> Cards.own k o = None) ->
  match Cards.tally o votes with
  | Some o' =>
      (forall e, In e votes -> Cards.is_inherited (snd e) = false) /\
      (forall card, Cards.own card o'
                    = Cards.gathered (Cards.own card o) (Cards.voters_of card votes)) /\
      (forall k, Cards.is_inherited k = true -> Cards.own k o' = None)
  | None => exists e, In e votes /\ Cards.is_inherited (snd e) = true
  end.
Proof.
  induction votes as [|[p c] votes IH]; intros o Inv.
  - simpl. split; [intros e []|]. split; [|exact Inv].
    intros card. unfold Cards.voters_of. simpl. destruct (Cards.own card o); simpl;
      [now rewrite app_nil_r|reflexivity].
  - simpl Cards.tally. unfold Cards.vote_for.
    assert (Step : forall (mine : list string),
              Cards.is_inherited c = false ->
              (forall card, Cards.own card (Cards.put c mine o)
                            = if (c =? card)%string then Some mine else Cards.own card o) /\
              (forall k, Cards.is_inherited k = true -> Cards.own k (Cards.put c mine o) = None)).
    { intros mine Nc. split.
      - intros card. destruct (c =? card)%string eqn:E.
        + apply String.eqb_eq in E. subst card. apply own_put_same.
        + apply own_put_other. apply String.eqb_neq in E. congruence.
      - intros k Ik. rewrite own_put_other; [now apply Inv|]. intros ->. congruence. }
    assert (Go : forall (mine : list string),
              Cards.is_inherited c = false ->
              Cards.gathered (Some mine) [] = Cards.gathered (Cards.own c o) [p] ->
              match Cards.tally (Cards.put c mine o) votes with
              | Some o' =>
                  (forall e, In e ((p, c) :: votes) -> Cards.is_inherited (snd e) = false) /\
                  (forall card, Cards.own card o'
                     = Cards.gathered (Cards.own card o)
                         (Cards.voters_of card ((p, c) :: votes))) /\
                  (forall k, Cards.is_inherited k = true -> Cards.own k o' = None)
              | None => exists e, In e ((p, c) :: votes) /\ Cards.is_inherited (snd e) = true
              end).
    { intros mine Nc Gm. destruct (Step mine Nc) as [Ow Inv'].
      pose proof (IH (Cards.put c mine o) Inv') as H.
      destruct (Cards.tally (Cards.put c mine o) votes) as [o'|].
      - destruct H as (H1 & H2 & H3). split; [|split; [|exact H3]].
        + intros e [<-|I]; [exact Nc|now apply H1].
        + intros card. rewrite H2, Ow, voters_of_cons.
          destruct (c =? card)%string eqn:E; [|reflexivity].
          apply String.eqb_eq in E. subst card.
          simpl in Gm. rewrite app_nil_r in Gm.
          destruct (Cards.own c o) as [vs|]; simpl in Gm; inversion Gm; subst; simpl.
          * now rewrite <- app_assoc.
          * reflexivity.
      - destruct H as (e & I & Ie). exists e. split; [now right|exact Ie]. }
    destruct (Cards.own c o) as [vs|] eqn:Oc.
    + assert (Nc : Cards.is_inherited c = false).
      { destruct (Cards.is_inherited c) eqn:Ic; [|reflexivity].
        rewrite (Inv c Ic) in Oc. discriminate. }
      apply (Go (vs ++ [p]) Nc). simpl. now rewrite app_nil_r.
    + destruct (Cards.is_inherited c) eqn:Ic.
      * exists (p, c). split; [now left|exact Ic].
      * apply (Go [p] eq_refl). reflexivity.
Qed.

Lemma holders_in (entries : list (string * string)) player card :
  In (player, card) entries -> exists p, Cards.last_holder card entries = Some p.
Proof.
  intros I. unfold Cards.last_holder.
  destruct (find (fun e => (snd e =? card)%string) (rev entries)) as [e|] eqn:F.
  - now exists (fst e).
  - exfalso. pose proof (find_none _ _ F (player, card)) as N.
    rewrite <- in_rev in N. specialize (N I). simpl in N.
    rewrite String.eqb_refl in N. discriminate.
Qed.

Lemma one_holder (entries : list (string * string)) p p' card :
  NoDup (map snd entries) -> In (p, card) entries -> In (p', card) entries -> p = p'.
Proof.
  induction entries as [|[q c] entries IH]; intros Nd I I'; [destruct I|].
  simpl in Nd. inversion Nd as [|? ? Ni Nd']. subst.
  destruct I as [E|I], I' as [E'|I'].
  - congruence.
  - inversion E. subst. exfalso. apply Ni. now apply (in_map snd _ (p', card)).
  - inversion E'. subst. exfalso. apply Ni. now apply (in_map snd _ (p, card)).
  - now apply IH.
Qed.

(** No run of the block leaves a property of its own under an inherited
    name among the voters. *)
Lemma runs_keep_inherited_names_free rounds : forall state state',
  (forall k, Cards.is_inherited k = true -> Cards.own k (snd state) = None) ->
  Cards.runs rounds state = Some state' ->
  forall k, Cards.is_inherited k = true -> Cards.own k (snd state') = None.
Proof.
  induction rounds as [|[h v] rounds IH]; intros state state' Inv R.
  - simpl in R. inversion R. now subst.
  - simpl in R. unfold Cards.block in R.
    pose proof (tally_from v (snd state) Inv) as T.
    destruct (Cards.tally (snd state) v) as [o'|]; [|discriminate].
    destruct T as (_ & _ & Inv').
    exact (IH (_, o') state' Inv' R).
Qed.

End CardLoops.

Section CardClaims.
Implicit Types (entries votes : list (string * string)) (card player : string).

(** X12.  The first loop of the Results branch maps every card to the
    player of the last entry that names it: where two players hold the
    same card the later one wins, a card called __proto__ is not
    recorded at all, and when no card is held twice every player is
    found again under the card they hold. *)
Theorem card_to_player_names_the_last_holder entries :
  (forall card,
     Cards.own card (Cards.card_to_player entries)
     = if (card =? "__proto__")%string then None else Cards.last_holder card entries) /\
  (NoDup (map snd entries) ->
   forall player card, In (player, card) entries -> card <> "__proto__" ->
     Cards.own card (Cards.card_to_player entries) = Some player).
Proof.
  assert (G : forall card,
            Cards.own card (Cards.card_to_player entries)
            = if (card =? "__proto__")%string then None else Cards.last_holder card entries).
  { intros card. unfold Cards.card_to_player. rewrite holders_from. simpl.
    destruct (card =? "__proto__")%string; [reflexivity|].
    now destruct (Cards.last_holder card entries). }
  split; [exact G|].
  intros Nd player card I Np. rewrite G.
  apply String.eqb_neq in Np. rewrite Np.
  destruct (holders_in entries player card I) as [p L]. rewrite L.
  f_equal. apply (one_holder entries p player card Nd); [|exact I].
  now apply last_holder_in.
Qed.

(** X13.  The second loop of the Results branch gathers, for every card,
    the players who voted for it, in the order of the entries; a card
    nobody voted for gets no property.  The loop throws exactly when
    some vote names a card that is called like a property every object
    inherits (toString, constructor, __proto__, ...). *)
Theorem card_to_voters_gathers_the_votes votes :
  (Cards.card_to_voters votes = None <->
   exists e, In e votes /\ Cards.is_inherited (snd e) = true) /\
  (forall o card, Cards.card_to_voters votes = Some o ->
     Cards.own card o = match Cards.voters_of card votes with
                        | [] => None
                        | voters => Some voters
                        end).
Proof.
  unfold Cards.card_to_voters.
  pose proof (tally_from votes [] (fun _ _ => eq_refl)) as T.
  destruct (Cards.tally [] votes) as [o'|].
  - destruct T as (Ni & G & _). split.
    + split; [discriminate|]. intros (e & I & Ie). rewrite (Ni e I) in Ie. discriminate.
    + intros o card E. inversion E. subst o. rewrite G. simpl.
      now destruct (Cards.voters_of card votes).
  - split; [split; [intros _; exact T|reflexivity]|discriminate].
Qed.

(** X14.  The reactive block of Results.svelte never starts afresh: each
    run adds the voters of the votes it is given behind those a card has
    gathered in earlier runs, and a card keeps the player of an earlier
    run until a later run names the card again. *)
Theorem the_results_block_never_forgets
    (rounds : list (list (string * string) * list (string * string)))
    (holds votes : list (string * string))
    (state state' : Cards.Obj string * Cards.Obj (list string)) :
  Cards.runs rounds ([], []) = Some state ->
  Cards.block state holds votes = Some state' ->
  forall card,
    Cards.own card (snd state')
    = Cards.gathered (Cards.own card (snd state)) (Cards.voters_of card votes) /\
    Cards.own card (fst state')
    = if (card =? "__proto__")%string then Cards.own card (fst state)
      else match Cards.last_holder card holds with
           | Some player => Some player
           | None => Cards.own card (fst state)
           end.
Proof.
  intros R B card.
  pose proof (runs_keep_inherited_names_free rounds ([], []) state (fun _ _ => eq_refl) R) as Inv.
  unfold Cards.block in B.
  pose proof (tally_from votes (snd state) Inv) as T.
  destruct (Cards.tally (snd state) votes) as [o'|]; [|discriminate].
  inversion B. subst state'. simpl.
  destruct T as (_ & G & _). split; [apply G|apply holders_from].
Qed.

End CardClaims.

Lemma the_results_block_never_forgets_witness :
  Cards.runs [([("Ann", "c1.jpg"); ("Bob", "c2.jpg")], [("Bob", "c1.jpg")])] ([], [])
  = Some ([("c1.jpg", "Ann"); ("c2.jpg", "Bob")], [("c1.jpg", ["Bob"])]) /\
  Cards.own "c1.jpg"
    (snd ([("c1.jpg", "Ann"); ("c2.jpg", "Bob")], [("c1.jpg", ["Bob"; "Bob"])]))
  = Some ["Bob"; "Bob"].
Proof.
  split; [reflexivity|].
  destruct (the_results_block_never_forgets
              [([("Ann", "c1.jpg"); ("Bob", "c2.jpg")], [("Bob", "c1.jpg")])]
              [("Ann", "c1.jpg"); ("Bob", "c2.jpg")] [("Bob", "c1.jpg")]
              ([("c1.jpg", "Ann"); ("c2.jpg", "Bob")], [("c1.jpg", ["Bob"])])
              ([("c1.jpg", "Ann"); ("c2.jpg", "Bob")], [("c1.jpg", ["Bob"; "Bob"])])
              eq_refl eq_refl "c1.jpg") as [V _].
  exact V.
Defined.

(* ================================================================== *)
(** ** The initials of a name *)

Section JoiningFacts.
Implicit Types (s a b word : string) (l : list string).

Lemma append_empty_r s : (s ++ EmptyString)%string = s.
Proof. induction s as [|c s IH]; simpl; [reflexivity|now rewrite IH]. Qed.

Lemma append_assoc_string a b s : ((a ++ b) ++ s)%string = (a ++ (b ++ s))%string.
Proof. induction a as [|c a IH]; simpl; [reflexivity|now rewrite IH]. Qed.

Lemma has_space_app a b :
  Joining.has_space (a ++ b)%string = Joining.has_space a || Joining.has_space b.
Proof.
  induction a as [|c a IH]; simpl; [reflexivity|].
  rewrite IH. now rewrite orb_assoc.
Qed.

Lemma split_nonempty s : Joining.split s <> [].
Proof.
  destruct s as [|c s]; simpl; [discriminate|].
  destruct (c =? " ")%char; [discriminate|].
  destruct (Joining.split s); discriminate.
Qed.

Lemma split_app a b :
  Joining.split (a ++ String " " b)%string = Joining.split a ++ Joining.split b.
Proof.
  induction a as [|c a IH]; simpl; [reflexivity|].
  destruct (c =? " ")%char; [now rewrite IH|].
  rewrite IH. pose proof (split_nonempty a) as N.
  destruct (Joining.split a) as [|w ws]; [congruence|reflexivity].
Qed.

Lemma split_spaceless s : Joining.has_space s = false -> Joining.split s = [s].
Proof.
  induction s as [|c s IH]; simpl; [reflexivity|].
  destruct (c =? " ")%char; simpl; [discriminate|].
  intros H. now rewrite (IH H).
Qed.

Lemma split_words s : Forall (fun word => Joining.has_space word = false) (Joining.split s).
Proof.
  induction s as [|c s IH]; simpl; [now constructor|].
  destruct (c =? " ")%char eqn:E; [now constructor|].
  pose proof (split_nonempty s) as N.
  destruct (Joining.split s) as [|w ws]; [congruence|].
  inversion IH; subst. constructor; [|assumption]. simpl. now rewrite E.
Qed.

Lemma join_empty_cons word l :
  join EmptyString (word :: l) = (word ++ join EmptyString l)%string.
Proof.
  destruct l as [|x l]; simpl; [now rewrite append_empty_r|reflexivity].
Qed.

Lemma join_empty_app l l' :
  join EmptyString (l ++ l') = (join EmptyString l ++ join EmptyString l')%string.
Proof.
  induction l as [|x l IH]; [reflexivity|].
  change ((x :: l) ++ l') with (x :: (l ++ l')).
  rewrite !join_empty_cons, IH. now rewrite append_assoc_string.
Qed.

Lemma first_spaceless word :
  Joining.has_space word = false -> Joining.has_space (Joining.first word) = false.
Proof.
  destruct word as [|c word]; simpl; [reflexivity|].
  destruct (c =? " ")%char; simpl; [discriminate|reflexivity].
Qed.

End JoiningFacts.

Section JoiningClaims.

(** X15.  getInitialsFromString gives the first character of every word
    of the name that is not empty, in order: the initials of two names
    with a space between them are the initials of the first followed by
    those of the second, a name without a space has its first character
    as its initials, and the empty name has none.  The result never
    contains a space. *)
Theorem the_initials_are_the_first_letters_of_the_words :
  (forall a b : string,
     Joining.getInitialsFromString (a ++ String " " b)%string
     = (Joining.getInitialsFromString a ++ Joining.getInitialsFromString b)%string) /\
  (forall (c : ascii) (word : string),
     Joining.has_space (String c word) = false ->
     Joining.getInitialsFromString (String c word) = String c EmptyString) /\
  Joining.getInitialsFromString EmptyString = EmptyString /\
  (forall name : string, Joining.has_space (Joining.getInitialsFromString name) = false).
Proof.
  split; [|split; [|split]].
  - intros a b. unfold Joining.getInitialsFromString.
    now rewrite split_app, map_app, join_empty_app.
  - intros c word H. unfold Joining.getInitialsFromString.
    now rewrite (split_spaceless _ H).
  - reflexivity.
  - intros name. unfold Joining.getInitialsFromString.
    pose proof (split_words name) as W.
    induction (Joining.split name) as [|w ws IH]; [reflexivity|].
    inversion W; subst. simpl map. rewrite join_empty_cons, has_space_app.
    rewrite first_spaceless by assumption. now apply IH.
Qed.

End JoiningClaims.
